(** * Sparse Merkle trees, the tree pool and the nullifier registry

    A shallow embedding of [src/merkletree.ts] (class [MerkleTree]),
    of the pool helper (class [MerkleHelper]) and of [src/manager.ts]
    (class [MerkleManager]), with the properties of their specification.

    Conventions of the embedding.
    - A JavaScript array is a list of optional entries: [None] is a hole,
      which reads as [undefined].  Reads out of range give [undefined],
      writes past the end extend the array.
    - A method that mutates [this] is a function from the state before to
      the state after, paired with its completion: [Ok v] for a normal
      return, [Throw e] for an exception.  The state that comes with a
      [Throw] is the state at the moment the exception left the method.
    - The hash primitive is external to the repository and is a parameter
      ([HashPrimitive]). *)

From Stdlib Require Import ZArith Lia.
From stdpp Require Import base decidable option list gmap strings.

Local Open Scope Z_scope.
Local Open Scope nat_scope.

(** ** Exceptions and completions *)

Inductive Error : Type :=
| InvalidStartPosition       (* 'Invalid start position' *)
| StartPositionMismatch      (* 'Start position does not match current tree length' *)
| CurrentTreeUndefined       (* 'Current tree is undefined' *)
| ElementNotFound            (* `Couldn't find ... in the MerkleTree` *)
| ElementNotFoundInAnyTree   (* 'Element not found in any tree' *)
| NullifierExists            (* 'Nullifier already exists' *)
| TypeError.                 (* the runtime's error on a use of undefined *)

Inductive result (A : Type) : Type :=
| Ok (a : A)
| Throw (e : Error).
Arguments Ok {A} a.
Arguments Throw {A} e.

#[global] Instance Error_eq_dec : EqDecision Error.
Proof. solve_decision. Defined.

(** The state-and-exception monad of a method on a mutable object. *)
Definition M (S A : Type) : Type := S -> S * result A.

Definition ret {S A : Type} (a : A) : M S A := fun s => (s, Ok a).
Definition throw {S A : Type} (e : Error) : M S A := fun s => (s, Throw e).
Definition bind {S A B : Type} (m : M S A) (k : A -> M S B) : M S B :=
  fun s => match m s with
           | (s', Ok a) => k a s'
           | (s', Throw e) => (s', Throw e)
           end.
Definition gets {S A : Type} (f : S -> result A) : M S A := fun s => (s, f s).

Declare Scope method_scope.
Delimit Scope method_scope with method.
Notation "'let*' x ':=' m 'in' k" := (bind m (fun x => k))
  (at level 10, x name, m at level 100, k at level 200) : method_scope.

(** ** JavaScript arrays *)

Abbreviation jsarray A := (list (option A)).

Section JsArray.
Context {A : Type}.

(** [a[i]] for an index [i >= 0]. *)
Definition js_get (a : jsarray A) (i : nat) : option A :=
  match a !! i with
  | Some (Some x) => Some x
  | _ => None
  end.

(** [a[i] = v] for an index [i >= 0]: in range it overwrites, past the
    end it extends the array and leaves holes in between. *)
Definition js_set (a : jsarray A) (i : nat) (v : A) : jsarray A :=
  if decide (i < length a) then <[i := Some v]> a
  else a ++ replicate (i - length a) None ++ [Some v].

(** [a[i] = v] for an integer [i]: a negative [i] is not an array index;
    the assignment then creates a property that neither [length] nor any
    indexed read, [map], [indexOf] or [forEach] sees.  An [i] from
    [2 ^ 32 - 1] on is no array index either, and no array is that long:
    [js_set] stands for the assignment below that bound, and a property
    on a write at an offset of the caller's choice takes the bound as a
    hypothesis. *)
Definition js_setZ (a : jsarray A) (i : Z) (v : A) : jsarray A :=
  if decide (i < 0)%Z then a else js_set a (Z.to_nat i) v.

(** [a.push(v)] *)
Definition js_push (a : jsarray A) (v : A) : jsarray A := a ++ [Some v].

(** [x ?? y] *)
Definition nullish (x y : option A) : option A :=
  match x with
  | Some _ => x
  | None => y
  end.
End JsArray.

(** The relative index of [Array.prototype.slice]. *)
Definition js_rel (len i : Z) : Z :=
  if decide (i < 0)%Z then Z.max (len + i) 0 else Z.min i len.

(** [l.slice(b, e)] on a dense array. *)
Definition slice {A : Type} (l : list A) (b e : Z) : list A :=
  let len := Z.of_nat (length l) in
  let k := js_rel len b in
  let f := js_rel len e in
  take (Z.to_nat (f - k)) (drop (Z.to_nat k) l).

(** [l.slice(b)] *)
Definition slice_from {A : Type} (l : list A) (b : Z) : list A :=
  slice l b (Z.of_nat (length l)).

(** ** The hash primitive

    Node values are [Uint8Array]s.  [generateProof] compares them through
    [arrayToBigInt] and [validateProof] through [bytesToHex]; on values of
    one fixed width both comparisons are equality of the values, which is
    the decidable equality of [Hash].  [poseidon l r] stands for
    [poseidonFunc([arrayToByteLength(l, 32), arrayToByteLength(r, 32)])]
    and [ZERO_HASH] for [bigIntToArray(ZERO_HASH_BIGINT, 32)]. *)
Class HashPrimitive : Type := {
  Hash : Type;
  Hash_eq_dec :: EqDecision Hash;
  poseidon : Hash -> Hash -> Hash;
  ZERO_HASH : Hash;
}.

Module MerkleTree.
Section MerkleTree.
Context `{HP : HashPrimitive}.

Record MerkleProof : Type := {
  element : Hash;
  elements : list (option Hash);   (* an entry may be undefined *)
  indices : Z;
  proof_root : option Hash;
}.

Record t : Type := {
  treeNumber : nat;
  depth : nat;
  zeros : list Hash;
  tree : jsarray (jsarray Hash);   (* [tree[level][position]] *)
  nullifiers : list Hash;          (* declared, never used *)
}.

Definition with_tree (this : t) (tr : jsarray (jsarray Hash)) : t :=
  {| treeNumber := treeNumber this; depth := depth this;
     zeros := zeros this; tree := tr; nullifiers := nullifiers this |}.

(** [get root] (merkletree.ts 98-102): [this.tree[this.depth][0]]. *)
Definition root (this : t) : result (option Hash) :=
  match js_get (tree this) (depth this) with
  | Some lvl => Ok (js_get lvl 0)
  | None => Throw TypeError
  end.

(** [get length] (merkletree.ts 108-112): [this.tree[0].length]. *)
Definition length (this : t) : result nat :=
  match js_get (tree this) 0 with
  | Some lvl => Ok (List.length lvl)
  | None => Throw TypeError
  end.

(** [hashLeftRight] (merkletree.ts 120-130): both operands go through
    [arrayToByteLength], which reads its argument as an array, so an
    undefined operand raises. *)
Definition hashLeftRight (left right : option Hash) : result Hash :=
  match left, right with
  | Some l, Some r => Ok (poseidon l r)
  | _, _ => Throw TypeError
  end.

Definition zeroValue : Hash := ZERO_HASH.

(** The loop of [getZeroValueLevels] (merkletree.ts 146-164), [n]
    iterations from [level] on. *)
Fixpoint zeroLevelsLoop (n level : nat) (levels : list Hash) : result (list Hash) :=
  match n with
  | O => Ok levels
  | S n' =>
      match hashLeftRight (levels !! (level - 1)) (levels !! (level - 1)) with
      | Ok h => zeroLevelsLoop n' (S level) (levels ++ [h])
      | Throw e => Throw e
      end
  end.

Definition getZeroValueLevels (depth : nat) : result (list Hash) :=
  zeroLevelsLoop (depth - 1) 1 [zeroValue].

(** [zeros[depth - 1]]; for [depth = 0] the index is [-1]. *)
Definition zeros_top (zs : list Hash) (depth : nat) : option Hash :=
  match depth with
  | O => None
  | S d => zs !! d
  end.

(** [createTree] (merkletree.ts 176-193): [depth] empty levels, then
    [tree[depth] = [fromTree?.root ?? hashLeftRight(zeros[depth - 1],
    zeros[depth - 1])]]. *)
Definition createTree (treeNumber depth : nat) (fromTree : option t) : result t :=
  match getZeroValueLevels depth with
  | Throw e => Throw e
  | Ok zs =>
      let tr : jsarray (jsarray Hash) := replicate depth (Some []) in
      let seed :=
        match fromTree with
        | None => Ok None                 (* fromTree?.root *)
        | Some ft => root ft
        end in
      match seed with
      | Throw e => Throw e
      | Ok (Some r) =>
          Ok {| treeNumber := treeNumber; depth := depth; zeros := zs;
                tree := js_set tr depth [Some r]; nullifiers := [] |}
      | Ok None =>
          match hashLeftRight (zeros_top zs depth) (zeros_top zs depth) with
          | Throw e => Throw e
          | Ok r =>
              Ok {| treeNumber := treeNumber; depth := depth; zeros := zs;
                    tree := js_set tr depth [Some r]; nullifiers := [] |}
          end
      end
  end.

(** The inner loop of [rebuildSparseTree] (merkletree.ts 205-218) over
    one level: [cur] is what
    is left of [this.tree[level]] from [pos] on, [acc] is
    [this.tree[level + 1]] so far.  On an exception [acc] holds the
    hashes pushed before it. *)
Fixpoint hashPairs (z : option Hash) (cur acc : jsarray Hash)
  : jsarray Hash * result unit :=
  match cur with
  | [] => (acc, Ok tt)
  | l :: rest =>
      match rest with
      | [] =>
          match hashLeftRight l (nullish None z) with
          | Ok h => (js_push acc h, Ok tt)
          | Throw e => (acc, Throw e)
          end
      | r :: rest' =>
          match hashLeftRight l (nullish r z) with
          | Ok h => hashPairs z rest' (js_push acc h)
          | Throw e => (acc, Throw e)
          end
      end
  end.

(** The outer loop of [rebuildSparseTree] (merkletree.ts 200-219), [n]
    iterations from [level]: [this.tree[level + 1] = []], then the pairs
    of [this.tree[level]]. *)
Fixpoint rebuildLoop (n level : nat) (zs : list Hash)
    (tr : jsarray (jsarray Hash)) : jsarray (jsarray Hash) * result unit :=
  match n with
  | O => (tr, Ok tt)
  | S n' =>
      let tr1 := js_set tr (level + 1) [] in
      match js_get tr1 level with
      | None => (tr1, Throw TypeError)
      | Some cur =>
          let '(next, r) := hashPairs (zs !! level) cur [] in
          let tr2 := js_set tr1 (level + 1) next in
          match r with
          | Throw e => (tr2, Throw e)
          | Ok _ => rebuildLoop n' (S level) zs tr2
          end
      end
  end.

(** [rebuildSparseTree] (merkletree.ts 198-220). *)
Definition rebuildSparseTree : M t unit :=
  fun this =>
    let '(tr, r) := rebuildLoop (depth this) 0 (zeros this) (tree this) in
    (with_tree this tr, r).

(** [leaves.forEach((leaf, index) => (this.tree[0][startPosition + index] = leaf))] *)
Fixpoint writeLeaves (lvl : jsarray Hash) (pos : Z) (leaves : list Hash) : jsarray Hash :=
  match leaves with
  | [] => lvl
  | leaf :: rest => writeLeaves (js_setZ lvl pos leaf) (pos + 1)%Z rest
  end.

(** [insertLeaves] (merkletree.ts 227-241): nothing for no leaves; the
    interior is not rebuilt after the writes. *)
Definition insertLeaves (leaves : list Hash) (startPosition : Z) : M t unit :=
  fun this =>
    match leaves with
    | [] => (this, Ok tt)
    | _ :: _ =>
        match js_get (tree this) 0 with
        | None => (this, Throw TypeError)
        | Some lvl =>
            (with_tree this (<[0 := Some (writeLeaves lvl startPosition leaves)]> (tree this)),
             Ok tt)
        end
    end.

(** [this.tree[0].map(arrayToBigInt).indexOf(arrayToBigInt(element))];
    [map] and [indexOf] skip holes.  [None] is the result [-1]. *)
Fixpoint indexOf (lvl : jsarray Hash) (e : Hash) : option nat :=
  match lvl with
  | [] => None
  | x :: rest =>
      if decide (x = Some e) then Some 0
      else match indexOf rest e with
           | Some i => Some (S i)
           | None => None
           end
  end.

(** The level loop of [generateProof] (merkletree.ts 268-283), [n]
    iterations from [level], with [acc] the siblings pushed so far. *)
Fixpoint siblingsLoop (n level index : nat) (this : t) (acc : list (option Hash))
  : result (list (option Hash)) :=
  match n with
  | O => Ok acc
  | S n' =>
      match js_get (tree this) level with
      | None => Throw TypeError
      | Some lvl =>
          let sibling :=
            if Nat.even index
            then nullish (js_get lvl (index + 1)) (zeros this !! level)
            else js_get lvl (index - 1) in
          siblingsLoop n' (S level) (index / 2) this (acc ++ [sibling])
      end
  end.

(** [generateProof] (merkletree.ts 249-293); it reads the tree and
    writes nothing. *)
Definition generateProof (this : t) (e : Hash) : result MerkleProof :=
  match js_get (tree this) 0 with
  | None => Throw TypeError
  | Some lvl0 =>
      match indexOf lvl0 e with
      | None => Throw ElementNotFound
      | Some initialIndex =>
          match siblingsLoop (depth this) 0 initialIndex this [] with
          | Throw err => Throw err
          | Ok els =>
              match root this with
              | Throw err => Throw err
              | Ok r =>
                  Ok {| element := e; elements := els;
                        indices := Z.of_nat initialIndex; proof_root := r |}
              end
          end
      end
  end.

(** The [reduce] of [validateProof] (merkletree.ts 307-313) from array
    index [index] on. *)
Fixpoint reduceProof (ind : Z) (index : nat) (current : Hash)
    (els : list (option Hash)) : result Hash :=
  match els with
  | [] => Ok current
  | el :: rest =>
      let step :=
        if (Z.land ind (2 ^ Z.of_nat index) >? 0)%Z
        then hashLeftRight el (Some current)
        else hashLeftRight (Some current) el in
      match step with
      | Ok h => reduceProof ind (S index) h rest
      | Throw e => Throw e
      end
  end.

(** [validateProof] (merkletree.ts 303-316); [bytesToHex] of an undefined
    root raises. *)
Definition validateProof (proof : MerkleProof) : result bool :=
  match reduceProof (indices proof) 0 (element proof) (elements proof) with
  | Throw e => Throw e
  | Ok calculatedRoot =>
      match proof_root proof with
      | None => Throw TypeError
      | Some r => Ok (bool_decide (r = calculatedRoot))
      end
  end.
End MerkleTree.
End MerkleTree.

(** ** The pool of trees

    Class [MerkleHelper], the source file named helper in the imports of
    [manager.ts]. *)
Module MerkleHelper.
Section MerkleHelper.
Context `{HP : HashPrimitive}.
Local Open Scope method_scope.

Record t : Type := {
  trees : list MerkleTree.t;
  currentTreeIndex : nat;
  maxLeaves : Z;
  treeDepth : nat;
}.

Definition with_trees (this : t) (ts : list MerkleTree.t) (idx : nat) : t :=
  {| trees := ts; currentTreeIndex := idx;
     maxLeaves := maxLeaves this; treeDepth := treeDepth this |}.

(** [new MerkleHelper(treeDepth)] *)
Definition new (treeDepth : nat) : result t :=
  match MerkleTree.createTree 0 treeDepth None with
  | Throw e => Throw e
  | Ok firstTree =>
      Ok {| trees := [firstTree]; currentTreeIndex := 0;
            maxLeaves := (2 ^ Z.of_nat treeDepth)%Z; treeDepth := treeDepth |}
  end.

(** [get currentTree] *)
Definition currentTree (this : t) : result MerkleTree.t :=
  match trees this !! currentTreeIndex this with
  | Some tr => Ok tr
  | None => Throw CurrentTreeUndefined
  end.

(** [this.currentTree.length] *)
Definition currentLength (this : t) : result nat :=
  match currentTree this with
  | Ok tr => MerkleTree.length tr
  | Throw e => Throw e
  end.

(** A call [this.currentTree.m(...)] of a mutating method: the tree is
    the object stored in [this.trees], so the pool sees the mutation. *)
Definition onCurrentTree {A : Type} (m : M MerkleTree.t A) : M t A :=
  fun this =>
    match currentTree this with
    | Throw e => (this, Throw e)
    | Ok tr =>
        let '(tr', r) := m tr in
        (with_trees this (<[currentTreeIndex this := tr']> (trees this))
           (currentTreeIndex this), r)
    end.

(** [createNextTree] (helper 82-91) *)
Definition createNextTree : M t unit :=
  fun this =>
    let nextTreeNumber := length (trees this) in
    match currentTree this with
    | Throw e => (this, Throw e)
    | Ok cur =>
        match MerkleTree.createTree nextTreeNumber (treeDepth this) (Some cur) with
        | Throw e => (this, Throw e)
        | Ok newTree =>
            (with_trees this (trees this ++ [newTree]) nextTreeNumber, Ok tt)
        end
    end.

(** [finalizeTree] (helper 152-156) *)
Definition finalizeTree : M t unit :=
  onCurrentTree MerkleTree.rebuildSparseTree.

(** [insertLeaves] (helper 99-143) *)
Definition insertLeaves (leaves : list Hash) (startPosition : Z) : M t nat :=
  match leaves with
  | [] => gets (fun this => Ok (currentTreeIndex this))
  | _ :: _ =>
      let* max := gets (fun this => Ok (maxLeaves this)) in
      if decide (startPosition < 0 \/ startPosition >= max)%Z
      then throw InvalidStartPosition
      else
        let* len := gets currentLength in
        if decide (startPosition <> Z.of_nat len)
        then throw StartPositionMismatch
        else
          let* len1 := gets currentLength in
          let* _ :=
            if decide (Z.of_nat len1 + Z.of_nat (length leaves) > max)%Z
            then
              let* len2 := gets currentLength in
              let remainingLeaves := (max - Z.of_nat len2)%Z in
              let* _ :=
                if decide (remainingLeaves > 0)%Z
                then onCurrentTree
                       (MerkleTree.insertLeaves (slice leaves 0 remainingLeaves)
                          startPosition)
                else ret tt in
              let newLeaves := slice_from leaves remainingLeaves in
              let* _ := finalizeTree in
              let* _ := createNextTree in
              onCurrentTree (MerkleTree.insertLeaves newLeaves 0)
            else onCurrentTree (MerkleTree.insertLeaves leaves startPosition) in
          gets (fun this => Ok (currentTreeIndex this))
  end.

(** The search loop of [generateProof] (helper 182-196): every exception
    of a tree is caught and the search goes on. *)
Fixpoint searchTrees (ts : list MerkleTree.t) (i : nat) (e : Hash)
  : result (MerkleTree.MerkleProof * nat) :=
  match ts with
  | [] => Throw ElementNotFoundInAnyTree
  | tr :: rest =>
      match MerkleTree.generateProof tr e with
      | Ok proof => Ok (proof, i)
      | Throw _ => searchTrees rest (S i) e
      end
  end.

(** [generateProof] (helper 164-199) *)
Definition generateProof (this : t) (e : Hash) (treeIndex : option Z)
  : result (MerkleTree.MerkleProof * nat) :=
  let scoped :=
    match treeIndex with
    | Some i => if decide (0 <= i)%Z then trees this !! Z.to_nat i else None
    | None => None
    end in
  match treeIndex, scoped with
  | Some i, Some tr =>
      match MerkleTree.generateProof tr e with
      | Ok proof => Ok (proof, Z.to_nat i)
      | Throw err => Throw err
      end
  | _, _ => searchTrees (trees this) 0 e
  end.

(** [get roots] *)
Fixpoint rootsOf (ts : list MerkleTree.t) : result (list (option Hash)) :=
  match ts with
  | [] => Ok []
  | tr :: rest =>
      match MerkleTree.root tr with
      | Throw e => Throw e
      | Ok r =>
          match rootsOf rest with
          | Throw e => Throw e
          | Ok rs => Ok (r :: rs)
          end
      end
  end.
Definition roots (this : t) : result (list (option Hash)) := rootsOf (trees this).

(** [get root] *)
Definition root (this : t) : result (option Hash) :=
  match currentTree this with
  | Ok tr => MerkleTree.root tr
  | Throw e => Throw e
  end.

(** [get depth] *)
Definition depth (this : t) : result nat :=
  match currentTree this with
  | Ok tr => Ok (MerkleTree.depth tr)
  | Throw e => Throw e
  end.
End MerkleHelper.
End MerkleHelper.

(** ** The manager: two pools and the nullifier set *)
Module MerkleManager.
Section MerkleManager.
Context `{HP : HashPrimitive}.

Record t : Type := {
  utxo : MerkleHelper.t;
  txid : MerkleHelper.t;
  nullifiers : gset string;
}.

(** [new MerkleManager(treeDepth)] *)
Definition new (treeDepth : nat) : result t :=
  match MerkleHelper.new treeDepth with
  | Throw e => Throw e
  | Ok u =>
      match MerkleHelper.new treeDepth with
      | Throw e => Throw e
      | Ok x => Ok {| utxo := u; txid := x; nullifiers := ∅ |}
      end
  end.

(** [insertTXIDLeaves] (manager.ts 56-58) *)
Definition insertTXIDLeaves (leaves : list Hash) (startPosition : Z) : M t unit :=
  fun this =>
    let '(x, r) := MerkleHelper.insertLeaves leaves startPosition (txid this) in
    ({| utxo := utxo this; txid := x; nullifiers := nullifiers this |},
     match r with
     | Ok _ => Ok tt
     | Throw e => Throw e
     end).

(** [insertNullifier] (manager.ts 64-70) *)
Definition insertNullifier (nullifier : string) : M t unit :=
  fun this =>
    if decide (nullifier ∈ nullifiers this)
    then (this, Throw NullifierExists)
    else ({| utxo := utxo this; txid := txid this;
             nullifiers := nullifiers this ∪ {[nullifier]} |}, Ok tt).

(** [checkNullifier] (manager.ts 77-79) *)
Definition checkNullifier (nullifier : string) : M t bool :=
  fun this => (this, Ok (bool_decide (nullifier ∈ nullifiers this))).
End MerkleManager.
End MerkleManager.

(** ** Predicates of the specification *)
Section Predicates.
Context `{HP : HashPrimitive}.

(** Level [k + 1] is the pair-hash of level [k], for the [n] levels from [lo]. *)
Definition consistent (zs : list Hash) (tr : jsarray (jsarray Hash)) (lo n : nat) : Prop :=
  forall k, lo <= k < lo + n ->
    exists cur next,
      js_get tr k = Some cur /\ js_get tr (S k) = Some next /\
      MerkleTree.hashPairs (zs !! k) cur [] = (next, Ok tt).

(** A tree as [createTree] leaves it: empty levels below the root level. *)
Definition fresh_levels (d : nat) (r : Hash) : jsarray (jsarray Hash) :=
  replicate d (Some []) ++ [Some [Some r]].

(** What the pool keeps true of each of its trees: the depth and the
    zero chain of the pool, and a leaf level without holes. *)
Definition tree_inv (d : nat) (tr : MerkleTree.t) : Prop :=
  MerkleTree.depth tr = d /\
  MerkleTree.getZeroValueLevels d = Ok (MerkleTree.zeros tr) /\
  exists lvl0, js_get (MerkleTree.tree tr) 0 = Some lvl0 /\ Forall is_Some lvl0.

Definition pool_inv (p : MerkleHelper.t) : Prop :=
  0 < MerkleHelper.treeDepth p /\
  MerkleHelper.maxLeaves p = (2 ^ Z.of_nat (MerkleHelper.treeDepth p))%Z /\
  S (MerkleHelper.currentTreeIndex p) = length (MerkleHelper.trees p) /\
  Forall (tree_inv (MerkleHelper.treeDepth p)) (MerkleHelper.trees p).

(** The pools that the constructor and the pool's mutating methods
    produce, whatever the methods return or raise. *)
Inductive reachable : MerkleHelper.t -> Prop :=
| reachable_new (d : nat) (p : MerkleHelper.t) :
    MerkleHelper.new d = Ok p -> reachable p
| reachable_insertLeaves (p p' : MerkleHelper.t) (leaves : list Hash)
    (startPosition : Z) (r : result nat) :
    reachable p ->
    MerkleHelper.insertLeaves leaves startPosition p = (p', r) -> reachable p'
| reachable_finalizeTree (p p' : MerkleHelper.t) (r : result unit) :
    reachable p -> MerkleHelper.finalizeTree p = (p', r) -> reachable p'.
End Predicates.

(** ** [validateProof] in the words of the specification *)
Section ValidateSpec.
Context `{HP : HashPrimitive}.

(** A proof with the types of its declaration: no entry is undefined. *)
Record TypedProof : Type := {
  t_element : Hash;
  t_elements : list Hash;
  t_indices : Z;
  t_root : Hash;
}.

Definition of_typed (tp : TypedProof) : MerkleTree.MerkleProof :=
  {| MerkleTree.element := t_element tp;
     MerkleTree.elements := Some <$> t_elements tp;
     MerkleTree.indices := t_indices tp;
     MerkleTree.proof_root := Some (t_root tp) |}.

(** The specification's wording, not the code: the running hash after
    the levels [0 .. i - 1].  It starts from the element; at level [j] it
    is combined with [elements[j]], on the right if bit [j] of the
    indices is set and on the left otherwise. *)
Fixpoint spec_running (tp : TypedProof) (i : nat) : Hash :=
  match i with
  | O => t_element tp
  | S j =>
      let running := spec_running tp j in
      match t_elements tp !! j with
      | Some sibling =>
          if Z.testbit (t_indices tp) (Z.of_nat j)
          then poseidon sibling running
          else poseidon running sibling
      | None => running
      end
  end.

(** Valid iff the hash after all levels is the root. *)
Definition spec_validateProof (tp : TypedProof) : bool :=
  bool_decide (spec_running tp (length (t_elements tp)) = t_root tp).
End ValidateSpec.

(** ** Callers *)
Section Callers.
Context `{HP : HashPrimitive}.
Local Open Scope method_scope.

(** The test 'should update merkle tree correctly' up to its assertion,
    for the leaves [vectors] and the proved element [e]. *)
Definition updateMerkleTree (vectors : list Hash) (e : Hash)
  : result (MerkleTree.t * result MerkleTree.MerkleProof) :=
  match MerkleTree.createTree 0 16 None with
  | Throw err => Throw err
  | Ok testTree =>
      Ok ((let* _ := MerkleTree.insertLeaves vectors 0 in
           let* _ := MerkleTree.rebuildSparseTree in
           gets (fun this => MerkleTree.generateProof this e)) testTree)
  end.

(** A caller of the manager: a sequence of calls, each run on the state
    the one before left, whether it returned or raised. *)
Inductive call : Type :=
| DoInsertNullifier (nullifier : string)
| DoCheckNullifier (nullifier : string)
| DoInsertTXIDLeaves (leaves : list Hash) (startPosition : Z).

Definition run_call (c : call) (this : MerkleManager.t) : MerkleManager.t :=
  match c with
  | DoInsertNullifier n => (MerkleManager.insertNullifier n this).1
  | DoCheckNullifier n => (MerkleManager.checkNullifier n this).1
  | DoInsertTXIDLeaves leaves pos => (MerkleManager.insertTXIDLeaves leaves pos this).1
  end.

Definition run_calls (cs : list call) (this : MerkleManager.t) : MerkleManager.t :=
  foldl (fun s c => run_call c s) this cs.
End Callers.

(** ** A collision-free hash primitive

    Node values as terms: [Bytes n] is a byte array given by its integer
    value, [Poseidon l r] is the hash of two node values.  Two terms are
    equal only if they are built the same way, as for an ideal hash. *)
Module Sym.
Inductive SymHash : Type :=
| Bytes (n : Z)
| Poseidon (l r : SymHash).

#[global] Instance SymHash_eq_dec : EqDecision SymHash.
Proof. solve_decision. Defined.

(** keccak256("Railgun") mod SNARK_SCALAR_FIELD, the first entry of the
    zeros vector of the test suite. *)
Definition zero_leaf : Z :=
  0x0488f89b25bc7011eaf6a5edce71aeafb9fe706faa3c0a5cd9cbe868ae3b9ffc%Z.

Definition sym : HashPrimitive :=
  {| Hash := SymHash; poseidon := Poseidon; ZERO_HASH := Bytes zero_leaf |}.
End Sym.

(** ** Concrete inputs, over the collision-free primitive *)
Section Inputs.
#[local] Existing Instance Sym.sym.
Import Sym.
Local Open Scope method_scope.

(** Three leaves in a tree of depth 1, finalized. *)
Definition overfull : MerkleTree.t * result unit :=
  match MerkleTree.createTree 0 1 None with
  | Ok t0 =>
      (let* _ := MerkleTree.insertLeaves [Bytes 2; Bytes 4; Bytes 8] 0 in
       MerkleTree.rebuildSparseTree) t0
  | Throw e =>
      ({| MerkleTree.treeNumber := 0; MerkleTree.depth := 0; MerkleTree.zeros := [];
         MerkleTree.tree := []; MerkleTree.nullifiers := [] |},
       Throw e)
  end.

(** Two leaves in a tree of depth 1. *)
Definition two_leaves : MerkleTree.t :=
  match MerkleTree.createTree 0 1 None with
  | Ok t0 => (MerkleTree.insertLeaves [Bytes 2; Bytes 4] 0 t0).1
  | Throw e =>
      {| MerkleTree.treeNumber := 0; MerkleTree.depth := 0; MerkleTree.zeros := [];
         MerkleTree.tree := []; MerkleTree.nullifiers := [] |}
  end.

(** The six leaves of the test. *)
Definition vectors : list SymHash :=
  [Bytes 0x02; Bytes 0x04; Bytes 0x08; Bytes 0x10; Bytes 0x20; Bytes 0x40].

(** A pool of depth 1, as the constructor makes it. *)
Definition pool1 : MerkleHelper.t :=
  match MerkleHelper.new 1 with
  | Ok p => p
  | Throw _ =>
      {| MerkleHelper.trees := []; MerkleHelper.currentTreeIndex := 0;
         MerkleHelper.maxLeaves := 0; MerkleHelper.treeDepth := 0 |}
  end.

(** A manager of depth 1, as the constructor makes it. *)
Definition manager1 : MerkleManager.t :=
  match MerkleManager.new 1 with
  | Ok m => m
  | Throw _ =>
      {| MerkleManager.utxo := pool1; MerkleManager.txid := pool1;
         MerkleManager.nullifiers := ∅ |}
  end.
End Inputs.

(** ** Predicates on proofs and on the trees of a pool *)
Section MorePredicates.
Context `{HP : HashPrimitive}.

(** What a level holds at a position: the entry, or nothing, and then the
    zero of the level stands for it. *)
Definition node_or_zero (this : MerkleTree.t) (k q : nat) (v : Hash) : Prop :=
  exists lvl, js_get (MerkleTree.tree this) k = Some lvl /\
    (js_get lvl q = Some v \/
     (js_get lvl q = None /\ MerkleTree.zeros this !! k = Some v)).

(** A tree that the pool has left behind: [max] leaves, none undefined,
    an interior that is the hash of the leaves, and a root. *)
Definition closed_tree (max : Z) (tr : MerkleTree.t) : Prop :=
  consistent (MerkleTree.zeros tr) (MerkleTree.tree tr) 0 (MerkleTree.depth tr) /\
  exists lvl0 r,
    js_get (MerkleTree.tree tr) 0 = Some lvl0 /\ Forall is_Some lvl0 /\
    Z.of_nat (length lvl0) = max /\ MerkleTree.root tr = Ok (Some r).

(** Each tree carries its index as its number, and each tree before the
    current one is closed. *)
Definition pool_closed (p : MerkleHelper.t) : Prop :=
  forall i tr, MerkleHelper.trees p !! i = Some tr ->
    MerkleTree.treeNumber tr = i /\
    (i < MerkleHelper.currentTreeIndex p ->
     closed_tree (MerkleHelper.maxLeaves p) tr).
End MorePredicates.

(** ** More concrete inputs *)
Section MoreInputs.
#[local] Existing Instance Sym.sym.
Import Sym.

(** [two_leaves] after a finalize. *)
Definition two_leaves_final : MerkleTree.t :=
  (MerkleTree.rebuildSparseTree two_leaves).1.

(** The empty tree of depth 1 after a finalize: it has lost its root. *)
Definition emptied : MerkleTree.t :=
  match MerkleTree.createTree 0 1 None with
  | Ok t0 => (MerkleTree.rebuildSparseTree t0).1
  | Throw _ => two_leaves
  end.

(** The proof of the second of the two leaves, written by hand. *)
Definition proof_of_4 : MerkleTree.MerkleProof :=
  {| MerkleTree.element := Bytes 4; MerkleTree.elements := [Some (Bytes 2)];
     MerkleTree.indices := 1;
     MerkleTree.proof_root := Some (Poseidon (Bytes 2) (Bytes 4)) |}.

(** The pool of depth 1 with its tree filled exactly, and with one leaf
    too many for its first tree. *)
Definition pool1_full : MerkleHelper.t :=
  (MerkleHelper.insertLeaves [Bytes 2; Bytes 4] 0 pool1).1.

Definition pool1_spilled : MerkleHelper.t :=
  (MerkleHelper.insertLeaves [Bytes 2; Bytes 4; Bytes 8] 0 pool1).1.


End MoreInputs.

(** * Properties *)

(** ** Facts on JavaScript arrays *)
Section JsArrayFacts.
Context {A : Type}.
Implicit Types (a : jsarray A) (i j : nat) (v : A).

Lemma js_get_Some a i v : js_get a i = Some v <-> a !! i = Some (Some v).
Proof.
  unfold js_get. destruct (a !! i) as [[x|]|]; split; congruence.
Qed.

Lemma js_get_lt a i v : js_get a i = Some v -> i < length a.
Proof. rewrite js_get_Some. apply lookup_lt_Some. Qed.

Lemma js_get_ge a i : length a <= i -> js_get a i = None.
Proof. intros Hi. unfold js_get. by rewrite lookup_ge_None_2. Qed.

Lemma js_get_set_eq a i v : js_get (js_set a i v) i = Some v.
Proof.
  apply js_get_Some. unfold js_set. case_decide as Hi.
  - by apply list_lookup_insert_eq.
  - rewrite lookup_app_r by lia. rewrite lookup_app_r; rewrite length_replicate; [|lia].
    by replace (i - length a - (i - length a)) with 0 by lia.
Qed.

Lemma js_get_set_ne a i j v : i <> j -> js_get (js_set a i v) j = js_get a j.
Proof.
  intros Hne. unfold js_get, js_set. case_decide as Hi.
  - by rewrite list_lookup_insert_ne.
  - destruct (decide (j < length a)) as [Hj|Hj].
    + by rewrite lookup_app_l.
    + rewrite (lookup_ge_None_2 a j) by lia.
      rewrite lookup_app_r by lia.
      destruct (decide (j - length a < i - length a)) as [Hlt|Hge].
      * rewrite lookup_app_l by (rewrite length_replicate; lia).
        by rewrite lookup_replicate_2.
      * rewrite lookup_app_r by (rewrite length_replicate; lia).
        rewrite length_replicate.
        rewrite lookup_ge_None_2; [done | simpl; lia].
Qed.

Lemma js_get_cons_S (x : option A) a i : js_get (x :: a) (S i) = js_get a i.
Proof. reflexivity. Qed.

Lemma js_get_app_l a (b : jsarray A) i : i < length a -> js_get (a ++ b) i = js_get a i.
Proof. intros Hi. unfold js_get. by rewrite lookup_app_l. Qed.

Lemma js_get_map_Some (l : list A) i : js_get (Some <$> l) i = l !! i.
Proof. unfold js_get. rewrite list_lookup_fmap. by destruct (l !! i). Qed.
End JsArrayFacts.

(** Induction over a list two entries at a time, as the pair loop reads it. *)
Lemma list_pair_ind {A : Type} (P : list A -> Prop) :
  P [] -> (forall a, P [a]) -> (forall a b l, P l -> P (a :: b :: l)) ->
  forall l, P l.
Proof.
  intros Hnil Hone Hstep.
  assert (Hboth : forall l, P l /\ forall a, P (a :: l)).
  { induction l as [|b l [IH1 IH2]]; split; auto. }
  intros l. apply Hboth.
Qed.

(** ** The pair loop of [rebuildSparseTree] *)
Section HashPairs.
Context `{HP : HashPrimitive}.
Import MerkleTree.

Lemma hashLeftRight_Ok (l r : option Hash) (h : Hash) :
  hashLeftRight l r = Ok h ->
  exists a b, l = Some a /\ r = Some b /\ h = poseidon a b.
Proof.
  destruct l as [a|], r as [b|]; simpl; intros Heq; try discriminate.
  injection Heq as <-. eauto.
Qed.

(** What is already pushed stays in front. *)
Local Arguments js_push {A} a v /.
Local Arguments hashLeftRight : simpl never.

Lemma hashPairs_acc z cur acc :
  hashPairs z cur acc =
    (acc ++ (hashPairs z cur []).1, (hashPairs z cur []).2).
Proof.
  revert acc. induction cur as [| a | a b cur IH] using list_pair_ind; intros acc.
  - simpl. by rewrite app_nil_r.
  - simpl. destruct (hashLeftRight a z); simpl;
      [done | by rewrite app_nil_r].
  - simpl. destruct (hashLeftRight a (nullish b z)) as [h|e]; simpl.
    + rewrite (IH (acc ++ [Some h])), (IH [Some h]).
      simpl. by rewrite <- app_assoc.
    + by rewrite app_nil_r.
Qed.

Lemma hashPairs_cons2 z a b cur next :
  hashPairs z (a :: b :: cur) [] = (next, Ok tt) ->
  exists h next',
    hashLeftRight a (nullish b z) = Ok h /\
    hashPairs z cur [] = (next', Ok tt) /\ next = Some h :: next'.
Proof.
  simpl. destruct (hashLeftRight a (nullish b z)) as [h|e]; [|discriminate].
  rewrite hashPairs_acc. destruct (hashPairs z cur []) as [next' r]. simpl.
  intros Heq. injection Heq as <- ->. by exists h, next'.
Qed.

(** The node above position [j]: the hash of the value at [j] with its
    sibling, in the order of the positions. *)
Lemma hashPairs_parent z cur next :
  hashPairs z cur [] = (next, Ok tt) ->
  forall j v, js_get cur j = Some v ->
  exists h,
    (if Nat.even j
     then hashLeftRight (Some v) (nullish (js_get cur (j + 1)) z)
     else hashLeftRight (js_get cur (j - 1)) (Some v)) = Ok h /\
    js_get next (j / 2) = Some h.
Proof.
  revert next. induction cur as [| a | a b cur IH] using list_pair_ind;
    intros next Hrun j v Hj.
  - discriminate.
  - destruct j as [|j]; [|by destruct j].
    apply js_get_Some in Hj. injection Hj as ->.
    simpl in Hrun. simpl.
    destruct (hashLeftRight (Some v) z) as [h|e] eqn:Hh; [|discriminate].
    injection Hrun as <-. by exists h.
  - apply hashPairs_cons2 in Hrun as (h & next' & Hh & Hrest & ->).
    destruct j as [|[|j]].
    + apply js_get_Some in Hj. injection Hj as ->.
      exists h. split; [|done]. unfold js_get. simpl. by destruct b.
    + apply js_get_Some in Hj. injection Hj as ->.
      exists h. split; [|done]. unfold js_get. simpl.
      destruct a; [exact Hh | discriminate].
    + destruct (IH next' Hrest j v Hj) as (h' & Hstep & Hget).
      exists h'. split.
      * replace (Nat.even (S (S j))) with (Nat.even j) by done.
        destruct (Nat.even j) eqn:Hev.
        -- replace (S (S j) + 1) with (S (S (j + 1))) by lia. exact Hstep.
        -- destruct j as [|j]; [discriminate|].
           replace (S (S (S j)) - 1) with (S (S (S j - 1))) by lia. exact Hstep.
      * replace (S (S j) / 2) with (S (j / 2)); [exact Hget|].
        change (S (S j)) with (1 * 2 + j) at 1. rewrite (Nat.add_comm _ j).
        rewrite Nat.div_add by lia. lia.
Qed.

Lemma hashPairs_length z cur next :
  hashPairs z cur [] = (next, Ok tt) ->
  List.length next = (List.length cur + 1) / 2 /\ Forall is_Some next.
Proof.
  revert next. induction cur as [| a | a b cur IH] using list_pair_ind;
    intros next Hrun.
  - injection Hrun as <-. by split.
  - simpl in Hrun. destruct (hashLeftRight a z); [|discriminate].
    injection Hrun as <-. split; [done|]. repeat constructor. by eexists.
  - apply hashPairs_cons2 in Hrun as (h & next' & Hh & Hrest & ->).
    destruct (IH next' Hrest) as [Hlen Hall]. split.
    + rewrite !length_cons, Hlen.
      replace (S (S (List.length cur)) + 1) with (List.length cur + 1 + 1 * 2) by lia.
      rewrite Nat.div_add by lia. lia.
    + constructor; [by eexists | done].
Qed.

(** On a dense level the pair loop raises nothing. *)
Lemma hashPairs_dense z0 cur :
  Forall is_Some cur ->
  exists next, hashPairs (Some z0) cur [] = (next, Ok tt).
Proof.
  induction cur as [| a | a b cur IH] using list_pair_ind; intros Hall.
  - by eexists.
  - apply Forall_cons in Hall as [[x ->] _]. simpl. by eexists.
  - apply Forall_cons in Hall as [[x ->] Hall].
    apply Forall_cons in Hall as [[y ->] Hall].
    destruct (IH Hall) as [next Hnext]. simpl.
    rewrite hashPairs_acc, Hnext. simpl. by eexists.
Qed.
End HashPairs.

Section Bits.
(** The bit test of [validateProof], [(indices & 2n ** index) > 0n]. *)
Lemma land_pow2 (a : Z) (k : nat) :
  Z.land a (2 ^ Z.of_nat k) = if Z.testbit a (Z.of_nat k) then (2 ^ Z.of_nat k)%Z else 0%Z.
Proof.
  apply Z.bits_inj'. intros n Hn.
  rewrite Z.land_spec, Z.pow2_bits_eqb by lia.
  destruct (Z.eqb_spec (Z.of_nat k) n) as [<-|Hne].
  - rewrite andb_true_r. destruct (Z.testbit a (Z.of_nat k)) eqn:Hbit.
    + by rewrite Z.pow2_bits_true by lia.
    + by rewrite Z.bits_0.
  - rewrite andb_false_r. destruct (Z.testbit a (Z.of_nat k)).
    + rewrite Z.pow2_bits_eqb by lia. symmetry. by apply Z.eqb_neq.
    + by rewrite Z.bits_0.
Qed.

Lemma bit_test_testbit (a : Z) (k : nat) :
  (Z.land a (2 ^ Z.of_nat k) >? 0)%Z = Z.testbit a (Z.of_nat k).
Proof.
  rewrite land_pow2. destruct (Z.testbit a (Z.of_nat k)); [|done].
  apply Z.gtb_lt. apply Z.pow_pos_nonneg; lia.
Qed.

Lemma testbit_of_nat_odd (i k : nat) :
  Z.testbit (Z.of_nat i) (Z.of_nat k) = Nat.odd (i / 2 ^ k).
Proof.
  rewrite Z.testbit_odd, Z.shiftr_div_pow2 by lia.
  change 2%Z with (Z.of_nat 2). rewrite <- Nat2Z.inj_pow, <- Nat2Z.inj_div.
  generalize (i / 2 ^ k). intros n.
  destruct (Nat.Even_or_Odd n) as [[m ->]|[m ->]].
  - rewrite Nat2Z.inj_mul, Z.odd_mul, Nat.odd_mul. done.
  - rewrite Nat2Z.inj_add, Nat2Z.inj_mul, Z.odd_add, Z.odd_mul.
    rewrite Nat.odd_add, Nat.odd_mul. done.
Qed.
End Bits.

Section Rebuild.
Context `{HP : HashPrimitive}.
Import MerkleTree.
Local Arguments hashLeftRight : simpl never.

Lemma rebuildLoop_Ok n : forall level zs tr tr',
  rebuildLoop n level zs tr = (tr', Ok tt) ->
  (forall j, j <= level -> js_get tr' j = js_get tr j) /\
  consistent zs tr' level n.
Proof.
  induction n as [|n IH]; intros level zs tr tr' Hrun.
  - injection Hrun as <-. split; [done|]. intros k Hk. lia.
  - simpl in Hrun. rewrite js_get_set_ne in Hrun by lia.
    destruct (js_get tr level) as [cur|] eqn:Hcur; [|discriminate].
    destruct (hashPairs (zs !! level) cur []) as [next r] eqn:Hpairs.
    destruct r as [[]|e]; [|discriminate].
    apply IH in Hrun as [Hlow Hcons]. split.
    + intros j Hj. rewrite Hlow by lia. by rewrite !js_get_set_ne by lia.
    + intros k Hk. destruct (decide (k = level)) as [->|Hne].
      * exists cur, next. rewrite (Hlow level), (Hlow (S level)) by lia.
        rewrite !(js_get_set_ne _ (level + 1) level) by lia.
        replace (level + 1) with (S level) by lia.
        by rewrite js_get_set_eq.
      * apply Hcons. lia.
Qed.

(** The walk of [generateProof] up a consistent tree, and the fold of
    [validateProof] over the siblings it collects. *)
Lemma siblings_path (this : t) n : forall level index v acc lvl,
  consistent (zeros this) (tree this) level n ->
  js_get (tree this) level = Some lvl ->
  js_get lvl index = Some v ->
  exists sibs final top,
    siblingsLoop n level index this acc = Ok (acc ++ sibs) /\
    List.length sibs = n /\
    Forall is_Some sibs /\
    (forall ind k0,
        (forall i, i < n ->
           (Z.land ind (2 ^ Z.of_nat (k0 + i)) >? 0)%Z = Nat.odd (index / 2 ^ i)) ->
        reduceProof ind k0 v sibs = Ok final) /\
    js_get (tree this) (level + n) = Some top /\
    js_get top (index / 2 ^ n) = Some final.
Proof.
  induction n as [|n IH]; intros level index v acc lvl Hcons Hlvl Hv.
  - exists [], v, lvl.
    rewrite app_nil_r, Nat.add_0_r, Nat.pow_0_r, Nat.div_1_r.
    by repeat split.
  - destruct (Hcons level) as (cur & next & Hcur & Hnext & Hpairs); [lia|].
    rewrite Hlvl in Hcur. injection Hcur as <-.
    destruct (hashPairs_parent _ _ _ Hpairs index v Hv) as (h & Hstep & Hparent).
    set (sib := if Nat.even index
                then nullish (js_get lvl (index + 1)) (zeros this !! level)
                else js_get lvl (index - 1)).
    destruct (IH (S level) (index / 2) h (acc ++ [sib]) next)
      as (sibs & final & top & Hloop & Hlen & Hall & Hred & Htop & Hfinal);
      [intros k Hk; apply Hcons; lia | done | done |].
    assert (Hdiv : forall i, index / 2 ^ S i = index / 2 / 2 ^ i).
    { intros i. rewrite Nat.pow_succ_r', Nat.Div0.div_div. done. }
    exists (sib :: sibs), final, top. repeat split.
    + cbn [siblingsLoop]. rewrite Hlvl. fold sib. rewrite Hloop. by rewrite <- app_assoc.
    + simpl. by rewrite Hlen.
    + constructor; [|done]. unfold sib.
      destruct (Nat.even index);
        apply hashLeftRight_Ok in Hstep as (a & b & Ha & Hb & _); eauto.
    + intros ind k0 Hbits. cbn [reduceProof].
      rewrite <- (Nat.add_0_r k0) at 1. rewrite (Hbits 0) by lia.
      rewrite Nat.pow_0_r, Nat.div_1_r, <- Nat.negb_even. unfold sib.
      destruct (Nat.even index); simpl; rewrite Hstep.
      * apply Hred. intros i Hi.
        replace (S k0 + i) with (k0 + S i) by lia.
        rewrite Hbits by lia. by rewrite Hdiv.
      * apply Hred. intros i Hi.
        replace (S k0 + i) with (k0 + S i) by lia.
        rewrite Hbits by lia. by rewrite Hdiv.
    + by replace (level + S n) with (S level + n) by lia.
    + by rewrite Hdiv.
Qed.

Lemma indexOf_In (lvl : jsarray Hash) (e : Hash) :
  In (Some e) lvl ->
  exists i, indexOf lvl e = Some i /\ js_get lvl i = Some e.
Proof.
  induction lvl as [|x lvl IH]; intros Hin; [done|].
  simpl. case_decide as Hx.
  - exists 0. subst x. by split.
  - destruct Hin as [Heq|Hin]; [done|].
    destruct (IH Hin) as (i & -> & Hi). exists (S i). by split.
Qed.

Lemma indexOf_Some (lvl : jsarray Hash) (e : Hash) (i : nat) :
  indexOf lvl e = Some i -> js_get lvl i = Some e.
Proof.
  revert i. induction lvl as [|x lvl IH]; intros i; [done|].
  simpl. case_decide as Hx.
  - intros [= <-]. by subst x.
  - destruct (indexOf lvl e) as [j|]; [|done]. intros [= <-]. by apply IH.
Qed.

Lemma rebuildSparseTree_Ok (this this' : t) :
  rebuildSparseTree this = (this', Ok tt) ->
  depth this' = depth this /\ zeros this' = zeros this /\
  js_get (tree this') 0 = js_get (tree this) 0 /\
  consistent (zeros this') (tree this') 0 (depth this').
Proof.
  unfold rebuildSparseTree.
  destruct (rebuildLoop _ _ _ _) as [tr r] eqn:Hloop.
  intros [= <- ->]. apply rebuildLoop_Ok in Hloop as [Hlow Hcons].
  simpl. repeat split; [by apply Hlow | done].
Qed.

(** Proofs of a tree with a consistent interior validate, for every leaf
    whose position is below [2 ^ depth]. *)
Lemma consistent_round_trip (this : t) (lvl0 : jsarray Hash) (e : Hash) :
  consistent (zeros this) (tree this) 0 (depth this) ->
  js_get (tree this) 0 = Some lvl0 ->
  List.length lvl0 <= 2 ^ depth this ->
  In (Some e) lvl0 ->
  exists proof,
    generateProof this e = Ok proof /\
    Forall is_Some (elements proof) /\
    List.length (elements proof) = depth this /\
    validateProof proof = Ok true.
Proof.
  intros Hcons Hlvl Hcap Hin.
  destruct (indexOf_In _ _ Hin) as (i & Hidx & Hi).
  destruct (siblings_path this (depth this) 0 i e [] lvl0 Hcons Hlvl Hi)
    as (sibs & final & top & Hloop & Hlen & Hall & Hred & Htop & Hfinal).
  assert (Hzero : i / 2 ^ depth this = 0).
  { apply Nat.div_small. apply js_get_lt in Hi. lia. }
  rewrite Hzero in Hfinal. simpl in Htop.
  unfold generateProof. rewrite Hlvl, Hidx, Hloop.
  unfold root. rewrite Htop, Hfinal. eexists. split; [done|].
  simpl. repeat split; [done | done |].
  unfold validateProof. simpl. rewrite (Hred (Z.of_nat i) 0).
  - by rewrite bool_decide_eq_true_2.
  - intros k _. simpl. by rewrite bit_test_testbit, testbit_of_nat_odd.
Qed.
End Rebuild.

Section TreeFacts.
Context `{HP : HashPrimitive}.
Import MerkleTree.
Local Arguments hashLeftRight : simpl never.

(** *** The zero chain *)
Lemma zeroLevelsLoop_Ok n : forall level levels,
  List.length levels = level -> 0 < level ->
  exists zs, zeroLevelsLoop n level levels = Ok zs /\
             List.length zs = level + n /\
             forall i, i < level -> zs !! i = levels !! i.
Proof.
  induction n as [|n IH]; intros level levels Hlen Hpos.
  - exists levels. split; [done|]. split; [lia | done].
  - simpl. destruct (lookup_lt_is_Some_2 levels (level - 1)) as [z Hz]; [lia|].
    rewrite Hz. unfold hashLeftRight.
    destruct (IH (S level) (levels ++ [poseidon z z])) as (zs & Hzs & Hlenzs & Hpre);
      [rewrite length_app; simpl; lia | lia |].
    exists zs. split; [done|]. split; [lia|].
    intros i Hi. rewrite Hpre by lia. apply lookup_app_l. lia.
Qed.

Lemma getZeroValueLevels_Ok d :
  exists zs, getZeroValueLevels d = Ok zs /\ List.length zs = Nat.max d 1 /\
             zs !! 0 = Some zeroValue.
Proof.
  unfold getZeroValueLevels.
  destruct (zeroLevelsLoop_Ok (d - 1) 1 [zeroValue]) as (zs & Hzs & Hlen & Hpre);
    [done | lia |].
  exists zs. split; [done|]. split; [lia|]. by rewrite Hpre by lia.
Qed.

(** *** [createTree] *)
Lemma js_set_end {A : Type} (a : jsarray A) (v : A) :
  js_set a (List.length a) v = a ++ [Some v].
Proof.
  unfold js_set. case_decide; [lia|]. by rewrite Nat.sub_diag.
Qed.

Lemma fresh_levels_get_lt d r k : k < d -> js_get (fresh_levels d r) k = Some [].
Proof.
  intros Hk. unfold fresh_levels.
  rewrite js_get_app_l by (rewrite length_replicate; lia).
  apply js_get_Some. by apply lookup_replicate_2.
Qed.

Lemma fresh_levels_get_top d r : js_get (fresh_levels d r) d = Some [Some r].
Proof.
  apply js_get_Some. unfold fresh_levels.
  rewrite lookup_app_r; rewrite length_replicate; [|lia].
  by rewrite Nat.sub_diag.
Qed.

Lemma createTree_Ok (n d : nat) (fromTree : option t) (seed : option Hash) :
  0 < d ->
  match fromTree with Some ft => root ft | None => Ok None end = Ok seed ->
  exists zs z,
    getZeroValueLevels d = Ok zs /\ zs !! (d - 1) = Some z /\
    createTree n d fromTree =
      Ok {| treeNumber := n; depth := d; zeros := zs;
            tree := fresh_levels d (default (poseidon z z) seed);
            nullifiers := [] |}.
Proof.
  intros Hd Hseed.
  destruct (getZeroValueLevels_Ok d) as (zs & Hzs & Hlen & _).
  destruct (lookup_lt_is_Some_2 zs (d - 1)) as [z Hz]; [lia|].
  exists zs, z. split; [done|]. split; [done|].
  unfold createTree. rewrite Hzs, Hseed.
  assert (Hset : forall v : jsarray Hash,
             js_set (replicate d (Some [])) d v = replicate d (Some []) ++ [Some v]).
  { intros v. rewrite <- (length_replicate d (Some ([] : jsarray Hash))) at 2.
    apply js_set_end. }
  destruct seed as [s|].
  - by rewrite Hset.
  - destruct d as [|d]; [lia|]. simpl in Hz. rewrite Nat.sub_0_r in Hz.
    unfold zeros_top. rewrite Hz. unfold hashLeftRight. by rewrite Hset.
Qed.

(** *** Contiguous insertion appends *)
Lemma writeLeaves_contiguous (leaves : list Hash) : forall (lvl : jsarray Hash),
  writeLeaves lvl (Z.of_nat (List.length lvl)) leaves = lvl ++ (Some <$> leaves).
Proof.
  induction leaves as [|leaf leaves IH]; intros lvl; simpl.
  - by rewrite app_nil_r.
  - unfold js_setZ. case_decide; [lia|]. rewrite Nat2Z.id, js_set_end.
    replace (Z.of_nat (List.length lvl) + 1)%Z
      with (Z.of_nat (List.length (lvl ++ [Some leaf])))
      by (rewrite length_app; simpl; lia).
    rewrite IH. by rewrite <- app_assoc.
Qed.

Lemma insertLeaves_contiguous (this : t) (lvl : jsarray Hash) (leaves : list Hash) :
  js_get (tree this) 0 = Some lvl ->
  insertLeaves leaves (Z.of_nat (List.length lvl)) this =
    (match leaves with
     | [] => this
     | _ :: _ => with_tree this (<[0 := Some (lvl ++ (Some <$> leaves))]> (tree this))
     end, Ok tt).
Proof.
  intros Hlvl. unfold insertLeaves. destruct leaves as [|leaf leaves]; [done|].
  rewrite Hlvl. by rewrite writeLeaves_contiguous.
Qed.

Lemma js_get_insert_0 {A : Type} (a : jsarray A) (v w : A) :
  js_get a 0 = Some w -> js_get (<[0 := Some v]> a) 0 = Some v.
Proof. destruct a as [|x a]; [done|]. done. Qed.

Lemma js_get_insert_0_ne {A : Type} (a : jsarray A) (v : A) (k : nat) :
  k <> 0 -> js_get (<[0 := Some v]> a) k = js_get a k.
Proof. intros Hk. unfold js_get. by rewrite list_lookup_insert_ne. Qed.

(** *** Rebuilding a dense tree raises nothing *)
Lemma rebuildLoop_dense n : forall level zs tr cur,
  js_get tr level = Some cur -> Forall is_Some cur ->
  (forall k, level <= k < level + n -> is_Some (zs !! k)) ->
  exists tr', rebuildLoop n level zs tr = (tr', Ok tt).
Proof.
  induction n as [|n IH]; intros level zs tr cur Hcur Hdense Hzs.
  - by eexists.
  - simpl. rewrite js_get_set_ne by lia. rewrite Hcur.
    destruct (Hzs level) as [z Hz]; [lia|]. rewrite Hz.
    destruct (hashPairs_dense z cur Hdense) as [next Hnext]. rewrite Hnext.
    apply (IH (S level) zs _ next).
    + replace (level + 1) with (S level) by lia. apply js_get_set_eq.
    + by apply hashPairs_length in Hnext as [_ Hall].
    + intros k Hk. apply Hzs. lia.
Qed.
End TreeFacts.

Section PoolFacts.
Context `{HP : HashPrimitive}.
Import MerkleHelper.

Lemma tree_inv_zeros d tr k :
  tree_inv d tr -> k < d -> is_Some (MerkleTree.zeros tr !! k).
Proof.
  intros (_ & Hzs & _) Hk.
  destruct (getZeroValueLevels_Ok d) as (zs & Hzs' & Hlen & _).
  rewrite Hzs in Hzs'. injection Hzs' as ->.
  apply lookup_lt_is_Some_2. lia.
Qed.

(** Finalizing a tree of the pool raises nothing and keeps the leaves. *)
Lemma rebuildSparseTree_inv d tr :
  tree_inv d tr ->
  exists tr',
    MerkleTree.rebuildSparseTree tr = (tr', Ok tt) /\ tree_inv d tr' /\
    MerkleTree.treeNumber tr' = MerkleTree.treeNumber tr /\
    js_get (MerkleTree.tree tr') 0 = js_get (MerkleTree.tree tr) 0.
Proof.
  intros Hinv. pose proof Hinv as (Hd & Hzs & lvl0 & Hlvl & Hdense).
  destruct (rebuildLoop_dense (MerkleTree.depth tr) 0 (MerkleTree.zeros tr)
              (MerkleTree.tree tr) lvl0 Hlvl Hdense) as [tr' Hloop].
  { intros k Hk. apply (tree_inv_zeros d tr); [done | lia]. }
  exists (MerkleTree.with_tree tr tr').
  assert (Hrun : MerkleTree.rebuildSparseTree tr = (MerkleTree.with_tree tr tr', Ok tt)).
  { unfold MerkleTree.rebuildSparseTree. by rewrite Hloop. }
  split; [done|].
  apply rebuildSparseTree_Ok in Hrun as (Hd' & Hzs' & Hl0 & _).
  split; [|by split].
  split; [by rewrite Hd'|]. split; [by rewrite Hzs'|].
  exists lvl0. by rewrite Hl0.
Qed.

(** After a finalize on a non-empty leaf level the root is defined. *)
Lemma root_after_rebuild tr tr' lvl0 v :
  MerkleTree.rebuildSparseTree tr = (tr', Ok tt) ->
  js_get (MerkleTree.tree tr') 0 = Some lvl0 -> js_get lvl0 0 = Some v ->
  exists r, MerkleTree.root tr' = Ok (Some r).
Proof.
  intros Hrun Hlvl Hv.
  apply rebuildSparseTree_Ok in Hrun as (_ & _ & _ & Hcons).
  destruct (siblings_path tr' (MerkleTree.depth tr') 0 0 v [] lvl0 Hcons Hlvl Hv)
    as (sibs & final & top & _ & _ & _ & _ & Htop & Hfinal).
  rewrite Nat.Div0.div_0_l in Hfinal. simpl in Htop.
  exists final. unfold MerkleTree.root. by rewrite Htop, Hfinal.
Qed.

Lemma onCurrentTree_run {A : Type} (m : M MerkleTree.t A) p cur cur' r :
  currentTree p = Ok cur -> m cur = (cur', r) ->
  onCurrentTree m p =
    (with_trees p (<[currentTreeIndex p := cur']> (trees p)) (currentTreeIndex p), r).
Proof. intros Hcur Hm. unfold onCurrentTree. by rewrite Hcur, Hm. Qed.

Lemma currentTree_Ok p cur :
  currentTree p = Ok cur <-> trees p !! currentTreeIndex p = Some cur.
Proof.
  unfold currentTree. destruct (trees p !! currentTreeIndex p); split; congruence.
Qed.

Lemma pool_inv_current p :
  pool_inv p -> exists cur, currentTree p = Ok cur /\ tree_inv (treeDepth p) cur.
Proof.
  intros (_ & _ & Hidx & Hall).
  destruct (lookup_lt_is_Some_2 (trees p) (currentTreeIndex p)) as [cur Hcur]; [lia|].
  exists cur. split; [by apply currentTree_Ok|].
  by apply (Forall_lookup_1 _ _ _ _ Hall Hcur).
Qed.

Lemma new_inv d :
  0 < d -> exists p, new d = Ok p /\ pool_inv p.
Proof.
  intros Hd.
  destruct (createTree_Ok 0 d None None Hd eq_refl) as (zs & z & Hzs & Hz & Hcreate).
  unfold new. rewrite Hcreate. eexists. split; [done|].
  split; [done|]. split; [done|]. split; [done|].
  constructor; [|done]. split; [done|]. split; [done|].
  exists []. split; [|done]. simpl. by apply fresh_levels_get_lt.
Qed.

Lemma slice_prefix {A : Type} (pre post : list A) :
  0 < length pre ->
  slice (pre ++ post) 0 (Z.of_nat (length pre)) = pre /\
  slice_from (pre ++ post) (Z.of_nat (length pre)) = post.
Proof.
  intros Hpos. unfold slice_from, slice, js_rel. rewrite length_app.
  repeat case_decide; try lia. split.
  - rewrite Z.min_l, Z.min_l by lia. rewrite Z.sub_0_r, Nat2Z.id.
    change (Z.to_nat 0) with 0. rewrite drop_0. apply take_app_length.
  - rewrite Z.min_l, Z.min_l by lia. rewrite Nat2Z.id, drop_app_length.
    apply take_ge. lia.
Qed.
End PoolFacts.

Section PoolInsert.
Context `{HP : HashPrimitive}.
Import MerkleHelper.

Lemma currentLength_Ok p cur lvl0 :
  currentTree p = Ok cur -> js_get (MerkleTree.tree cur) 0 = Some lvl0 ->
  currentLength p = Ok (length lvl0).
Proof.
  intros Hcur Hlvl. unfold currentLength, MerkleTree.length. by rewrite Hcur, Hlvl.
Qed.

(** The insertion that fits goes to the current tree as it is. *)
Lemma insertLeaves_fits p cur lvl0 (leaves : list Hash) :
  currentTree p = Ok cur -> js_get (MerkleTree.tree cur) 0 = Some lvl0 ->
  leaves <> [] ->
  (Z.of_nat (length lvl0) + Z.of_nat (length leaves) <= maxLeaves p)%Z ->
  insertLeaves leaves (Z.of_nat (length lvl0)) p =
    (with_trees p
       (<[currentTreeIndex p :=
            MerkleTree.with_tree cur
              (<[0 := Some (lvl0 ++ (Some <$> leaves))]> (MerkleTree.tree cur))]>
          (trees p))
       (currentTreeIndex p),
     Ok (currentTreeIndex p)).
Proof.
  intros Hcur Hlvl Hne Hfit.
  destruct leaves as [|leaf leaves]; [done|].
  unfold insertLeaves, bind, gets, throw, ret. cbv beta iota.
  case_decide; [simpl in Hfit; lia|].
  rewrite (currentLength_Ok p cur lvl0) by done. cbv beta iota.
  case_decide; [lia|]. rewrite (currentLength_Ok p cur lvl0) by done.
  case_decide; [lia|].
  rewrite (onCurrentTree_run _ p cur _ (Ok tt) Hcur
             (insertLeaves_contiguous cur lvl0 (leaf :: leaves) Hlvl)).
  done.
Qed.
End PoolInsert.

Section PoolSpill.
Context `{HP : HashPrimitive}.
Import MerkleHelper.

Lemma dense_fmap_Some (l : list Hash) : Forall is_Some (Some <$> l).
Proof. apply Forall_fmap, Forall_true. intros x. by eexists. Qed.

(** Appending leaves to a tree of the pool keeps it a tree of the pool. *)
Lemma tree_inv_append d tr lvl0 (leaves : list Hash) :
  tree_inv d tr -> js_get (MerkleTree.tree tr) 0 = Some lvl0 ->
  tree_inv d (MerkleTree.with_tree tr
                (<[0 := Some (lvl0 ++ (Some <$> leaves))]> (MerkleTree.tree tr))) /\
  js_get (<[0 := Some (lvl0 ++ (Some <$> leaves))]> (MerkleTree.tree tr)) 0
    = Some (lvl0 ++ (Some <$> leaves)).
Proof.
  intros (Hd & Hzs & lvl & Hlvl & Hdense) Hlvl0.
  rewrite Hlvl0 in Hlvl. injection Hlvl as <-.
  assert (Hget := js_get_insert_0 (MerkleTree.tree tr)
                    (lvl0 ++ (Some <$> leaves)) lvl0 Hlvl0).
  split; [|done]. split; [done|]. split; [done|].
  eexists. split; [exact Hget|].
  apply Forall_app. split; [done | apply dense_fmap_Some].
Qed.

Lemma insert_snoc {A : Type} (l : list A) (x y : A) :
  <[length l := y]> (l ++ [x]) = l ++ [y].
Proof. rewrite insert_app_r_alt by lia. by rewrite Nat.sub_diag. Qed.

Lemma lookup_snoc_length {A : Type} (l : list A) (x : A) :
  (l ++ [x]) !! length l = Some x.
Proof. by rewrite lookup_app_r, Nat.sub_diag by lia. Qed.

(** The run of [insertLeaves] on the overflow path, given what each of
    its four steps does. *)
Lemma spill_run p cur lvl0 (pre post : list Hash) cur1 cur2 nxt0 nxt1 :
  currentTree p = Ok cur -> js_get (MerkleTree.tree cur) 0 = Some lvl0 ->
  pre <> [] -> post <> [] ->
  (Z.of_nat (length lvl0) + Z.of_nat (length pre) = maxLeaves p)%Z ->
  MerkleTree.insertLeaves pre (Z.of_nat (length lvl0)) cur = (cur1, Ok tt) ->
  MerkleTree.rebuildSparseTree cur1 = (cur2, Ok tt) ->
  MerkleTree.createTree (length (trees p)) (treeDepth p) (Some cur2) = Ok nxt0 ->
  MerkleTree.insertLeaves post 0 nxt0 = (nxt1, Ok tt) ->
  insertLeaves (pre ++ post) (Z.of_nat (length lvl0)) p =
    (with_trees p (<[currentTreeIndex p := cur2]> (trees p) ++ [nxt1])
       (length (trees p)),
     Ok (length (trees p))).
Proof.
  intros Hcur Hlvl Hpre Hpost Hcap Hins1 Hreb Hcreate Hins2.
  assert (Hlt : currentTreeIndex p < length (trees p)).
  { apply currentTree_Ok in Hcur. by apply lookup_lt_Some in Hcur. }
  assert (Hk : 0 < length pre) by (destruct pre; [done | simpl; lia]).
  assert (Hm : 0 < length post) by (destruct post; [done | simpl; lia]).
  destruct (slice_prefix pre post Hk) as [Hs1 Hs2].
  assert (Hrem : (maxLeaves p - Z.of_nat (length lvl0))%Z = Z.of_nat (length pre))
    by lia.
  destruct (pre ++ post) as [|leaf rest] eqn:Hleaves.
  { by destruct pre. }
  assert (Hlen : length (leaf :: rest) = length pre + length post).
  { by rewrite <- Hleaves, length_app. }
  unfold insertLeaves, bind, gets, throw, ret. cbv beta iota.
  case_decide; [lia|].
  rewrite (currentLength_Ok p cur lvl0) by done. cbv beta iota.
  case_decide; [lia|]. rewrite (currentLength_Ok p cur lvl0) by done.
  case_decide; [|lia]. rewrite (currentLength_Ok p cur lvl0) by done.
  rewrite Hrem. case_decide; [|lia].
  rewrite Hs1, Hs2.
  rewrite (onCurrentTree_run _ p cur _ _ Hcur Hins1).
  unfold finalizeTree.
  erewrite onCurrentTree_run;
    [| apply currentTree_Ok; simpl; by apply list_lookup_insert_eq | exact Hreb].
  simpl. rewrite list_insert_insert_eq.
  unfold createNextTree, currentTree. simpl.
  rewrite list_lookup_insert_eq by done. rewrite length_insert, Hcreate.
  unfold onCurrentTree, currentTree. simpl.
  assert (Hlen2 : length (trees p)
                  = length (<[currentTreeIndex p := cur2]> (trees p)))
    by (by rewrite length_insert).
  set (ts := <[currentTreeIndex p := cur2]> (trees p)) in *.
  rewrite Hlen2, lookup_snoc_length, Hins2, insert_snoc.
  done.
Qed.
End PoolSpill.

Section PoolSteps.
Context `{HP : HashPrimitive}.
Import MerkleHelper.

Lemma dense_head (lvl : jsarray Hash) :
  Forall is_Some lvl -> lvl <> [] -> exists v, js_get lvl 0 = Some v.
Proof.
  intros Hdense Hne. destruct lvl as [|x lvl]; [done|].
  apply Forall_cons in Hdense as [[v ->] _]. by exists v.
Qed.

(** Finalizing a non-empty tree of the pool: the root becomes the top
    of the pair-hash chain over the tree's own leaves. *)
Lemma finalize_tree_inv d tr lvl0 :
  tree_inv d tr -> js_get (MerkleTree.tree tr) 0 = Some lvl0 -> lvl0 <> [] ->
  exists tr' r,
    MerkleTree.rebuildSparseTree tr = (tr', Ok tt) /\
    tree_inv d tr' /\
    MerkleTree.treeNumber tr' = MerkleTree.treeNumber tr /\
    js_get (MerkleTree.tree tr') 0 = Some lvl0 /\
    consistent (MerkleTree.zeros tr') (MerkleTree.tree tr') 0 (MerkleTree.depth tr') /\
    MerkleTree.root tr' = Ok (Some r).
Proof.
  intros Hinv Hlvl Hne.
  destruct (rebuildSparseTree_inv d tr Hinv) as (tr' & Hrun & Hinv' & Hnum & Hl0).
  rewrite Hlvl in Hl0.
  assert (Hdense : Forall is_Some lvl0).
  { destruct Hinv as (_ & _ & lvl & Hlvl' & Hdense). congruence. }
  destruct (dense_head lvl0 Hdense Hne) as [v Hv].
  destruct (root_after_rebuild tr tr' lvl0 v Hrun Hl0 Hv) as [r Hr].
  exists tr', r. do 4 (split; [done|]). split; [|done].
  by apply rebuildSparseTree_Ok in Hrun as (_ & _ & _ & Hcons).
Qed.

(** The four steps of the overflow path and the pool they leave. *)
Lemma spill_steps p cur lvl0 (pre post : list Hash) :
  pool_inv p -> currentTree p = Ok cur ->
  js_get (MerkleTree.tree cur) 0 = Some lvl0 ->
  pre <> [] -> post <> [] ->
  (Z.of_nat (length lvl0) + Z.of_nat (length pre) = maxLeaves p)%Z ->
  exists cur1 cur2 r nxt0 nxt1,
    MerkleTree.insertLeaves pre (Z.of_nat (length lvl0)) cur = (cur1, Ok tt) /\
    js_get (MerkleTree.tree cur1) 0 = Some (lvl0 ++ (Some <$> pre)) /\
    MerkleTree.rebuildSparseTree cur1 = (cur2, Ok tt) /\
    js_get (MerkleTree.tree cur2) 0 = Some (lvl0 ++ (Some <$> pre)) /\
    MerkleTree.root cur2 = Ok (Some r) /\
    tree_inv (treeDepth p) cur2 /\
    MerkleTree.createTree (length (trees p)) (treeDepth p) (Some cur2) = Ok nxt0 /\
    MerkleTree.root nxt0 = Ok (Some r) /\
    MerkleTree.length nxt0 = Ok 0 /\
    MerkleTree.insertLeaves post 0 nxt0 = (nxt1, Ok tt) /\
    js_get (MerkleTree.tree nxt1) 0 = Some (Some <$> post) /\
    MerkleTree.root nxt1 = Ok (Some r) /\
    tree_inv (treeDepth p) nxt1 /\
    insertLeaves (pre ++ post) (Z.of_nat (length lvl0)) p =
      (with_trees p (<[currentTreeIndex p := cur2]> (trees p) ++ [nxt1])
         (length (trees p)),
       Ok (length (trees p))).
Proof.
  intros Hinv Hcur Hlvl Hpre Hpost Hcap.
  pose proof Hinv as (Hd & Hmax & Hidx & Hall).
  assert (Hcurinv : tree_inv (treeDepth p) cur).
  { apply currentTree_Ok in Hcur. by apply (Forall_lookup_1 _ _ _ _ Hall Hcur). }
  (* step 1 *)
  pose proof (insertLeaves_contiguous cur lvl0 pre Hlvl) as Hins1.
  destruct pre as [|x pre]; [done|].
  destruct (tree_inv_append _ cur lvl0 (x :: pre) Hcurinv Hlvl) as [Hinv1 Hl1].
  set (cur1 := MerkleTree.with_tree cur _) in *.
  (* step 2 *)
  destruct (finalize_tree_inv _ cur1 _ Hinv1 Hl1)
    as (cur2 & r & Hreb & Hinv2 & _ & Hl2 & _ & Hroot2).
  { by destruct lvl0. }
  (* step 3 *)
  destruct (createTree_Ok (length (trees p)) (treeDepth p) (Some cur2) (Some r)
              Hd Hroot2) as (zs & z & Hzs & Hz & Hcreate).
  simpl in Hcreate. set (nxt0 := {| MerkleTree.treeNumber := _ |}) in *.
  assert (Hl0 : js_get (MerkleTree.tree nxt0) 0 = Some []).
  { by apply fresh_levels_get_lt. }
  assert (Hinv0 : tree_inv (treeDepth p) nxt0).
  { split; [done|]. split; [done|]. by exists []. }
  assert (Hroot0 : MerkleTree.root nxt0 = Ok (Some r)).
  { unfold MerkleTree.root. simpl. by rewrite fresh_levels_get_top. }
  (* step 4 *)
  pose proof (insertLeaves_contiguous nxt0 [] post Hl0) as Hins2.
  destruct post as [|y post]; [done|].
  destruct (tree_inv_append _ nxt0 [] (y :: post) Hinv0 Hl0) as [Hinv3 Hl3].
  simpl app in Hins2, Hinv3, Hl3.
  set (nxt1 := MerkleTree.with_tree nxt0 _) in *.
  assert (Hroot1 : MerkleTree.root nxt1 = Ok (Some r)).
  { unfold MerkleTree.root in *. simpl in *.
    by rewrite js_get_insert_0_ne by lia. }
  exists cur1, cur2, r, nxt0, nxt1.
  repeat (split; [done|]).
  split. { unfold MerkleTree.length. by rewrite Hl0. }
  repeat (split; [done|]).
  by apply (spill_run p cur lvl0 (x :: pre) (y :: post) cur1 cur2 nxt0 nxt1).
Qed.
End PoolSteps.

Section PoolInvariant.
Context `{HP : HashPrimitive}.
Import MerkleHelper.

Lemma insertLeaves_invalid p (leaves : list Hash) (startPosition : Z) :
  leaves <> [] ->
  (startPosition < 0 \/ startPosition >= maxLeaves p)%Z ->
  insertLeaves leaves startPosition p = (p, Throw InvalidStartPosition).
Proof.
  intros Hne Hbad. destruct leaves as [|leaf leaves]; [done|].
  unfold insertLeaves, bind, gets, throw. cbv beta iota.
  by case_decide.
Qed.

Lemma insertLeaves_mismatch p (leaves : list Hash) (startPosition : Z) (len : nat) :
  leaves <> [] ->
  (0 <= startPosition < maxLeaves p)%Z ->
  currentLength p = Ok len -> startPosition <> Z.of_nat len ->
  insertLeaves leaves startPosition p = (p, Throw StartPositionMismatch).
Proof.
  intros Hne Hrange Hlen Hbad. destruct leaves as [|leaf leaves]; [done|].
  unfold insertLeaves, bind, gets, throw. cbv beta iota.
  case_decide; [lia|]. rewrite Hlen. cbv beta iota. by case_decide.
Qed.

Lemma pool_inv_update p i tr :
  pool_inv p -> tree_inv (treeDepth p) tr ->
  pool_inv (with_trees p (<[i := tr]> (trees p)) (currentTreeIndex p)).
Proof.
  intros (Hd & Hmax & Hidx & Hall) Htr.
  split; [done|]. split; [done|]. split; simpl.
  - by rewrite length_insert.
  - by apply Forall_insert.
Qed.

(** Every outcome of [insertLeaves] on a pool that satisfies the
    invariant: the pool still satisfies it, and an exception is one of
    the two validation errors, raised before any write. *)
Lemma insertLeaves_outcome p (leaves : list Hash) (startPosition : Z) p' r :
  pool_inv p ->
  insertLeaves leaves startPosition p = (p', r) ->
  pool_inv p' /\
  forall e, r = Throw e ->
    p' = p /\ (e = InvalidStartPosition \/ e = StartPositionMismatch).
Proof.
  intros Hinv Hrun.
  destruct leaves as [|leaf leaves].
  { injection Hrun as <- <-. by split. }
  destruct (decide (startPosition < 0 \/ startPosition >= maxLeaves p)%Z) as [Hbad|Hok].
  { rewrite insertLeaves_invalid in Hrun by done. injection Hrun as <- <-.
    split; [done|]. intros e [= <-]. split; [done | by left]. }
  destruct (pool_inv_current p Hinv) as (cur & Hcur & Hcurinv).
  pose proof Hcurinv as (_ & _ & lvl0 & Hlvl & Hdense).
  pose proof (currentLength_Ok p cur lvl0 Hcur Hlvl) as Hlen.
  destruct (decide (startPosition = Z.of_nat (length lvl0))) as [->|Hne].
  2: { rewrite (insertLeaves_mismatch p _ _ (length lvl0)) in Hrun by (done || lia).
       injection Hrun as <- <-.
       split; [done|]. intros e [= <-]. split; [done | by right]. }
  destruct (decide (Z.of_nat (length lvl0) + Z.of_nat (length (leaf :: leaves))
                    <= maxLeaves p)%Z) as [Hfit|Hover].
  - rewrite (insertLeaves_fits p cur lvl0) in Hrun by done.
    injection Hrun as <- <-. split; [|done].
    apply pool_inv_update; [done|].
    by apply (tree_inv_append _ cur lvl0 (leaf :: leaves)).
  - set (k := Z.to_nat (maxLeaves p - Z.of_nat (length lvl0))).
    assert (Hk : 0 < k <= length leaves) by (simpl in Hover; lia).
    rewrite <- (take_drop k (leaf :: leaves)) in Hrun.
    destruct (spill_steps p cur lvl0 (take k (leaf :: leaves)) (drop k (leaf :: leaves)))
      as (cur1 & cur2 & r0 & nxt0 & nxt1 & _ & _ & _ & _ & _ & Hinv2 & _ & _ & _
          & _ & _ & _ & Hinv1 & Heq); try done.
    { intros Hnil. apply (f_equal length) in Hnil.
      rewrite length_take in Hnil. simpl in Hnil. lia. }
    { intros Hnil. apply (f_equal length) in Hnil.
      rewrite length_drop in Hnil. simpl in Hnil. lia. }
    { rewrite length_take. simpl length. lia. }
    rewrite Heq in Hrun. injection Hrun as <- <-. split; [|done].
    destruct Hinv as (Hd & Hmax & Hidx & Hall).
    split; [done|]. split; [done|]. split; simpl.
    + rewrite length_app, length_insert. simpl. lia.
    + apply Forall_app. split; [by apply Forall_insert | by constructor].
Qed.

Lemma finalizeTree_outcome p p' r :
  pool_inv p -> finalizeTree p = (p', r) -> pool_inv p' /\ r = Ok tt.
Proof.
  intros Hinv Hrun.
  destruct (pool_inv_current p Hinv) as (cur & Hcur & Hcurinv).
  destruct (rebuildSparseTree_inv _ cur Hcurinv) as (cur' & Hreb & Hinv' & _).
  unfold finalizeTree in Hrun.
  rewrite (onCurrentTree_run _ p cur cur' (Ok tt) Hcur Hreb) in Hrun.
  injection Hrun as <- <-. split; [|done]. by apply pool_inv_update.
Qed.

(** The constructor raises for depth 0: there is no [zeros[-1]]. *)
Lemma new_depth_0 : new 0 = Throw TypeError.
Proof. reflexivity. Qed.

(** Every pool that the constructor and the methods produce satisfies
    the invariant. *)
Lemma reachable_inv p : reachable p -> pool_inv p.
Proof.
  induction 1 as [d p Hnew | p p' leaves pos r _ IH Hrun | p p' r _ IH Hrun].
  - destruct d as [|d]; [by rewrite new_depth_0 in Hnew|].
    destruct (new_inv (S d)) as (p0 & Hnew0 & Hinv); [lia|]. congruence.
  - by apply (insertLeaves_outcome p leaves pos p' r IH Hrun).
  - by apply (finalizeTree_outcome p p' r IH Hrun).
Qed.
End PoolInvariant.

(** ** The worked example *)
Section WorkedExample.
Context `{HP : HashPrimitive}.
Import MerkleTree.

Lemma generateProof_at (this : t) (lvl0 : jsarray Hash) (e : Hash) (i : nat) :
  js_get (tree this) 0 = Some lvl0 -> indexOf lvl0 e = Some i ->
  generateProof this e =
    match siblingsLoop (depth this) 0 i this [] with
    | Throw err => Throw err
    | Ok els =>
        match root this with
        | Throw err => Throw err
        | Ok r =>
            Ok {| element := e; elements := els;
                  indices := Z.of_nat i; proof_root := r |}
        end
    end.
Proof. intros Hlvl Hidx. unfold generateProof. by rewrite Hlvl, Hidx. Qed.

(** Every zero level is the hash of the one below with itself. *)
Lemma zeroLevelsLoop_chain n : forall level levels zs,
  List.length levels = level -> 0 < level ->
  zeroLevelsLoop n level levels = Ok zs ->
  forall i, level <= S i < level + n ->
    exists z, zs !! i = Some z /\ zs !! S i = Some (poseidon z z).
Proof.
  induction n as [|n IH]; intros level levels zs Hlen Hpos Hrun i Hi; [lia|].
  simpl in Hrun.
  destruct (lookup_lt_is_Some_2 levels (level - 1)) as [z Hz]; [lia|].
  rewrite Hz in Hrun. simpl in Hrun.
  assert (Hlen' : List.length (levels ++ [poseidon z z]) = S level)
    by (rewrite length_app; simpl; lia).
  destruct (decide (S i = level)) as [Heq|Hne].
  - destruct (zeroLevelsLoop_Ok n (S level) (levels ++ [poseidon z z]) Hlen')
      as (zs' & Hzs' & _ & Hpre); [lia|].
    rewrite Hzs' in Hrun. injection Hrun as <-.
    exists z. rewrite !Hpre by lia. split.
    + rewrite lookup_app_l by lia. replace i with (level - 1) by lia. done.
    + apply list_lookup_middle. lia.
  - apply (IH (S level) (levels ++ [poseidon z z]) zs Hlen'); [lia | done | lia].
Qed.

Lemma getZeroValueLevels_chain d zs i :
  getZeroValueLevels d = Ok zs -> S i < d ->
  exists z, zs !! i = Some z /\ zs !! S i = Some (poseidon z z).
Proof.
  intros Hrun Hi.
  apply (zeroLevelsLoop_chain (d - 1) 1 [zeroValue] zs); [done | lia | done | lia].
Qed.

(** The test run on six leaves of which the fourth differs from the
    first three. *)
Lemma updateMerkleTree_run (l02 l04 l08 l10 l20 l40 : Hash) :
  l10 <> l02 -> l10 <> l04 -> l10 <> l08 ->
  exists zs z1 this proof,
    getZeroValueLevels 16 = Ok zs /\ zs !! 1 = Some z1 /\
    updateMerkleTree [l02; l04; l08; l10; l20; l40] l10 = Ok (this, Ok proof) /\
    zeros this = zs /\
    indices proof = 3%Z /\
    elements proof =
      Some l08 :: Some (poseidon l02 l04)
        :: Some (poseidon (poseidon l20 l40) z1) :: (Some <$> drop 3 zs).
Proof.
  intros H02 H04 H08.
  destruct (getZeroValueLevels_Ok 16) as (zs & Hzs & Hlen & _).
  do 16 (destruct zs as [|? zs]; [simpl in Hlen; lia|]).
  destruct zs; [|simpl in Hlen; lia]. clear Hlen.
  eexists _, _, _, _. split; [exact Hzs|]. split; [reflexivity|].
  unfold updateMerkleTree, createTree. rewrite Hzs.
  cbn -[generateProof]. unfold bind, gets. cbv beta.
  match goal with
  | |- context [insertLeaves ?l ?s ?t0] =>
      destruct (insertLeaves l s t0) as [t1 r1] eqn:Hins
  end.
  vm_compute in Hins. injection Hins as <- <-. cbv beta iota.
  match goal with
  | |- context [rebuildSparseTree ?t1] =>
      destruct (rebuildSparseTree t1) as [t2 r2] eqn:Hreb
  end.
  vm_compute in Hreb. injection Hreb as <- <-. cbv beta iota.
  erewrite (generateProof_at _ _ _ 3); [| reflexivity |].
  - vm_compute. split; [reflexivity|]. split; [reflexivity|]. split; reflexivity.
  - simpl. rewrite !decide_False by congruence. by rewrite decide_True.
Qed.
End WorkedExample.

(** * The claims *)

(** ** [validateProof] against its specification *)
Section ValidateProof.
Context `{HP : HashPrimitive}.
Import MerkleTree.

Lemma spec_running_snoc (tp : TypedProof) (j : nat) (sibling : Hash) :
  t_elements tp !! j = Some sibling ->
  spec_running tp (S j) =
    if Z.testbit (t_indices tp) (Z.of_nat j)
    then poseidon sibling (spec_running tp j)
    else poseidon (spec_running tp j) sibling.
Proof. intros Hj. simpl. by rewrite Hj. Qed.

(** The fold of the code from array index [length done], started on the
    specification's running hash for the levels done. *)
Lemma reduceProof_spec (tp : TypedProof) (todo : list Hash) : forall (done : list Hash),
  t_elements tp = done ++ todo ->
  reduceProof (t_indices tp) (List.length done) (spec_running tp (List.length done))
    (Some <$> todo)
  = Ok (spec_running tp (List.length (t_elements tp))).
Proof.
  induction todo as [|sibling todo IH]; intros done Hsplit.
  - rewrite Hsplit, app_nil_r. done.
  - cbn [fmap list_fmap reduceProof]. rewrite bit_test_testbit.
    assert (Hj : t_elements tp !! List.length done = Some sibling).
    { rewrite Hsplit. by apply list_lookup_middle. }
    assert (Hstep : forall l r : Hash, hashLeftRight (Some l) (Some r) = Ok (poseidon l r))
      by done.
    specialize (IH (done ++ [sibling])).
    rewrite length_app, Nat.add_1_r in IH.
    rewrite (spec_running_snoc tp _ sibling Hj) in IH.
    destruct (Z.testbit (t_indices tp) (Z.of_nat (List.length done)));
      rewrite Hstep; apply IH; by rewrite <- app_assoc.
Qed.

(** C7: on every proof, [validateProof] returns what the specification
    says: it folds the siblings into the element, level [i] with the
    running hash on the right when bit [i] of [indices] is set and on the
    left otherwise, and answers whether the result is the root. *)
Theorem validateProof_spec (tp : TypedProof) :
  validateProof (of_typed tp) = Ok (spec_validateProof tp).
Proof.
  pose proof (reduceProof_spec tp (t_elements tp) [] eq_refl) as Hfold.
  unfold validateProof, spec_validateProof. simpl in *. rewrite Hfold.
  f_equal. apply bool_decide_ext. split; congruence.
Qed.
End ValidateProof.

(** ** The nullifier registry *)
Section Nullifiers.
Context `{HP : HashPrimitive}.
Import MerkleManager.

Lemma run_call_nullifiers (c : call) (this : t) (id : string) :
  id ∈ nullifiers (run_call c this) <->
  id ∈ nullifiers this \/ c = DoInsertNullifier id.
Proof.
  destruct c as [n|n|leaves pos]; simpl.
  - unfold insertNullifier. case_decide as Hn; simpl.
    + split; [by left|]. intros [Hin|[= ->]]; done.
    + rewrite elem_of_union, elem_of_singleton.
      split; (intros [Hin|Heq]; [by left | right; congruence]).
  - split; [by left|]. by intros [Hin|[=]].
  - unfold insertTXIDLeaves.
    destruct (MerkleHelper.insertLeaves leaves pos (txid this)). simpl.
    split; [by left|]. by intros [Hin|[=]].
Qed.

Lemma run_calls_nullifiers (cs : list call) : forall (this : t) (id : string),
  id ∈ nullifiers (run_calls cs this) <->
  id ∈ nullifiers this \/ In (DoInsertNullifier id) cs.
Proof.
  unfold run_calls. induction cs as [|c cs IH]; intros this id; simpl.
  - tauto.
  - rewrite IH, run_call_nullifiers.
    split; intros H; repeat destruct H as [H|H]; auto.
Qed.

Lemma new_nullifiers (d : nat) (m0 : t) : new d = Ok m0 -> nullifiers m0 = ∅.
Proof.
  unfold new. destruct (MerkleHelper.new d); [|done].
  by intros [= <-].
Qed.

(** C8: on a manager made by the constructor and then used by any
    sequence of calls, [checkNullifier id] returns true exactly when an
    [insertNullifier id] is among the calls (so false before any insertion
    of [id], true after one) and changes nothing; an [insertNullifier id]
    that succeeds makes [checkNullifier id] true, and a second
    [insertNullifier id] raises the duplicate error and leaves the
    manager as it is. *)
Theorem nullifier_uniqueness (d : nat) (m0 : t) (cs : list call) (id : string) :
  new d = Ok m0 ->
  let m := run_calls cs m0 in
  (exists b, checkNullifier id m = (m, Ok b) /\
             (b = true <-> In (DoInsertNullifier id) cs)) /\
  (forall m1, insertNullifier id m = (m1, Ok tt) ->
     checkNullifier id m1 = (m1, Ok true) /\
     insertNullifier id m1 = (m1, Throw NullifierExists)) /\
  (forall m1 e, insertNullifier id m = (m1, Throw e) ->
     m1 = m /\ e = NullifierExists /\ In (DoInsertNullifier id) cs).
Proof.
  intros Hnew m. apply new_nullifiers in Hnew.
  assert (Hin : id ∈ nullifiers m <-> In (DoInsertNullifier id) cs).
  { unfold m. rewrite run_calls_nullifiers, Hnew.
    split; [|by right]. intros [Hempty|Hcall]; [|done].
    by apply elem_of_empty in Hempty. }
  split; [|split].
  - eexists. split; [reflexivity|]. by rewrite bool_decide_eq_true.
  - intros m1. unfold insertNullifier. case_decide as Hid; [done|].
    intros [= <-]. unfold checkNullifier. simpl.
    assert (Hnow : id ∈ nullifiers m ∪ {[id]}).
    { apply elem_of_union_r. by apply elem_of_singleton. }
    rewrite bool_decide_eq_true_2 by done.
    split; [done|]. by rewrite decide_True.
  - intros m1 e. unfold insertNullifier. case_decide as Hid; [|done].
    intros [= <- <-]. by rewrite <- Hin.
Qed.
End Nullifiers.

(** ** Proofs of a finalized tree *)
Section TreeClaims.
Context `{HP : HashPrimitive}.
Import MerkleTree.


(** C1, amended: right after a finalize that ran to its end, on a tree
    whose leaf level holds at most [2 ^ depth] entries, the proof that
    [generateProof] returns for a leaf of [levels[0]] is returned and
    [validateProof] answers [true] on it. *)
Theorem proof_round_trip (this this' : t) (lvl0 : jsarray Hash) (e : Hash) :
  rebuildSparseTree this = (this', Ok tt) ->
  js_get (tree this') 0 = Some lvl0 ->
  List.length lvl0 <= 2 ^ depth this' ->
  In (Some e) lvl0 ->
  exists proof,
    generateProof this' e = Ok proof /\ validateProof proof = Ok true.
Proof.
  intros Hrun Hlvl Hcap Hin.
  apply rebuildSparseTree_Ok in Hrun as (_ & _ & _ & Hcons).
  destruct (consistent_round_trip this' lvl0 e Hcons Hlvl Hcap Hin)
    as (proof & Hgen & _ & _ & Hvalid).
  by exists proof.
Qed.

(** The levels above an empty leaf level come out empty. *)
Lemma consistent_empty (zs : list Hash) (tr : jsarray (jsarray Hash)) (n : nat) :
  consistent zs tr 0 n -> js_get tr 0 = Some [] ->
  forall k, k <= n -> js_get tr k = Some [].
Proof.
  intros Hcons H0 k. induction k as [|k IH]; intros Hk; [done|].
  destruct (Hcons k) as (cur & next & Hcur & Hnext & Hpairs); [lia|].
  rewrite IH in Hcur by lia. injection Hcur as <-.
  simpl in Hpairs. injection Hpairs as <-. done.
Qed.

(** A tree fresh from [createTree] has one hash at [levels[depth]], its
    root; [rebuildSparseTree] on it, its leaf level still empty, runs to
    its end and leaves [levels[depth]] with no hash at all, so that [root]
    is undefined. *)
Lemma rebuild_empty_tree_loses_root (n d : nat) :
  exists t0 t1 r0,
    createTree n (S d) None = Ok t0 /\
    js_get (tree t0) 0 = Some [] /\
    js_get (tree t0) (depth t0) = Some [Some r0] /\ root t0 = Ok (Some r0) /\
    rebuildSparseTree t0 = (t1, Ok tt) /\
    js_get (tree t1) 0 = Some [] /\
    js_get (tree t1) (depth t1) = Some [] /\ root t1 = Ok None.
Proof.
  destruct (createTree_Ok n (S d) None None) as (zs & z & Hzs & Hz & Hcreate);
    [lia | done |].
  simpl in Hcreate. set (t0 := {| treeNumber := n |}) in *.
  assert (Hl0 : js_get (tree t0) 0 = Some []) by (apply fresh_levels_get_lt; lia).
  assert (Hinv : tree_inv (S d) t0).
  { split; [done|]. split; [done|]. by exists []. }
  destruct (rebuildSparseTree_inv _ t0 Hinv) as (t1 & Hrun & _ & _ & Hl1).
  pose proof (rebuildSparseTree_Ok t0 t1 Hrun) as (Hd & _ & _ & Hcons).
  rewrite Hl0 in Hl1.
  pose proof (consistent_empty _ _ _ Hcons Hl1 (depth t1) (le_n _)) as Htop.
  exists t0, t1, (poseidon z z).
  split; [done|]. split; [done|].
  split; [apply fresh_levels_get_top|].
  split; [unfold root; simpl; by rewrite fresh_levels_get_top|].
  split; [done|]. split; [done|]. split; [done|].
  unfold root. by rewrite Htop.
Qed.

End TreeClaims.

Section RootLevel.
Context `{HP : HashPrimitive}.
Import MerkleTree.

(** Each level of a consistent interior is half the level below, rounded
    up: [2 ^ j] bounds level [k] when [2 ^ (k + j)] bounds the leaves. *)
Lemma consistent_level_length (zs : list Hash) (tr : jsarray (jsarray Hash))
    (n : nat) (lvl0 : jsarray Hash) :
  consistent zs tr 0 n -> js_get tr 0 = Some lvl0 ->
  forall k, k <= n ->
    exists lvl,
      js_get tr k = Some lvl /\
      (0 < k -> Forall is_Some lvl) /\
      forall j, 1 <= List.length lvl0 <= 2 ^ (k + j) ->
                1 <= List.length lvl <= 2 ^ j.
Proof.
  intros Hcons H0 k. induction k as [|k IH]; intros Hk.
  - exists lvl0. split; [done|]. split; [lia|]. intros j. by rewrite Nat.add_0_l.
  - destruct IH as (cur & Hcur & _ & Hbound); [lia|].
    destruct (Hcons k) as (cur' & next & Hcur' & Hnext & Hpairs); [lia|].
    rewrite Hcur in Hcur'. injection Hcur' as <-.
    apply hashPairs_length in Hpairs as [Hlen Hall].
    exists next. split; [done|]. split; [done|].
    intros j Hj. specialize (Hbound (S j)).
    replace (k + S j) with (S k + j) in Hbound by lia.
    specialize (Hbound Hj). rewrite Hlen. rewrite Nat.pow_succ_r' in Hbound.
    generalize dependent (2 ^ j). intros bound Hbound.
    pose proof (Nat.div_mod_eq (List.length cur + 1) 2) as Hdiv.
    pose proof (Nat.mod_upper_bound (List.length cur + 1) 2) as Hmod.
    lia.
Qed.

(** Where [levels[depth]] does hold exactly one hash, the root: after
    [createTree]; through [insertLeaves], which leaves [levels[depth]]
    as it is; and after a [rebuildSparseTree] that ran to its end on a
    leaf level of at least one and at most [2 ^ depth] entries.  And
    [root] is [levels[depth][0]] whatever the state.  All this for trees
    of depth 1 or more. *)
Lemma root_level_single :
  (forall (n d : nat) (fromTree : option t) (this : t),
      createTree n (S d) fromTree = Ok this ->
      exists r, js_get (tree this) (depth this) = Some [Some r] /\
                root this = Ok (Some r)) /\
  (forall (this this' : t) (leaves : list Hash) (startPosition : Z) (res : result unit),
      0 < depth this ->
      insertLeaves leaves startPosition this = (this', res) ->
      depth this' = depth this /\
      js_get (tree this') (depth this') = js_get (tree this) (depth this)) /\
  (forall (this this' : t) (lvl0 : jsarray Hash),
      0 < depth this ->
      rebuildSparseTree this = (this', Ok tt) ->
      js_get (tree this') 0 = Some lvl0 ->
      1 <= List.length lvl0 <= 2 ^ depth this' ->
      exists r, js_get (tree this') (depth this') = Some [Some r] /\
                root this' = Ok (Some r)) /\
  (forall (this : t) (lvl : jsarray Hash),
      js_get (tree this) (depth this) = Some lvl ->
      root this = Ok (js_get lvl 0)).
Proof.
  split; [|split; [|split]].
  - intros n d fromTree this Hcreate.
    destruct (match fromTree with Some ft => root ft | None => Ok None end)
      as [seed|e] eqn:Hseed.
    + destruct (createTree_Ok n (S d) fromTree seed) as (zs & z & _ & _ & Heq);
        [lia | done |].
      rewrite Heq in Hcreate. injection Hcreate as <-. simpl.
      eexists. split; [apply fresh_levels_get_top|].
      unfold root. simpl. by rewrite fresh_levels_get_top.
    + unfold createTree in Hcreate.
      destruct (getZeroValueLevels (S d)); [|done]. by rewrite Hseed in Hcreate.
  - intros this this' leaves startPosition res Hd Hins.
    unfold insertLeaves in Hins. destruct leaves as [|leaf leaves].
    { by injection Hins as <- <-. }
    destruct (js_get (tree this) 0); injection Hins as <- <-; [|done].
    simpl. split; [done|]. apply js_get_insert_0_ne. lia.
  - intros this this' lvl0 Hd Hrun Hlvl Hlen.
    apply rebuildSparseTree_Ok in Hrun as (Hd' & _ & _ & Hcons).
    destruct (consistent_level_length _ _ _ lvl0 Hcons Hlvl (depth this') (le_n _))
      as (top & Htop & Hall & Hbound).
    specialize (Hall ltac:(lia)). specialize (Hbound 0).
    rewrite Nat.add_0_r in Hbound. specialize (Hbound Hlen). simpl in Hbound.
    destruct top as [|x [|y top]]; [simpl in Hbound; lia | | simpl in Hbound; lia].
    apply Forall_cons in Hall as [[r ->] _].
    exists r. split; [done|]. unfold root. by rewrite Htop.
  - intros this lvl Hlvl. unfold root. by rewrite Hlvl.
Qed.

(** C6: the code breaks the claim on the case the claim names, a tree
    whose leaf level is empty.  For every depth of 1 or more,
    [createTree] gives the empty tree one hash at [levels[depth]], its
    root; a [rebuildSparseTree] on it runs to its end and leaves
    [levels[depth]] with no hash at all, and [root] undefined.  The pool
    shows it after its first call: [finalizeTree] on a pool fresh from
    the constructor leaves [root] undefined, and [roots] with an
    undefined entry. *)
Theorem root_level_lost_on_empty (n d : nat) :
  (exists t0 t1 r0,
     createTree n (S d) None = Ok t0 /\ length t0 = Ok 0 /\
     js_get (tree t0) (depth t0) = Some [Some r0] /\ root t0 = Ok (Some r0) /\
     rebuildSparseTree t0 = (t1, Ok tt) /\ length t1 = Ok 0 /\
     js_get (tree t1) (depth t1) = Some [] /\ root t1 = Ok None) /\
  (exists p p' r0,
     MerkleHelper.new (S d) = Ok p /\ MerkleHelper.root p = Ok (Some r0) /\
     MerkleHelper.finalizeTree p = (p', Ok tt) /\
     MerkleHelper.root p' = Ok None /\ MerkleHelper.roots p' = Ok [None]).
Proof.
  split.
  - destruct (rebuild_empty_tree_loses_root n d)
      as (t0 & t1 & r0 & Hcreate & Hl0 & Htop0 & Hroot0 & Hrun & Hl1 & Htop1 & Hroot1).
    exists t0, t1, r0. unfold length. rewrite Hl0, Hl1. by repeat split.
  - destruct (rebuild_empty_tree_loses_root 0 d)
      as (t0 & t1 & r0 & Hcreate & _ & _ & Hroot0 & Hrun & _ & _ & Hroot1).
    unfold MerkleHelper.new. rewrite Hcreate.
    set (p := {| MerkleHelper.trees := [t0] |}).
    assert (Hcur : MerkleHelper.currentTree p = Ok t0) by done.
    exists p, (MerkleHelper.with_trees p [t1] 0), r0. split; [done|].
    split; [unfold MerkleHelper.root; by rewrite Hcur|].
    split. { unfold MerkleHelper.finalizeTree.
             by rewrite (onCurrentTree_run _ p t0 t1 (Ok tt) Hcur Hrun). }
    unfold MerkleHelper.root, MerkleHelper.roots, MerkleHelper.currentTree. simpl.
    by rewrite Hroot1.
Qed.
End RootLevel.



(** ** Insertion into the pool *)
Section PoolClaims.
Context `{HP : HashPrimitive}.
Import MerkleHelper.

(** C9: with no leaves, [insertLeaves] returns the index of the current
    tree and changes nothing, whatever the start position and whatever
    the pool. *)
Theorem insertLeaves_empty (p : t) (startPosition : Z) :
  insertLeaves [] startPosition p = (p, Ok (currentTreeIndex p)).
Proof. reflexivity. Qed.

(** C4, amended: a call with at least one leaf raises the invalid-offset
    error when the start position is negative or not below the capacity,
    and the non-contiguous error when it is in that range and differs
    from the leaf count of the current tree; on a pool made by the
    constructor and its own methods these are the only exceptions, and
    the pool after either is the pool before. *)
Theorem insertLeaves_rejects (p : t) (leaves : list Hash) (startPosition : Z) :
  leaves <> [] ->
  ((startPosition < 0 \/ startPosition >= maxLeaves p)%Z ->
     insertLeaves leaves startPosition p = (p, Throw InvalidStartPosition)) /\
  (forall len : nat,
     (0 <= startPosition < maxLeaves p)%Z ->
     currentLength p = Ok len -> startPosition <> Z.of_nat len ->
     insertLeaves leaves startPosition p = (p, Throw StartPositionMismatch)) /\
  (pool_inv p ->
   forall p' e, insertLeaves leaves startPosition p = (p', Throw e) ->
     p' = p /\ (e = InvalidStartPosition \/ e = StartPositionMismatch)).
Proof.
  intros Hne. split; [|split].
  - by apply insertLeaves_invalid.
  - intros len. by apply insertLeaves_mismatch.
  - intros Hinv p' e Hrun.
    by apply (insertLeaves_outcome p leaves startPosition p' (Throw e) Hinv Hrun).
Qed.

(** C2, amended: on a pool whose current tree holds [capacity - k]
    leaves, [k > 0], the insertion of [k + m] leaves, [m > 0], at
    [capacity - k] writes the first [k] leaves after the leaves of the
    current tree, finalizes that tree, appends a tree whose root is the
    root just finalized and whose leaf level is empty, writes the other
    [m] leaves into it from position 0 (its root still that placeholder),
    and returns the index of the appended tree.  The finalize that
    follows recomputes that tree's interior and root from its [m] leaves;
    nothing makes this root differ from the placeholder. *)
Theorem insertLeaves_spill (p : t) (cur : MerkleTree.t) (lvl0 : jsarray Hash)
    (leaves : list Hash) (k m : nat) :
  pool_inv p ->
  currentTree p = Ok cur -> js_get (MerkleTree.tree cur) 0 = Some lvl0 ->
  0 < k -> 0 < m -> length leaves = k + m ->
  Z.of_nat (length lvl0) = (maxLeaves p - Z.of_nat k)%Z ->
  exists cur1 cur2 r nxt0 nxt1 nxt2 r',
    let ts := <[currentTreeIndex p := cur2]> (trees p) in
    let p' := with_trees p (ts ++ [nxt1]) (length (trees p)) in
    MerkleTree.insertLeaves (take k leaves) (maxLeaves p - Z.of_nat k) cur
      = (cur1, Ok tt) /\
    js_get (MerkleTree.tree cur1) 0 = Some (lvl0 ++ (Some <$> take k leaves)) /\
    MerkleTree.rebuildSparseTree cur1 = (cur2, Ok tt) /\
    MerkleTree.root cur2 = Ok (Some r) /\
    MerkleTree.createTree (length (trees p)) (treeDepth p) (Some cur2) = Ok nxt0 /\
    MerkleTree.root nxt0 = Ok (Some r) /\
    MerkleTree.length nxt0 = Ok 0 /\
    MerkleTree.insertLeaves (drop k leaves) 0 nxt0 = (nxt1, Ok tt) /\
    js_get (MerkleTree.tree nxt1) 0 = Some (Some <$> drop k leaves) /\
    MerkleTree.root nxt1 = Ok (Some r) /\
    insertLeaves leaves (maxLeaves p - Z.of_nat k) p = (p', Ok (length (trees p))) /\
    currentTree p' = Ok nxt1 /\
    finalizeTree p' = (with_trees p (ts ++ [nxt2]) (length (trees p)), Ok tt) /\
    js_get (MerkleTree.tree nxt2) 0 = Some (Some <$> drop k leaves) /\
    consistent (MerkleTree.zeros nxt2) (MerkleTree.tree nxt2) 0 (MerkleTree.depth nxt2) /\
    MerkleTree.root nxt2 = Ok (Some r').
Proof.
  intros Hinv Hcur Hlvl Hk Hm Hlen Hcap.
  destruct (spill_steps p cur lvl0 (take k leaves) (drop k leaves) Hinv Hcur Hlvl)
    as (cur1 & cur2 & r & nxt0 & nxt1 & Hins1 & Hl1 & Hreb & Hl2 & Hroot2 & Hinv2
        & Hcreate & Hroot0 & Hlen0 & Hins2 & Hl3 & Hroot1 & Hinv1 & Hrun).
  { intros Hnil. apply (f_equal length) in Hnil. rewrite length_take in Hnil.
    simpl in Hnil. lia. }
  { intros Hnil. apply (f_equal length) in Hnil. rewrite length_drop in Hnil.
    simpl in Hnil. lia. }
  { rewrite length_take. lia. }
  rewrite take_drop in Hrun.
  destruct (finalize_tree_inv _ nxt1 _ Hinv1 Hl3)
    as (nxt2 & r' & Hreb2 & _ & _ & Hl4 & Hcons & Hroot').
  { intros Hnil. apply (f_equal length) in Hnil.
    rewrite length_fmap, length_drop in Hnil. simpl in Hnil. lia. }
  replace (maxLeaves p - Z.of_nat k)%Z with (Z.of_nat (length lvl0)) by lia.
  exists cur1, cur2, r, nxt0, nxt1, nxt2, r'. cbv zeta.
  set (ts := <[currentTreeIndex p := cur2]> (trees p)).
  assert (Hts : length (trees p) = length ts) by (unfold ts; by rewrite length_insert).
  assert (Hcur' : currentTree (with_trees p (ts ++ [nxt1]) (length (trees p))) = Ok nxt1).
  { apply currentTree_Ok. simpl. rewrite Hts. apply lookup_snoc_length. }
  do 11 (split; [done|]). split; [done|]. split; [|done].
  unfold finalizeTree. rewrite (onCurrentTree_run _ _ nxt1 nxt2 (Ok tt) Hcur' Hreb2).
  unfold with_trees. simpl.
  by rewrite <- (insert_snoc ts nxt1 nxt2), <- Hts.
Qed.

(** C5, at the failing input: a pool of depth 1 holds 2 leaves a tree;
    the insertion of 5 leaves at 0 returns, and the tree it appended
    holds the last 3 of them. *)
Theorem insertLeaves_exceeds_capacity (a b c d e : Hash) :
  exists p0 p1 nxt,
    new 1 = Ok p0 /\ maxLeaves p0 = 2%Z /\
    insertLeaves [a; b; c; d; e] 0 p0 = (p1, Ok 1) /\
    maxLeaves p1 = 2%Z /\
    currentTree p1 = Ok nxt /\
    MerkleTree.depth nxt = 1 /\
    js_get (MerkleTree.tree nxt) 0 = Some [Some c; Some d; Some e] /\
    MerkleTree.length nxt = Ok 3.
Proof.
  eexists _, _, _. split; [reflexivity|]. split; [reflexivity|].
  split; [reflexivity|]. split; [reflexivity|]. split; [reflexivity|].
  split; [reflexivity|]. split; reflexivity.
Qed.
End PoolClaims.

Section WorkedExampleClaim.
Context `{HP : HashPrimitive}.
Import MerkleTree.

(** C3, amended: six leaves inserted at 0 into a fresh tree of depth 16
    and finalized; the proof of the fourth has indices 3 and 16 elements:
    the third leaf, the hash of the first two leaves, the hash of the
    parent of the last two leaves with [zeros[1]], and then the zero
    chain from level 3 upward. *)
Theorem worked_example (l02 l04 l08 l10 l20 l40 : Hash) :
  l10 <> l02 -> l10 <> l04 -> l10 <> l08 ->
  exists zs z1 this proof,
    getZeroValueLevels 16 = Ok zs /\ zs !! 1 = Some z1 /\
    updateMerkleTree [l02; l04; l08; l10; l20; l40] l10 = Ok (this, Ok proof) /\
    zeros this = zs /\
    indices proof = 3%Z /\
    elements proof =
      Some l08 :: Some (poseidon l02 l04)
        :: Some (poseidon (poseidon l20 l40) z1) :: (Some <$> drop 3 zs).
Proof. apply updateMerkleTree_run. Qed.
End WorkedExampleClaim.

Section TreeClaimsConcrete.
#[local] Existing Instance Sym.sym.
Import MerkleTree Sym.

(** C1 as stated fails: with three leaves in a tree of depth 1 the
    finalize runs to its end, the leaf [0x08] is in [levels[0]], and
    [validateProof] answers [false] on its proof. *)
Lemma round_trip_fails_above_capacity :
  exists this' lvl0 proof,
    overfull = (this', Ok tt) /\
    js_get (tree this') 0 = Some lvl0 /\ In (Some (Bytes 8)) lvl0 /\
    generateProof this' (Bytes 8) = Ok proof /\
    validateProof proof = Ok false.
Proof.
  eexists _, _, _. split; [vm_compute; reflexivity|].
  split; [reflexivity|]. split; [simpl; tauto|].
  split; [vm_compute; reflexivity|]. vm_compute. reflexivity.
Qed.

(** The round trip on the second of two leaves in a tree of depth 1. *)
Lemma proof_round_trip_witness :
  exists proof,
    generateProof (rebuildSparseTree two_leaves).1 (Bytes 4) = Ok proof /\
    validateProof proof = Ok true.
Proof.
  apply (proof_round_trip two_leaves _ [Some (Bytes 2); Some (Bytes 4)] (Bytes 4)).
  - vm_compute. reflexivity.
  - reflexivity.
  - simpl. lia.
  - simpl. tauto.
Defined.
End TreeClaimsConcrete.

Section ConcreteClaims.
#[local] Existing Instance Sym.sym.
Import Sym.

(** C3 as stated fails: in the proof of [0x10] the entries after the
    first are not the zero chain from level 1 upward; the second is the
    hash of the leaves [0x02] and [0x04], not [zeros[1]]. *)
Lemma worked_example_not_zero_chain :
  exists this proof,
    updateMerkleTree vectors (Bytes 0x10) = Ok (this, Ok proof) /\
    MerkleTree.indices proof = 3%Z /\
    MerkleTree.elements proof !! 0 = Some (Some (Bytes 0x08)) /\
    MerkleTree.elements proof !! 1 = Some (Some (Poseidon (Bytes 0x02) (Bytes 0x04))) /\
    drop 1 (MerkleTree.elements proof) <> (Some <$> drop 1 (MerkleTree.zeros this)).
Proof.
  destruct (updateMerkleTree_run (HP := sym) (Bytes 0x02) (Bytes 0x04) (Bytes 0x08)
              (Bytes 0x10) (Bytes 0x20) (Bytes 0x40))
    as (zs & z1 & this & proof & Hzs & Hz1 & Hrun & Hzeros & Hind & Hels);
    [discriminate.. |].
  exists this, proof. rewrite Hels, Hzeros.
  split; [exact Hrun|]. split; [exact Hind|]. split; [reflexivity|].
  split; [reflexivity|].
  intros Heq. apply (f_equal (fun l => l !! 0)) in Heq.
  rewrite list_lookup_fmap, !lookup_drop in Heq.
  destruct (getZeroValueLevels_chain 16 zs 0 Hzs) as (z & _ & Hchain); [lia|].
  change (1 + 0) with 1 in Heq. rewrite Hchain in Heq. simpl in Heq. congruence.
Qed.

(** The worked example on the leaves of the test. *)
Lemma worked_example_witness :
  exists zs z1 this proof,
    MerkleTree.getZeroValueLevels 16 = Ok zs /\ zs !! 1 = Some z1 /\
    updateMerkleTree vectors (Bytes 0x10) = Ok (this, Ok proof) /\
    MerkleTree.zeros this = zs /\
    MerkleTree.indices proof = 3%Z /\
    MerkleTree.elements proof =
      Some (Bytes 0x08) :: Some (Poseidon (Bytes 0x02) (Bytes 0x04))
        :: Some (Poseidon (Poseidon (Bytes 0x20) (Bytes 0x40)) z1)
        :: (Some <$> drop 3 zs).
Proof.
  apply (worked_example (HP := sym) (Bytes 0x02) (Bytes 0x04) (Bytes 0x08)
           (Bytes 0x10) (Bytes 0x20) (Bytes 0x40)); discriminate.
Defined.

(** The pool of depth 1 satisfies the invariant. *)
Lemma pool1_inv : pool_inv pool1.
Proof.
  destruct (new_inv 1) as (p & Hnew & Hinv); [lia|].
  vm_compute in Hnew. injection Hnew as <-. exact Hinv.
Qed.

(** C4 as stated fails: with no leaves a negative start position and a
    start position that is not the leaf count both return; and a start
    position that misses the leaf count from outside the range raises the
    invalid-offset error, not the non-contiguous one. *)
Lemma empty_insert_not_rejected :
  MerkleHelper.insertLeaves [] (-1) pool1 = (pool1, Ok 0) /\
  MerkleHelper.currentLength pool1 = Ok 0 /\
  MerkleHelper.insertLeaves [] 1 pool1 = (pool1, Ok 0) /\
  MerkleHelper.insertLeaves [Bytes 1] 5 pool1 = (pool1, Throw InvalidStartPosition).
Proof. repeat split. Qed.

(** One leaf at [-1] and at [1] into the empty pool of capacity 2. *)
Lemma insertLeaves_rejects_witness :
  MerkleHelper.insertLeaves [Bytes 1] (-1) pool1 = (pool1, Throw InvalidStartPosition) /\
  MerkleHelper.insertLeaves [Bytes 1] 1 pool1 = (pool1, Throw StartPositionMismatch).
Proof.
  split.
  - apply (insertLeaves_rejects pool1 [Bytes 1] (-1)); [discriminate | lia].
  - apply (insertLeaves_rejects pool1 [Bytes 1] 1 ltac:(discriminate)) with (len := 0).
    + vm_compute. split; [discriminate | reflexivity].
    + reflexivity.
    + discriminate.
Defined.

(** C2 as stated fails in its last part: the pool is empty, of capacity
    2; four leaves go in at 0, the last two equal to the first two.  The
    appended tree starts with the finalized root of the first tree, and
    after its own finalize its root is that same value. *)
Lemma spill_root_can_equal_placeholder :
  exists p1 p2 first r,
    MerkleHelper.insertLeaves [Bytes 2; Bytes 4; Bytes 2; Bytes 4] 0 pool1 = (p1, Ok 1) /\
    MerkleHelper.trees p1 !! 0 = Some first /\
    MerkleTree.root first = Ok (Some r) /\
    MerkleHelper.root p1 = Ok (Some r) /\
    MerkleHelper.finalizeTree p1 = (p2, Ok tt) /\
    MerkleHelper.currentTreeIndex p2 = 1 /\
    MerkleHelper.root p2 = Ok (Some r).
Proof. eexists _, _, _, _. repeat split. Qed.

(** Three leaves at 0 into the empty pool of capacity 2: [k = 2], [m = 1]. *)
Lemma insertLeaves_spill_witness :
  exists p' nxt r,
    MerkleHelper.insertLeaves [Bytes 2; Bytes 4; Bytes 8] 0 pool1 = (p', Ok 1) /\
    MerkleHelper.currentTree p' = Ok nxt /\
    js_get (MerkleTree.tree nxt) 0 = Some [Some (Bytes 8)] /\
    MerkleTree.root nxt = Ok (Some r) /\
    MerkleHelper.roots p' = Ok [Some r; Some r].
Proof.
  destruct (MerkleHelper.currentTree pool1) as [cur|] eqn:Hcur; [|discriminate].
  destruct (insertLeaves_spill pool1 cur [] [Bytes 2; Bytes 4; Bytes 8] 2 1)
    as (cur1 & cur2 & r & nxt0 & nxt1 & nxt2 & r' & _ & _ & Hreb & Hroot2 & _ & _ & _
        & _ & Hl & Hroot1 & Hrun & Hcur' & _).
  - exact pool1_inv.
  - exact Hcur.
  - vm_compute in Hcur. injection Hcur as <-. reflexivity.
  - lia.
  - lia.
  - reflexivity.
  - reflexivity.
  - exists (MerkleHelper.with_trees pool1
              (<[MerkleHelper.currentTreeIndex pool1 := cur2]> (MerkleHelper.trees pool1)
                 ++ [nxt1]) 1), nxt1, r.
    split; [exact Hrun|]. split; [exact Hcur'|]. split; [exact Hl|].
    split; [exact Hroot1|].
    unfold MerkleHelper.roots. simpl. by rewrite Hroot2, Hroot1.
Defined.

(** One insertion of ["a"] into the registry of a new manager. *)
Lemma nullifier_uniqueness_witness :
  MerkleManager.new 1 = Ok manager1 /\
  exists b,
    MerkleManager.checkNullifier "a" (run_calls [DoInsertNullifier "a"] manager1)
      = (run_calls [DoInsertNullifier "a"] manager1, Ok b) /\
    (b = true <-> In (DoInsertNullifier "a") [DoInsertNullifier "a"]).
Proof.
  split; [reflexivity|].
  apply (nullifier_uniqueness (HP := sym) 1 manager1 [DoInsertNullifier "a"] "a").
  reflexivity.
Defined.
End ConcreteClaims.

(** * Further properties of the code *)

(** ** More on JavaScript arrays *)
Section JsArrayMore.
Context {A : Type}.
Implicit Types (a : jsarray A) (i j : nat) (v w : A).

Lemma js_set_length a i v : length (js_set a i v) = Nat.max (length a) (S i).
Proof.
  unfold js_set. case_decide.
  - rewrite length_insert. lia.
  - rewrite !length_app, length_replicate. simpl. lia.
Qed.

Lemma js_set_id a i v : js_get a i = Some v -> js_set a i v = a.
Proof.
  intros Hget. pose proof (js_get_lt _ _ _ Hget) as Hlt.
  apply js_get_Some in Hget. unfold js_set. rewrite decide_True by done.
  by apply list_insert_id.
Qed.

Lemma js_set_lt a i v : i < length a -> js_set a i v = <[i := Some v]> a.
Proof. intros Hi. unfold js_set. by case_decide. Qed.

Lemma js_set_ge a i v :
  length a <= i -> js_set a i v = a ++ replicate (i - length a) None ++ [Some v].
Proof. intros Hi. unfold js_set. case_decide; [lia | done]. Qed.

Lemma js_set_set a i v w : js_set (js_set a i v) i w = js_set a i w.
Proof.
  assert (Hlen := js_set_length a i v).
  rewrite (js_set_lt (js_set a i v)) by lia.
  destruct (decide (i < length a)) as [Hi|Hi].
  - rewrite !js_set_lt by done. apply list_insert_insert_eq.
  - rewrite !js_set_ge by lia. rewrite !app_assoc.
    assert (Hpre : length (a ++ replicate (i - length a) None) = i)
      by (rewrite length_app, length_replicate; lia).
    rewrite <- Hpre at 1. rewrite insert_app_r_alt by lia.
    by rewrite Nat.sub_diag.
Qed.
End JsArrayMore.

(** ** The zero chain and the root of a fresh tree *)
Section ZeroChain.
Context `{HP : HashPrimitive}.
Import MerkleTree.

(** X1: the zero chain of a depth of 1 or more has as many entries as
    the depth, the zero value first, each further entry the hash of the
    entry below with itself. *)
Theorem zero_chain (d i : nat) :
  S i < d ->
  exists zs z,
    getZeroValueLevels d = Ok zs /\ List.length zs = d /\
    zs !! 0 = Some zeroValue /\
    zs !! i = Some z /\ zs !! S i = Some (poseidon z z).
Proof.
  intros Hi.
  destruct (getZeroValueLevels_Ok d) as (zs & Hzs & Hlen & H0).
  destruct (getZeroValueLevels_chain d zs i Hzs Hi) as (z & Hz & Hnext).
  exists zs, z. repeat split; try done. lia.
Qed.

(** The chains of two depths agree where both are defined. *)
Lemma chains_agree (d d' : nat) (zs zs' : list Hash) :
  getZeroValueLevels d = Ok zs -> getZeroValueLevels d' = Ok zs' ->
  forall i, i < d -> i < d' -> zs !! i = zs' !! i.
Proof.
  intros Hzs Hzs' i. induction i as [|i IH]; intros Hd Hd'.
  - destruct (getZeroValueLevels_Ok d) as (zs0 & Hzs0 & _ & H0).
    destruct (getZeroValueLevels_Ok d') as (zs0' & Hzs0' & _ & H0').
    congruence.
  - destruct (getZeroValueLevels_chain d zs i Hzs Hd) as (z & Hz & ->).
    destruct (getZeroValueLevels_chain d' zs' i Hzs' Hd') as (z' & Hz' & ->).
    rewrite IH in Hz by lia. congruence.
Qed.

(** The tree that [createTree] makes without a predecessor, and the
    place of its root in the zero chain. *)
Lemma createTree_fresh (n d : nat) :
  0 < d ->
  exists zs z zs1,
    getZeroValueLevels d = Ok zs /\ zs !! (d - 1) = Some z /\
    createTree n d None =
      Ok {| treeNumber := n; depth := d; zeros := zs;
            tree := fresh_levels d (poseidon z z); nullifiers := [] |} /\
    getZeroValueLevels (S d) = Ok zs1 /\ zs1 !! d = Some (poseidon z z) /\
    zs = take d zs1.
Proof.
  intros Hd.
  destruct (createTree_Ok n d None None Hd eq_refl) as (zs & z & Hzs & Hz & Hcreate).
  destruct (getZeroValueLevels_Ok d) as (zs0 & Hzs0 & Hlen & _).
  rewrite Hzs in Hzs0. injection Hzs0 as <-.
  destruct (getZeroValueLevels_Ok (S d)) as (zs1 & Hzs1 & Hlen1 & _).
  exists zs, z, zs1. split; [done|]. split; [done|]. split; [done|].
  split; [done|]. split.
  - destruct (getZeroValueLevels_chain (S d) zs1 (d - 1) Hzs1) as (z1 & Hz1 & Hnext);
      [lia|].
    replace (S (d - 1)) with d in Hnext by lia. rewrite Hnext.
    rewrite <- (chains_agree d (S d) zs zs1 Hzs Hzs1 (d - 1)) in Hz1 by lia.
    congruence.
  - apply list_eq. intros i. destruct (decide (i < d)) as [Hi|Hi].
    + rewrite lookup_take_lt by done.
      apply (chains_agree d (S d) zs zs1 Hzs Hzs1); lia.
    + rewrite lookup_take_ge by lia. apply lookup_ge_None_2. lia.
Qed.

(** X2: a tree that [createTree] makes without a predecessor, for a
    depth of 1 or more, is empty, and its root is the entry that
    continues the zero chain: entry [depth] of the chain of depth
    [depth + 1], whose first [depth] entries are the zeros of the tree. *)
Theorem fresh_root_continues_chain (n d : nat) :
  0 < d ->
  exists this r zs1,
    createTree n d None = Ok this /\
    treeNumber this = n /\ depth this = d /\ length this = Ok 0 /\
    root this = Ok (Some r) /\
    getZeroValueLevels (S d) = Ok zs1 /\ zs1 !! d = Some r /\
    zeros this = take d zs1.
Proof.
  intros Hd.
  destruct (createTree_fresh n d Hd) as (zs & z & zs1 & _ & _ & Hcreate & Hzs1 & Hr & Htake).
  eexists _, (poseidon z z), zs1. split; [exact Hcreate|].
  split; [done|]. split; [done|]. split.
  { unfold length. simpl. by rewrite fresh_levels_get_lt. }
  split. { unfold root. simpl. by rewrite fresh_levels_get_top. }
  done.
Qed.

(** X3: the root that [createTree] gives a tree made from a predecessor,
    for a depth of 1 or more: the root of the predecessor as it stands,
    and the root of a tree without predecessor if that root is
    undefined.  Nothing else of the predecessor is taken over: the tree
    is empty and has the zeros of its depth. *)
Theorem createTree_seed (n d : nat) (fromTree : t) (seed : option Hash) :
  0 < d -> root fromTree = Ok seed ->
  exists this fresh r0,
    createTree n d (Some fromTree) = Ok this /\
    createTree n d None = Ok fresh /\ root fresh = Ok (Some r0) /\
    root this = Ok (Some (default r0 seed)) /\
    length this = Ok 0 /\ zeros this = zeros fresh /\
    treeNumber this = n /\ depth this = d.
Proof.
  intros Hd Hroot.
  destruct (createTree_Ok n d (Some fromTree) seed Hd Hroot) as (zs & z & Hzs & Hz & H1).
  destruct (createTree_Ok n d None None Hd eq_refl) as (zs' & z' & Hzs' & Hz' & H2).
  rewrite Hzs in Hzs'. injection Hzs' as <-. rewrite Hz in Hz'. injection Hz' as <-.
  eexists _, _, (poseidon z z). split; [exact H1|]. split; [exact H2|].
  unfold root, length. simpl. rewrite !fresh_levels_get_top.
  rewrite fresh_levels_get_lt by done. by repeat split.
Qed.
End ZeroChain.

(** ** Writing leaves at any offset *)
Section WriteLeaves.
Context `{HP : HashPrimitive}.
Import MerkleTree.

Lemma writeLeaves_spec (leaves : list Hash) : forall (lvl : jsarray Hash) (p : nat),
  let lvl' := writeLeaves lvl (Z.of_nat p) leaves in
  (leaves <> [] ->
   List.length lvl' = Nat.max (List.length lvl) (p + List.length leaves)) /\
  (forall i leaf, leaves !! i = Some leaf -> js_get lvl' (p + i) = Some leaf) /\
  (forall j, j < p \/ p + List.length leaves <= j -> js_get lvl' j = js_get lvl j).
Proof.
  induction leaves as [|leaf leaves IH]; intros lvl p; cbn zeta.
  - split; [done|]. split; [done|]. done.
  - cbn [writeLeaves]. unfold js_setZ. rewrite decide_False by lia.
    rewrite Nat2Z.id.
    replace (Z.of_nat p + 1)%Z with (Z.of_nat (S p)) by lia.
    destruct (IH (js_set lvl p leaf) (S p)) as (Hlen & Hread & Hkeep).
    split; [|split].
    + intros _. destruct leaves as [|leaf' leaves].
      * simpl. rewrite js_set_length. lia.
      * rewrite Hlen by done. rewrite js_set_length. simpl. lia.
    + intros i x Hi. destruct i as [|i].
      * injection Hi as ->. rewrite Nat.add_0_r.
        rewrite Hkeep by lia. apply js_get_set_eq.
      * replace (p + S i) with (S p + i) by lia. by apply Hread.
    + intros j Hj. simpl in Hj. rewrite Hkeep by lia.
      apply js_get_set_ne. lia.
Qed.

(** X4: [insertLeaves] of a tree with [n] leaves at an offset [p >= 0]
    with [p + n < 2 ^ 32], so that every position written is an array
    index; wherever [p] lies below that, with no check against the
    length.  Leaf [i] is then read at position [p + i]; every other
    position reads as before, a position skipped past the old end as
    undefined; the leaf level ends at the greater of its old end and
    [p + n]; no other level, and so not the root, changes. *)
Theorem insertLeaves_read_back (this : t) (lvl : jsarray Hash) (leaves : list Hash)
    (p : nat) :
  js_get (tree this) 0 = Some lvl -> leaves <> [] ->
  (Z.of_nat p + Z.of_nat (List.length leaves) < 2 ^ 32)%Z ->
  exists this' lvl',
    insertLeaves leaves (Z.of_nat p) this = (this', Ok tt) /\
    js_get (tree this') 0 = Some lvl' /\
    length this' = Ok (Nat.max (List.length lvl) (p + List.length leaves)) /\
    (forall i leaf, leaves !! i = Some leaf -> js_get lvl' (p + i) = Some leaf) /\
    (forall j, j < p \/ p + List.length leaves <= j -> js_get lvl' j = js_get lvl j) /\
    (forall k, 0 < k -> js_get (tree this') k = js_get (tree this) k) /\
    depth this' = depth this /\ zeros this' = zeros this.
Proof.
  intros Hlvl Hne _.
  destruct (writeLeaves_spec leaves lvl p) as (Hlen & Hread & Hkeep).
  unfold insertLeaves. destruct leaves as [|leaf leaves]; [done|]. rewrite Hlvl.
  eexists _, _. split; [reflexivity|]. unfold with_tree. cbn [tree depth zeros].
  assert (Hget := js_get_insert_0 (tree this)
                    (writeLeaves lvl (Z.of_nat p) (leaf :: leaves)) lvl Hlvl).
  split; [exact Hget|]. split.
  { unfold length. cbn [tree]. rewrite Hget. by rewrite Hlen. }
  split; [exact Hread|]. split; [exact Hkeep|]. split; [|done].
  intros k Hk. apply js_get_insert_0_ne. lia.
Qed.
End WriteLeaves.

(** ** More on [rebuildSparseTree] *)
Section RebuildMore.
Context `{HP : HashPrimitive}.
Import MerkleTree.
Local Arguments hashLeftRight : simpl never.

(** The pair loop runs to its end exactly when no left operand, an entry
    at an even position, is undefined. *)
Lemma hashPairs_Ok_iff (z0 : Hash) (cur : jsarray Hash) :
  (exists next, hashPairs (Some z0) cur [] = (next, Ok tt)) <->
  (forall p, 2 * p < List.length cur -> is_Some (js_get cur (2 * p))).
Proof.
  induction cur as [| a | a b cur IH] using list_pair_ind.
  - split; [intros _ p Hp; simpl in Hp; lia | by eexists].
  - split.
    + intros [next Hrun] p Hp. simpl in Hp. replace p with 0 by lia.
      simpl in Hrun. destruct a as [x|]; [by eexists | done].
    + intros Hdef. destruct (Hdef 0) as [x Hx]; [simpl; lia|].
      apply js_get_Some in Hx. injection Hx as ->. by eexists.
  - split.
    + intros [next Hrun] p Hp.
      apply hashPairs_cons2 in Hrun as (h & next' & Hh & Hrest & _).
      destruct p as [|p].
      * apply hashLeftRight_Ok in Hh as (x & _ & -> & _). by eexists.
      * replace (2 * S p) with (S (S (2 * p))) by lia. rewrite !js_get_cons_S.
        apply IH; [by eexists | simpl in Hp; lia].
    + intros Hdef. destruct (Hdef 0) as [x Hx]; [simpl; lia|].
      apply js_get_Some in Hx. injection Hx as ->.
      destruct (proj2 IH) as [next Hnext].
      { intros p Hp. specialize (Hdef (S p)).
        replace (2 * S p) with (S (S (2 * p))) in Hdef by lia.
        rewrite !js_get_cons_S in Hdef. apply Hdef. simpl. lia. }
      simpl. assert (Hr : exists y, nullish b (Some z0) = Some y)
        by (destruct b; by eexists).
      destruct Hr as [y ->]. unfold hashLeftRight.
      rewrite hashPairs_acc, Hnext. by eexists.
Qed.

(** The pair loop raises nothing but [TypeError]. *)
Lemma hashPairs_Throw z cur acc next e :
  hashPairs z cur acc = (next, Throw e) -> e = TypeError.
Proof.
  revert acc. induction cur as [| a | a b cur IH] using list_pair_ind; intros acc.
  - done.
  - simpl. destruct a as [x|], z as [y|]; simpl; congruence.
  - simpl. destruct a as [x|]; [|simpl; congruence].
    destruct (nullish b z) as [y|]; [|simpl; congruence]. simpl. apply IH.
Qed.

Lemma rebuildLoop_Throw n : forall level zs tr tr' e,
  rebuildLoop n level zs tr = (tr', Throw e) -> e = TypeError.
Proof.
  induction n as [|n IH]; intros level zs tr tr' e; [done|]. simpl.
  destruct (js_get _ level); [|congruence].
  destruct (hashPairs _ _ _) as [next [[]|e']] eqn:Hpairs.
  - apply IH.
  - intros [= _ <-]. by apply hashPairs_Throw in Hpairs.
Qed.

(** X5: [rebuildSparseTree] on a tree of depth 1 or more that has its
    zeros.  It runs to its end exactly when no even position of the leaf
    level is a hole: a hole at an odd position is read as the zero
    value, a hole at an even position is a left operand of the hash.
    It raises nothing but [TypeError]. *)
Theorem rebuildSparseTree_raises_iff (this : t) (lvl0 : jsarray Hash) :
  0 < depth this ->
  (forall k, k < depth this -> is_Some (zeros this !! k)) ->
  js_get (tree this) 0 = Some lvl0 ->
  ((exists this', rebuildSparseTree this = (this', Ok tt)) <->
   (forall p, 2 * p < List.length lvl0 -> is_Some (js_get lvl0 (2 * p)))) /\
  (forall this' e, rebuildSparseTree this = (this', Throw e) -> e = TypeError).
Proof.
  intros Hd Hzs Hlvl. split.
  - destruct (Hzs 0 Hd) as [z0 Hz0].
    rewrite <- (hashPairs_Ok_iff z0 lvl0).
    unfold rebuildSparseTree. destruct (depth this) as [|n] eqn:Hdepth; [lia|].
    cbn [rebuildLoop]. rewrite js_get_set_ne by lia. rewrite Hlvl, Hz0.
    destruct (hashPairs (Some z0) lvl0 []) as [next r] eqn:Hpairs.
    destruct r as [[]|e].
    + destruct (rebuildLoop_dense n 1 (zeros this)
                  (js_set (js_set (tree this) (0 + 1) []) (0 + 1) next) next)
        as [tr' Hloop].
      { apply js_get_set_eq. }
      { by apply hashPairs_length in Hpairs as [_ Hall]. }
      { intros k Hk. apply Hzs. lia. }
      rewrite Hloop. split; intros _; by eexists.
    + split; intros [x Hx]; discriminate.
  - intros this' e. unfold rebuildSparseTree.
    destruct (rebuildLoop _ _ _ _) as [tr r] eqn:Hloop. intros [= _ ->].
    by apply rebuildLoop_Throw in Hloop.
Qed.

(** A consistent interior is what the rebuild loop writes: on it the loop
    changes nothing. *)
Lemma rebuildLoop_consistent n : forall level zs tr,
  consistent zs tr level n -> rebuildLoop n level zs tr = (tr, Ok tt).
Proof.
  induction n as [|n IH]; intros level zs tr Hcons; [done|].
  destruct (Hcons level) as (cur & next & Hcur & Hnext & Hpairs); [lia|].
  cbn [rebuildLoop]. rewrite js_get_set_ne by lia. rewrite Hcur, Hpairs.
  replace (level + 1) with (S level) by lia.
  rewrite js_set_set, (js_set_id _ _ _ Hnext).
  apply IH. intros k Hk. apply Hcons. lia.
Qed.

Lemma rebuildSparseTree_consistent (this : t) :
  consistent (zeros this) (tree this) 0 (depth this) ->
  rebuildSparseTree this = (this, Ok tt).
Proof.
  intros Hcons. unfold rebuildSparseTree.
  rewrite (rebuildLoop_consistent _ _ _ _ Hcons). by destruct this.
Qed.

(** X6: a second [rebuildSparseTree], with no insertion in between,
    changes nothing and raises nothing. *)
Theorem rebuildSparseTree_idempotent (this this' : t) :
  rebuildSparseTree this = (this', Ok tt) ->
  rebuildSparseTree this' = (this', Ok tt).
Proof.
  intros Hrun. apply rebuildSparseTree_Ok in Hrun as (_ & _ & _ & Hcons).
  by apply rebuildSparseTree_consistent.
Qed.

(** A node written by the pair loop is the hash of the two entries below
    it, the zero of the level standing for a missing right entry. *)
Lemma hashPairs_node z cur next :
  hashPairs z cur [] = (next, Ok tt) ->
  forall p h, js_get next p = Some h ->
    exists l r, js_get cur (2 * p) = Some l /\
      nullish (js_get cur (2 * p + 1)) z = Some r /\ h = poseidon l r.
Proof.
  revert next. induction cur as [| a | a b cur IH] using list_pair_ind;
    intros next Hrun p h Hget.
  - injection Hrun as <-. by destruct p.
  - cbn [hashPairs] in Hrun.
    destruct (hashLeftRight a (nullish None z)) as [x|] eqn:Hh; [|done].
    injection Hrun as <-. destruct p as [|p]; [|by destruct p].
    apply js_get_Some in Hget. injection Hget as <-.
    apply hashLeftRight_Ok in Hh as (l & r & -> & Hr & ->).
    exists l, r. by repeat split.
  - apply hashPairs_cons2 in Hrun as (x & next' & Hh & Hrest & ->).
    destruct p as [|p].
    + apply js_get_Some in Hget. injection Hget as <-.
      apply hashLeftRight_Ok in Hh as (l & r & -> & Hr & ->).
      exists l, r. split; [done|]. split; [|done].
      simpl. unfold js_get at 1. simpl. by destruct b.
    + rewrite js_get_cons_S in Hget.
      destruct (IH next' Hrest p h Hget) as (l & r & Hl & Hr & ->).
      exists l, r. replace (2 * S p) with (S (S (2 * p))) by lia.
      by rewrite !js_get_cons_S.
Qed.

(** X7: the interior after a [rebuildSparseTree] that ran to its end.
    Level [k + 1] has half the entries of level [k], rounded up, none of
    them undefined; its entry [p] is the hash of the entries [2p] and
    [2p + 1] of level [k], with [zeros[k]] for a missing or undefined
    entry [2p + 1]. *)
Theorem rebuildSparseTree_interior (this this' : t) (k p : nat) :
  rebuildSparseTree this = (this', Ok tt) ->
  k < depth this' ->
  exists cur next,
    js_get (tree this') k = Some cur /\ js_get (tree this') (S k) = Some next /\
    List.length next = (List.length cur + 1) / 2 /\
    Forall is_Some next /\
    (2 * p < List.length cur ->
     exists l r,
       js_get cur (2 * p) = Some l /\
       nullish (js_get cur (2 * p + 1)) (zeros this' !! k) = Some r /\
       js_get next p = Some (poseidon l r)).
Proof.
  intros Hrun Hk. apply rebuildSparseTree_Ok in Hrun as (_ & _ & _ & Hcons).
  destruct (Hcons k) as (cur & next & Hcur & Hnext & Hpairs); [lia|].
  exists cur, next. split; [done|]. split; [done|].
  destruct (hashPairs_length _ _ _ Hpairs) as [Hlen Hall].
  split; [done|]. split; [done|]. intros Hp.
  assert (Hlt : p < List.length next).
  { rewrite Hlen. pose proof (Nat.div_mod_eq (List.length cur + 1) 2).
    pose proof (Nat.mod_upper_bound (List.length cur + 1) 2). lia. }
  destruct (lookup_lt_is_Some_2 next p Hlt) as [x Hx].
  destruct (Forall_lookup_1 _ _ _ _ Hall Hx) as [h ->].
  apply js_get_Some in Hx.
  destruct (hashPairs_node _ _ _ Hpairs p h Hx) as (l & r & Hl & Hr & ->).
  by exists l, r.
Qed.

(** X8: a [rebuildSparseTree] computes the interior and the root from
    the leaf level, the depth and the zeros, and from nothing else: of
    what the levels above the leaves held before, the root that
    [createTree] took from a predecessor included, nothing is left. *)
Theorem rebuildSparseTree_from_leaves (t1 t2 t1' t2' : t) :
  depth t1 = depth t2 -> zeros t1 = zeros t2 ->
  js_get (tree t1) 0 = js_get (tree t2) 0 ->
  rebuildSparseTree t1 = (t1', Ok tt) -> rebuildSparseTree t2 = (t2', Ok tt) ->
  (forall k, k <= depth t1 -> js_get (tree t1') k = js_get (tree t2') k) /\
  root t1' = root t2'.
Proof.
  intros Hd Hz Hl Hr1 Hr2.
  apply rebuildSparseTree_Ok in Hr1 as (Hd1 & Hz1 & Hl1 & Hc1).
  apply rebuildSparseTree_Ok in Hr2 as (Hd2 & Hz2 & Hl2 & Hc2).
  assert (Hlevels : forall k, k <= depth t1 -> js_get (tree t1') k = js_get (tree t2') k).
  { induction k as [|k IH]; intros Hk; [congruence|].
    destruct (Hc1 k) as (cur1 & next1 & Hcur1 & Hnext1 & Hp1); [lia|].
    destruct (Hc2 k) as (cur2 & next2 & Hcur2 & Hnext2 & Hp2); [lia|].
    rewrite IH in Hcur1 by lia. rewrite Hcur1 in Hcur2. injection Hcur2 as <-.
    rewrite Hz1, Hz, <- Hz2, Hp2 in Hp1. injection Hp1 as <-. congruence. }
  split; [done|]. unfold root. rewrite Hd1, Hd2, <- Hd. by rewrite Hlevels.
Qed.
End RebuildMore.

(** ** Outcomes of [generateProof] and soundness of [validateProof] *)
Section ProofFacts.
Context `{HP : HashPrimitive}.
Import MerkleTree.
Local Arguments hashLeftRight : simpl never.

Lemma indexOf_None (lvl : jsarray Hash) (e : Hash) :
  indexOf lvl e = None <-> ~ In (Some e) lvl.
Proof.
  induction lvl as [|x lvl IH]; simpl; [tauto|].
  case_decide as Hx.
  - split; [done | intros Hnot; exfalso; apply Hnot; by left].
  - destruct (indexOf lvl e) as [i|].
    + split; [done|]. intros Hnot. exfalso.
      assert (Hin : ~ In (Some e) lvl) by tauto. by apply IH in Hin.
    + split; [|done]. intros _ [Heq|Hin]; [done|]. by apply IH in Hin.
Qed.

Lemma indexOf_first (lvl : jsarray Hash) (e : Hash) : forall i,
  indexOf lvl e = Some i -> forall j, j < i -> js_get lvl j <> Some e.
Proof.
  induction lvl as [|x lvl IH]; intros i; simpl; [done|].
  case_decide as Hx.
  - intros [= <-] j Hj. lia.
  - destruct (indexOf lvl e) as [i'|] eqn:Hidx; [|done].
    intros [= <-] j Hj. destruct j as [|j].
    + intros Hget. apply js_get_Some in Hget. simpl in Hget. congruence.
    + rewrite js_get_cons_S. apply (IH i'); [done | lia].
Qed.

Lemma siblingsLoop_length n : forall level index (this : t) acc els,
  siblingsLoop n level index this acc = Ok els ->
  List.length els = List.length acc + n.
Proof.
  induction n as [|n IH]; intros level index this acc els; cbn [siblingsLoop].
  - intros [= <-]. lia.
  - destruct (js_get (tree this) level); [|done].
    intros Hrun. apply IH in Hrun. rewrite length_app in Hrun. simpl in Hrun. lia.
Qed.

Lemma siblingsLoop_Throw n : forall level index (this : t) acc err,
  siblingsLoop n level index this acc = Throw err -> err = TypeError.
Proof.
  induction n as [|n IH]; intros level index this acc err; cbn [siblingsLoop]; [done|].
  destruct (js_get (tree this) level); [apply IH | congruence].
Qed.

(** A proof that [generateProof] returns. *)
Lemma generateProof_Ok (this : t) (lvl0 : jsarray Hash) (e : Hash) (proof : MerkleProof) :
  js_get (tree this) 0 = Some lvl0 -> generateProof this e = Ok proof ->
  element proof = e /\ List.length (elements proof) = depth this /\
  root this = Ok (proof_root proof) /\
  exists i, indices proof = Z.of_nat i /\ js_get lvl0 i = Some e /\
    forall j, j < i -> js_get lvl0 j <> Some e.
Proof.
  intros Hlvl. unfold generateProof. rewrite Hlvl.
  destruct (indexOf lvl0 e) as [i|] eqn:Hidx; [|done].
  destruct (siblingsLoop _ _ _ _ _) as [els|err'] eqn:Hsib; [|done].
  destruct (root this) as [r|] eqn:Hroot; [|done]. intros [= <-]. simpl.
  split; [done|]. split; [by apply siblingsLoop_length in Hsib|].
  split; [done|]. exists i. split; [done|].
  split; [by apply indexOf_Some | by apply indexOf_first].
Qed.

(** X9: what [generateProof] of a tree returns.  For an element that the
    leaf level does not hold it raises the not-found error.  A proof
    that it returns is the proof of the first position that holds the
    element: its [indices] is that position, it has one sibling for each
    level below the root level, and its root is the root of the tree as
    it stands.  It raises nothing but the not-found error and
    [TypeError]. *)
Theorem generateProof_outcome (this : t) (lvl0 : jsarray Hash) (e : Hash) :
  js_get (tree this) 0 = Some lvl0 ->
  (~ In (Some e) lvl0 -> generateProof this e = Throw ElementNotFound) /\
  (forall err, generateProof this e = Throw err ->
     (err = ElementNotFound /\ ~ In (Some e) lvl0) \/ err = TypeError) /\
  (forall proof, generateProof this e = Ok proof ->
     element proof = e /\ List.length (elements proof) = depth this /\
     root this = Ok (proof_root proof) /\
     exists i, indices proof = Z.of_nat i /\ js_get lvl0 i = Some e /\
       forall j, j < i -> js_get lvl0 j <> Some e).
Proof.
  intros Hlvl. split; [|split].
  - intros Hnot. apply indexOf_None in Hnot.
    unfold generateProof. by rewrite Hlvl, Hnot.
  - intros err. unfold generateProof. rewrite Hlvl.
    destruct (indexOf lvl0 e) as [i|] eqn:Hidx.
    + destruct (siblingsLoop _ _ _ _ _) as [els|err'] eqn:Hsib.
      * destruct (root this) as [r|err'] eqn:Hroot; [done|]. intros [= <-]. right.
        unfold root in Hroot.
        destruct (js_get (tree this) (depth this)); congruence.
      * intros [= <-]. right. by apply siblingsLoop_Throw in Hsib.
    + intros [= <-]. left. split; [done|]. by apply indexOf_None.
  - intros proof. by apply generateProof_Ok.
Qed.

Lemma reduceProof_ext (ind ind' : Z) (els : list (option Hash)) :
  forall (index : nat) (current : Hash),
  (forall k, index <= k < index + List.length els ->
     Z.testbit ind (Z.of_nat k) = Z.testbit ind' (Z.of_nat k)) ->
  reduceProof ind index current els = reduceProof ind' index current els.
Proof.
  induction els as [|el els IH]; intros index current Hbits; [done|].
  cbn [reduceProof]. rewrite !bit_test_testbit.
  rewrite (Hbits index) by (simpl; lia).
  destruct (Z.testbit ind' (Z.of_nat index)).
  - destruct (hashLeftRight el (Some current)); [|done].
    apply IH. intros k Hk. apply Hbits. simpl. lia.
  - destruct (hashLeftRight (Some current) el); [|done].
    apply IH. intros k Hk. apply Hbits. simpl. lia.
Qed.

Lemma testbit_mod_pow2 (a : Z) (n k : nat) :
  k < n ->
  Z.testbit (a mod 2 ^ Z.of_nat n) (Z.of_nat k) = Z.testbit a (Z.of_nat k).
Proof. intros Hk. apply Z.mod_pow2_bits_low. lia. Qed.

(** X10: [validateProof] reads of [indices] only the bits below the
    number of elements: the proof with [indices + k * 2 ^ n], for [n]
    elements and any integer [k], validates as the proof itself does. *)
Theorem validateProof_high_bits (proof : MerkleProof) (k : Z) :
  validateProof
    {| element := element proof; elements := elements proof;
       indices := indices proof + k * 2 ^ Z.of_nat (List.length (elements proof));
       proof_root := proof_root proof |} = validateProof proof.
Proof.
  unfold validateProof. simpl.
  rewrite (reduceProof_ext _ (indices proof)); [done|].
  intros j Hj.
  rewrite <- (testbit_mod_pow2 _ (List.length (elements proof)) j) by lia.
  rewrite Z_mod_plus_full. apply testbit_mod_pow2. lia.
Qed.

(** With a hash without collisions, the fold of [validateProof] read
    backwards: if its result is what the tree holds at the top of a
    path, its start is what the tree holds at the bottom. *)
Lemma reduceProof_descends (this : t) (i : nat) (ind : Z) (els : list (option Hash)) :
  (forall a b c d : Hash, poseidon a b = poseidon c d -> a = c /\ b = d) ->
  forall (level : nat) (v final : Hash),
  consistent (zeros this) (tree this) level (List.length els) ->
  (forall k z h, zeros this !! k = Some z -> zeros this !! S k = Some h ->
     h = poseidon z z) ->
  (forall k, level <= k < level + List.length els ->
     Z.testbit ind (Z.of_nat k) = Nat.odd (i / 2 ^ k)) ->
  reduceProof ind level v els = Ok final ->
  node_or_zero this (level + List.length els) (i / 2 ^ (level + List.length els)) final ->
  node_or_zero this level (i / 2 ^ level) v.
Proof.
  intros Hinj. induction els as [|el els IH]; intros level v final Hcons Hchain Hbits.
  - simpl. intros [= <-]. by rewrite Nat.add_0_r.
  - cbn [reduceProof]. rewrite bit_test_testbit. rewrite (Hbits level) by (simpl; lia).
    simpl List.length in *.
    replace (level + S (List.length els)) with (S level + List.length els) in * by lia.
    set (q := i / 2 ^ level).
    assert (Hq : i / 2 ^ S level = q / 2).
    { unfold q. rewrite Nat.pow_succ_r', Nat.mul_comm.
      by rewrite Nat.Div0.div_div. }
    destruct (Hcons level) as (cur & next & Hcur & Hnext & Hpairs); [lia|].
    intros Hrun Htop.
    assert (Hstep : exists h,
      (if Nat.odd q then hashLeftRight el (Some v) else hashLeftRight (Some v) el) = Ok h /\
      reduceProof ind (S level) h els = Ok final).
    { destruct (Nat.odd q).
      - destruct (hashLeftRight el (Some v)) as [h|]; [by exists h | done].
      - destruct (hashLeftRight (Some v) el) as [h|]; [by exists h | done]. }
    destruct Hstep as (h & Hh & Hrest).
    assert (Hnode : node_or_zero this (S level) (q / 2) h).
    { rewrite <- Hq. apply (IH (S level) h final); try done.
      - intros k Hk. apply Hcons. lia.
      - intros k Hk. apply Hbits. lia. }
    destruct Hnode as (next' & Hnext' & Hcase). rewrite Hnext in Hnext'.
    injection Hnext' as <-.
    exists cur. split; [done|].
    pose proof (Nat.div_mod_eq q 2) as Hdm.
    pose proof (Nat.mod_upper_bound q 2) as Hm.
    destruct Hcase as [Hin | [Hout Hz]].
    + destruct (hashPairs_node _ _ _ Hpairs _ _ Hin) as (l & r & Hl & Hr & ->).
      destruct (Nat.odd q) eqn:Hodd.
      * apply hashLeftRight_Ok in Hh as (a & b & -> & [= <-] & Heq).
        apply Hinj in Heq as [<- <-].
        assert (q = 2 * (q / 2) + 1) as Hqq.
        { apply Nat.odd_spec in Hodd as [m Hm']. lia. }
        rewrite <- Hqq in Hr.
        destruct (js_get cur q) as [x|] eqn:Hx.
        -- left. simpl in Hr. done.
        -- right. split; [done|]. simpl in Hr. done.
      * apply hashLeftRight_Ok in Hh as (a & b & [= <-] & -> & Heq).
        apply Hinj in Heq as [<- <-].
        assert (q = 2 * (q / 2)) as Hqq.
        { rewrite <- Nat.negb_even in Hodd. apply negb_false_iff in Hodd.
          apply Nat.even_spec in Hodd as [m Hm']. lia. }
        rewrite <- Hqq in Hl. by left.
    + destruct (lookup_lt_is_Some_2 (zeros this) level) as [z0 Hz0].
      { apply lookup_lt_Some in Hz. lia. }
      rewrite (Hchain level z0 h Hz0 Hz) in *.
      destruct (hashPairs_length _ _ _ Hpairs) as [Hlen Hall].
      assert (Hge : List.length next <= q / 2).
      { destruct (decide (q / 2 < List.length next)) as [Hlt|]; [|lia].
        destruct (lookup_lt_is_Some_2 next (q / 2) Hlt) as [x Hx].
        destruct (Forall_lookup_1 _ _ _ _ Hall Hx) as [y ->].
        apply js_get_Some in Hx. congruence. }
      assert (Hcurlen : List.length cur <= q).
      { rewrite Hlen in Hge.
        pose proof (Nat.div_mod_eq (List.length cur + 1) 2).
        pose proof (Nat.mod_upper_bound (List.length cur + 1) 2). lia. }
      right. split; [by apply js_get_ge|].
      destruct (Nat.odd q).
      * apply hashLeftRight_Ok in Hh as (a & b & -> & [= <-] & Heq).
        apply Hinj in Heq as [_ <-]. done.
      * apply hashLeftRight_Ok in Hh as (a & b & [= <-] & -> & Heq).
        apply Hinj in Heq as [<- _]. done.
Qed.

(** The fold of [validateProof] on a tree with a consistent interior:
    if it ends in the root, it started from what the leaf level holds. *)
Lemma reduceProof_sound (this : t) (lvl0 : jsarray Hash) (ind : Z) (e r : Hash)
    (els : list (option Hash)) :
  (forall a b c d : Hash, poseidon a b = poseidon c d -> a = c /\ b = d) ->
  getZeroValueLevels (depth this) = Ok (zeros this) ->
  consistent (zeros this) (tree this) 0 (depth this) ->
  js_get (tree this) 0 = Some lvl0 ->
  List.length els = depth this ->
  root this = Ok (Some r) ->
  reduceProof ind 0 e els = Ok r ->
  let i := Z.to_nat (ind mod 2 ^ Z.of_nat (depth this)) in
  js_get lvl0 i = Some e \/ (js_get lvl0 i = None /\ e = zeroValue).
Proof.
  intros Hinj Hzs Hcons Hlvl Hlen Hroot Hred i.
  assert (Hi : (0 <= ind mod 2 ^ Z.of_nat (depth this) < 2 ^ Z.of_nat (depth this))%Z)
    by (apply Z.mod_pos_bound; lia).
  assert (Hin : i < 2 ^ depth this).
  { unfold i. apply Nat2Z.inj_lt. rewrite Z2Nat.id by lia.
    rewrite Nat2Z.inj_pow. simpl. lia. }
  destruct (getZeroValueLevels_Ok (depth this)) as (zs & Hzs' & Hzlen & Hz0).
  rewrite Hzs in Hzs'. injection Hzs' as <-.
  assert (Hbottom : node_or_zero this 0 (i / 2 ^ 0) e).
  { apply (reduceProof_descends this i ind els Hinj 0 _ r).
    - by rewrite Hlen.
    - intros k z h Hzk Hh.
      assert (Hk : S k < depth this) by (apply lookup_lt_Some in Hh; lia).
      destruct (getZeroValueLevels_chain _ _ k Hzs Hk) as (z' & Hz' & Hnext).
      congruence.
    - intros k Hk. simpl in Hk. rewrite Hlen in Hk.
      rewrite <- (testbit_mod_pow2 _ (depth this) k) by lia.
      rewrite <- testbit_of_nat_odd. unfold i. by rewrite Z2Nat.id by lia.
    - done.
    - simpl. rewrite Hlen. rewrite (Nat.div_small i) by done.
      unfold root in Hroot.
      destruct (js_get (tree this) (depth this)) as [top|] eqn:Htop; [|done].
      injection Hroot as Hroot. exists top. split; [done|]. by left. }
  destruct Hbottom as (lvl & Hlvl' & Hcase). rewrite Hlvl in Hlvl'.
  injection Hlvl' as <-. change (2 ^ 0) with 1 in Hcase.
  rewrite Nat.div_1_r in Hcase.
  destruct Hcase as [Hin0 | [Hout Hzero]]; [by left|].
  right. split; [done|]. rewrite Hz0 in Hzero. by injection Hzero.
Qed.

(** X11: soundness of [validateProof], for a hash without collisions.
    A proof that validates against the root of a tree that was just
    finalized, with one element for each level, shows what the leaf
    level holds at the position that the low bits of [indices] give: the
    element of the proof; or nothing, and then the element is the zero
    value. *)
Theorem validateProof_sound (this this' : t) (lvl0 : jsarray Hash) (proof : MerkleProof) :
  (forall a b c d : Hash, poseidon a b = poseidon c d -> a = c /\ b = d) ->
  getZeroValueLevels (depth this) = Ok (zeros this) ->
  rebuildSparseTree this = (this', Ok tt) ->
  js_get (tree this') 0 = Some lvl0 ->
  List.length (elements proof) = depth this' ->
  root this' = Ok (proof_root proof) ->
  validateProof proof = Ok true ->
  let i := Z.to_nat (indices proof mod 2 ^ Z.of_nat (depth this')) in
  js_get lvl0 i = Some (element proof) \/
  (js_get lvl0 i = None /\ element proof = zeroValue).
Proof.
  intros Hinj Hzs Hrun Hlvl Hlen Hroot Hvalid.
  destruct (rebuildSparseTree_Ok _ _ Hrun) as (Hd & Hz & _ & Hcons).
  rewrite <- Hd, <- Hz in Hzs.
  unfold validateProof in Hvalid.
  destruct (reduceProof _ _ _ _) as [final|] eqn:Hred; [|done].
  destruct (proof_root proof) as [r|] eqn:Hr; [|done].
  injection Hvalid as Hvalid. apply bool_decide_eq_true in Hvalid. subst final.
  by apply (reduceProof_sound this' lvl0 (indices proof) (element proof) r
              (elements proof)).
Qed.

(** X23: the root binds the leaves, for a hash without collisions.  If
    two trees of one depth have the same root after a finalize, the
    first within its capacity, then what the first holds at a position
    of its leaf level the second holds there too; or the second holds
    nothing there, and then the leaf of the first is the zero value. *)
Theorem root_binds_leaves (a b a' b' : t) (lvla lvlb : jsarray Hash) (i : nat) (v : Hash) :
  (forall x y z w : Hash, poseidon x y = poseidon z w -> x = z /\ y = w) ->
  getZeroValueLevels (depth b) = Ok (zeros b) ->
  depth a = depth b ->
  rebuildSparseTree a = (a', Ok tt) -> rebuildSparseTree b = (b', Ok tt) ->
  js_get (tree a') 0 = Some lvla -> js_get (tree b') 0 = Some lvlb ->
  List.length lvla <= 2 ^ depth a ->
  root a' = root b' ->
  js_get lvla i = Some v ->
  js_get lvlb i = Some v \/ (js_get lvlb i = None /\ v = zeroValue).
Proof.
  intros Hinj Hzs Hdepth Hra Hrb Hla Hlb Hcap Hroot Hv.
  destruct (rebuildSparseTree_Ok _ _ Hra) as (Hda & _ & _ & Hconsa).
  destruct (rebuildSparseTree_Ok _ _ Hrb) as (Hdb & Hzb & _ & Hconsb).
  rewrite <- Hdb, <- Hzb in Hzs.
  assert (Hi : i < 2 ^ depth a') by (rewrite Hda; apply js_get_lt in Hv; lia).
  destruct (siblings_path a' (depth a') 0 i v [] lvla Hconsa Hla Hv)
    as (sibs & final & top & _ & Hlen & _ & Hred & Htop & Hfinal).
  rewrite (Nat.div_small i) in Hfinal by done. simpl in Htop.
  assert (Hroota : root a' = Ok (Some final)).
  { unfold root. by rewrite Htop, Hfinal. }
  specialize (Hred (Z.of_nat i) 0).
  assert (Hrun : reduceProof (Z.of_nat i) 0 v sibs = Ok final).
  { apply Hred. intros k _. simpl. by rewrite bit_test_testbit, testbit_of_nat_odd. }
  assert (Hsame : depth a' = depth b') by congruence.
  pose proof (reduceProof_sound b' lvlb (Z.of_nat i) v final sibs Hinj Hzs Hconsb Hlb
                ltac:(congruence) ltac:(congruence) Hrun) as Hsound.
  cbv zeta in Hsound.
  rewrite Z.mod_small, Nat2Z.id in Hsound; [done|].
  split; [lia|]. rewrite <- Hsame. rewrite <- (Nat2Z.inj_pow 2). lia.
Qed.
End ProofFacts.

(** ** The trees that a pool leaves behind *)
Section PoolClosed.
Context `{HP : HashPrimitive}.
Import MerkleHelper.

Lemma createTree_treeNumber n d ft tr :
  MerkleTree.createTree n d ft = Ok tr ->
  MerkleTree.treeNumber tr = n /\ MerkleTree.depth tr = d.
Proof.
  unfold MerkleTree.createTree. intros Hrun.
  repeat case_match; try discriminate; by injection Hrun as <-.
Qed.

Lemma tree_insertLeaves_treeNumber (leaves : list Hash) s tr tr' r :
  MerkleTree.insertLeaves leaves s tr = (tr', r) ->
  MerkleTree.treeNumber tr' = MerkleTree.treeNumber tr.
Proof.
  unfold MerkleTree.insertLeaves. intros Hrun.
  repeat case_match; by injection Hrun as <- <-.
Qed.

Lemma rebuildSparseTree_treeNumber tr tr' r :
  MerkleTree.rebuildSparseTree tr = (tr', r) ->
  MerkleTree.treeNumber tr' = MerkleTree.treeNumber tr.
Proof.
  unfold MerkleTree.rebuildSparseTree.
  destruct (MerkleTree.rebuildLoop _ _ _ _). by intros [= <- <-].
Qed.

(** The three ways an insertion into the pool ends: the pool as it was;
    the leaves appended to the current tree; the current tree filled and
    finalized, and the rest in a new tree. *)
Lemma insertLeaves_cases p (leaves : list Hash) (s : Z) p' r :
  pool_inv p -> insertLeaves leaves s p = (p', r) ->
  p' = p \/
  (exists cur lvl0,
     currentTree p = Ok cur /\ js_get (MerkleTree.tree cur) 0 = Some lvl0 /\
     leaves <> [] /\ s = Z.of_nat (length lvl0) /\
     (Z.of_nat (length lvl0) + Z.of_nat (length leaves) <= maxLeaves p)%Z /\
     p' = with_trees p
            (<[currentTreeIndex p :=
                 MerkleTree.with_tree cur
                   (<[0 := Some (lvl0 ++ (Some <$> leaves))]> (MerkleTree.tree cur))]>
               (trees p))
            (currentTreeIndex p) /\
     r = Ok (currentTreeIndex p)) \/
  (exists cur lvl0 pre post cur2 nxt1 r0,
     currentTree p = Ok cur /\ js_get (MerkleTree.tree cur) 0 = Some lvl0 /\
     leaves = pre ++ post /\ pre <> [] /\ post <> [] /\
     s = Z.of_nat (length lvl0) /\
     (Z.of_nat (length lvl0) + Z.of_nat (length pre) = maxLeaves p)%Z /\
     js_get (MerkleTree.tree cur2) 0 = Some (lvl0 ++ (Some <$> pre)) /\
     MerkleTree.root cur2 = Ok (Some r0) /\ tree_inv (treeDepth p) cur2 /\
     consistent (MerkleTree.zeros cur2) (MerkleTree.tree cur2) 0 (MerkleTree.depth cur2) /\
     MerkleTree.treeNumber cur2 = MerkleTree.treeNumber cur /\
     MerkleTree.treeNumber nxt1 = length (trees p) /\
     js_get (MerkleTree.tree nxt1) 0 = Some (Some <$> post) /\
     MerkleTree.root nxt1 = Ok (Some r0) /\ tree_inv (treeDepth p) nxt1 /\
     p' = with_trees p (<[currentTreeIndex p := cur2]> (trees p) ++ [nxt1])
            (length (trees p)) /\
     r = Ok (length (trees p))).
Proof.
  intros Hinv Hrun.
  destruct leaves as [|leaf leaves].
  { injection Hrun as <- <-. by left. }
  destruct (decide (s < 0 \/ s >= maxLeaves p)%Z) as [Hbad|Hok].
  { rewrite insertLeaves_invalid in Hrun by done. injection Hrun as <- <-. by left. }
  destruct (pool_inv_current p Hinv) as (cur & Hcur & Hcurinv).
  pose proof Hcurinv as (_ & _ & lvl0 & Hlvl & Hdense).
  pose proof (currentLength_Ok p cur lvl0 Hcur Hlvl) as Hlen.
  destruct (decide (s = Z.of_nat (length lvl0))) as [->|Hne].
  2: { rewrite (insertLeaves_mismatch p _ _ (length lvl0)) in Hrun by (done || lia).
       injection Hrun as <- <-. by left. }
  destruct (decide (Z.of_nat (length lvl0) + Z.of_nat (length (leaf :: leaves))
                    <= maxLeaves p)%Z) as [Hfit|Hover].
  - rewrite (insertLeaves_fits p cur lvl0) in Hrun by done.
    injection Hrun as <- <-. right. left. exists cur, lvl0. by repeat split.
  - set (k := Z.to_nat (maxLeaves p - Z.of_nat (length lvl0))).
    assert (Hk : 0 < k <= length leaves) by (simpl in Hover; lia).
    rewrite <- (take_drop k (leaf :: leaves)) in Hrun.
    destruct (spill_steps p cur lvl0 (take k (leaf :: leaves)) (drop k (leaf :: leaves)))
      as (cur1 & cur2 & r0 & nxt0 & nxt1 & Hins & _ & Hreb & Hl2 & Hr2 & Hinv2 & Hnew
          & _ & _ & Hins1 & Hl1 & Hr1 & Hinv1 & Heq); try done.
    { intros Hnil. apply (f_equal length) in Hnil.
      rewrite length_take in Hnil. simpl in Hnil. lia. }
    { intros Hnil. apply (f_equal length) in Hnil.
      rewrite length_drop in Hnil. simpl in Hnil. lia. }
    { rewrite length_take. simpl length. lia. }
    rewrite Heq in Hrun. injection Hrun as <- <-. right. right.
    exists cur, lvl0, (take k (leaf :: leaves)), (drop k (leaf :: leaves)), cur2, nxt1, r0.
    split; [done|]. split; [done|]. split; [by rewrite take_drop|].
    split. { intros Hnil. apply (f_equal length) in Hnil.
             rewrite length_take in Hnil. simpl in Hnil. lia. }
    split. { intros Hnil. apply (f_equal length) in Hnil.
             rewrite length_drop in Hnil. simpl in Hnil. lia. }
    split; [done|].
    split. { rewrite length_take. simpl length. lia. }
    split; [done|]. split; [done|]. split; [done|].
    split. { by apply rebuildSparseTree_Ok in Hreb as (_ & _ & _ & Hcons). }
    split. { rewrite (rebuildSparseTree_treeNumber _ _ _ Hreb).
             apply (tree_insertLeaves_treeNumber _ _ _ _ _ Hins). }
    split. { rewrite (tree_insertLeaves_treeNumber _ _ _ _ _ Hins1).
             by apply createTree_treeNumber in Hnew as [? _]. }
    split; [done|]. split; [done|]. split; [done|]. by split.
Qed.

Lemma pool_closed_new d p : new d = Ok p -> pool_closed p.
Proof.
  unfold new. destruct (MerkleTree.createTree 0 d None) as [tr0|] eqn:Hcreate; [|done].
  intros [= <-] i tr Hi. simpl in *.
  destruct i as [|i]; [|by destruct i]. injection Hi as <-.
  split; [by apply createTree_treeNumber in Hcreate as [? _] | lia].
Qed.

Lemma pool_closed_update p tr cur :
  pool_closed p -> currentTree p = Ok cur ->
  MerkleTree.treeNumber tr = MerkleTree.treeNumber cur ->
  pool_closed (with_trees p (<[currentTreeIndex p := tr]> (trees p)) (currentTreeIndex p)).
Proof.
  intros Hclosed Hcur Hnum i tr' Hi. simpl in *.
  apply currentTree_Ok in Hcur.
  destruct (decide (i = currentTreeIndex p)) as [->|Hne].
  - rewrite list_lookup_insert_eq in Hi by (by eapply lookup_lt_Some).
    injection Hi as <-. split; [|lia]. rewrite Hnum. by apply (Hclosed _ _ Hcur).
  - rewrite list_lookup_insert_ne in Hi by done. by apply Hclosed.
Qed.

Lemma reachable_pool_closed p : reachable p -> pool_closed p.
Proof.
  induction 1 as [d p Hnew | p p' leaves s r Hreach IH Hrun | p p' r Hreach IH Hrun].
  - by apply (pool_closed_new d).
  - pose proof (reachable_inv p Hreach) as Hinv.
    destruct (insertLeaves_cases p leaves s p' r Hinv Hrun)
      as [-> | [(cur & lvl0 & Hcur & Hlvl & _ & _ & _ & -> & _)
               | (cur & lvl0 & pre & post & cur2 & nxt1 & r0 & Hcur & Hlvl & _ & _ & _ & _
                  & Hfull & Hl2 & Hr2 & Hinv2 & Hcons2 & Hn2 & Hn1 & _ & _ & _ & -> & _)]].
    + done.
    + by apply (pool_closed_update p _ cur).
    + intros i tr Hi. simpl in *.
      pose proof Hinv as (_ & _ & Hidx & _).
      apply currentTree_Ok in Hcur. pose proof (lookup_lt_Some _ _ _ Hcur) as Hlt.
      destruct (decide (i < length (trees p))) as [Hi'|Hi'].
      * rewrite lookup_app_l in Hi by (by rewrite length_insert).
        destruct (decide (i = currentTreeIndex p)) as [->|Hne].
        -- rewrite list_lookup_insert_eq in Hi by done. injection Hi as <-.
           split; [rewrite Hn2; by apply (IH _ _ Hcur)|]. intros _.
           split; [done|]. exists (lvl0 ++ (Some <$> pre)), r0.
           split; [done|]. split.
           { destruct Hinv2 as (_ & _ & l & Hl & Hdense). congruence. }
           split; [|done]. rewrite length_app, length_fmap. lia.
        -- rewrite list_lookup_insert_ne in Hi by done.
           destruct (IH i tr Hi) as [Hnum Hcl]. split; [done|]. intros _.
           apply Hcl. lia.
      * rewrite lookup_app_r in Hi by (rewrite length_insert; lia).
        rewrite length_insert in Hi.
        destruct (i - length (trees p)) as [|j] eqn:Hj; [|by destruct j].
        injection Hi as <-. split; [lia | lia].
  - pose proof (reachable_inv p Hreach) as Hinv.
    destruct (pool_inv_current p Hinv) as (cur & Hcur & Hcurinv).
    destruct (rebuildSparseTree_inv _ cur Hcurinv) as (cur' & Hreb & _ & Hnum & _).
    unfold finalizeTree in Hrun.
    rewrite (onCurrentTree_run _ p cur cur' (Ok tt) Hcur Hreb) in Hrun.
    injection Hrun as <- <-. by apply (pool_closed_update p _ cur).
Qed.

(** X16: the trees of a pool that the constructor and the pool's
    methods made.  The tree at index [i] has number [i].  Every tree
    before the current one holds exactly [maxLeaves] leaves, none
    undefined, has the interior that a finalize computes from them, and
    a root: nothing that is inserted later reaches it. *)
Theorem reachable_closed p i tr :
  reachable p -> trees p !! i = Some tr ->
  MerkleTree.treeNumber tr = i /\
  (i < currentTreeIndex p ->
   consistent (MerkleTree.zeros tr) (MerkleTree.tree tr) 0 (MerkleTree.depth tr) /\
   exists lvl0 r,
     js_get (MerkleTree.tree tr) 0 = Some lvl0 /\ Forall is_Some lvl0 /\
     Z.of_nat (length lvl0) = maxLeaves p /\ MerkleTree.root tr = Ok (Some r)).
Proof. intros Hreach. by apply reachable_pool_closed. Qed.
End PoolClosed.

(** ** The pool: constructor, getters, insertion, search and finalize *)
Section PoolMore.
Context `{HP : HashPrimitive}.
Import MerkleHelper.

(** X12: the pool as the constructor makes it, for a depth of 1 or
    more: one empty tree, capacity [2 ^ treeDepth], and as root the
    entry that continues the zero chain.  No element has a proof: with
    the index 0 the not-found error of the tree is raised, without an
    index the error of the search. *)
Theorem new_pool (d : nat) (e : Hash) :
  0 < d ->
  exists p tr r,
    new d = Ok p /\ trees p = [tr] /\ currentTreeIndex p = 0 /\
    maxLeaves p = (2 ^ Z.of_nat d)%Z /\ currentLength p = Ok 0 /\
    depth p = Ok d /\ root p = Ok (Some r) /\ roots p = Ok [Some r] /\
    (forall zs, MerkleTree.getZeroValueLevels (S d) = Ok zs -> zs !! d = Some r) /\
    generateProof p e (Some 0%Z) = Throw ElementNotFound /\
    generateProof p e None = Throw ElementNotFoundInAnyTree.
Proof.
  intros Hd.
  destruct (createTree_fresh 0 d Hd) as (zs & z & zs1 & _ & _ & Hcreate & Hzs1 & Hr & _).
  remember {| MerkleTree.treeNumber := 0; MerkleTree.depth := d;
              MerkleTree.zeros := zs;
              MerkleTree.tree := fresh_levels d (poseidon z z);
              MerkleTree.nullifiers := [] |} as tr eqn:Htr.
  assert (Hlvl : js_get (MerkleTree.tree tr) 0 = Some [])
    by (rewrite Htr; simpl; by apply fresh_levels_get_lt).
  assert (Hroot : MerkleTree.root tr = Ok (Some (poseidon z z))).
  { rewrite Htr. unfold MerkleTree.root. simpl. by rewrite fresh_levels_get_top. }
  assert (Hgen : MerkleTree.generateProof tr e = Throw ElementNotFound).
  { unfold MerkleTree.generateProof. by rewrite Hlvl. }
  assert (Hdepth : MerkleTree.depth tr = d) by (by rewrite Htr).
  unfold new. rewrite Hcreate. eexists _, tr, (poseidon z z). split; [done|].
  unfold currentLength, depth, root, roots, currentTree, generateProof. simpl.
  rewrite Hroot, Hgen, Hdepth. unfold MerkleTree.length. rewrite Hlvl.
  do 7 (split; [done|]). split; [|done].
  intros zs' Hzs'. congruence.
Qed.

Lemma tree_root_insert_0 (tr : MerkleTree.t) (lvl : jsarray Hash) :
  0 < MerkleTree.depth tr ->
  MerkleTree.root (MerkleTree.with_tree tr (<[0 := Some lvl]> (MerkleTree.tree tr))) =
  MerkleTree.root tr.
Proof.
  intros Hd. unfold MerkleTree.root, MerkleTree.with_tree.
  cbn [MerkleTree.tree MerkleTree.depth].
  rewrite js_get_insert_0_ne by lia. done.
Qed.

Lemma rootsOf_insert (ts : list MerkleTree.t) : forall i tr tr',
  ts !! i = Some tr -> MerkleTree.root tr' = MerkleTree.root tr ->
  rootsOf (<[i := tr']> ts) = rootsOf ts.
Proof.
  induction ts as [|t0 ts IH]; intros i tr tr' Hi Hroot; [done|].
  destruct i as [|i]; simpl in *.
  - injection Hi as ->. by rewrite Hroot.
  - by rewrite (IH i tr tr').
Qed.

Lemma rootsOf_Ok (ts : list MerkleTree.t) :
  Forall (fun tr => exists r, MerkleTree.root tr = Ok r) ts ->
  exists rs, rootsOf ts = Ok rs /\ length rs = length ts /\
    forall i tr, ts !! i = Some tr ->
      exists r, MerkleTree.root tr = Ok r /\ rs !! i = Some r.
Proof.
  induction 1 as [|tr ts [r Hr] _ (rs & Hrs & Hlen & Hall)].
  - by exists [].
  - exists (r :: rs). simpl. rewrite Hr, Hrs. split; [done|]. split; [by rewrite Hlen|].
    intros i tr' Hi. destruct i as [|i]; [injection Hi as <-; by exists r|].
    by apply Hall.
Qed.

(** Every tree of a pool has its root level. *)
Lemma reachable_roots_defined p :
  reachable p -> Forall (fun tr => exists r, MerkleTree.root tr = Ok r) (trees p).
Proof.
  induction 1 as [d p Hnew | p p' leaves s r Hreach IH Hrun | p p' r Hreach IH Hrun].
  - destruct d as [|d]; [by rewrite new_depth_0 in Hnew|].
    destruct (createTree_fresh 0 (S d)) as (zs & z & zs1 & _ & _ & Hcreate & _); [lia|].
    unfold new in Hnew. rewrite Hcreate in Hnew. injection Hnew as <-. simpl.
    constructor; [|done]. exists (Some (poseidon z z)).
    unfold MerkleTree.root. simpl MerkleTree.tree. simpl MerkleTree.depth.
    by rewrite fresh_levels_get_top.
  - pose proof (reachable_inv p Hreach) as Hinv.
    pose proof Hinv as (Hd & _ & _ & Hall).
    destruct (insertLeaves_cases p leaves s p' r Hinv Hrun)
      as [-> | [(cur & lvl0 & Hcur & Hlvl & _ & _ & _ & -> & _)
               | (cur & lvl0 & pre & post & cur2 & nxt1 & r0 & Hcur & _ & _ & _ & _ & _
                  & _ & _ & Hr2 & _ & _ & _ & _ & _ & Hr1 & _ & -> & _)]].
    + done.
    + simpl. apply Forall_insert; [done|].
      apply currentTree_Ok in Hcur.
      pose proof (Forall_lookup_1 _ _ _ _ Hall Hcur) as (Hdcur & _).
      rewrite tree_root_insert_0 by lia.
      by apply (Forall_lookup_1 _ _ _ _ IH Hcur).
    + simpl. apply Forall_app. split.
      * apply Forall_insert; [done | by eexists].
      * constructor; [by eexists | done].
  - pose proof (reachable_inv p Hreach) as Hinv.
    pose proof Hinv as (Hd & _ & _ & Hall).
    destruct (pool_inv_current p Hinv) as (cur & Hcur & Hcurinv).
    destruct (rebuildSparseTree_inv _ cur Hcurinv) as (cur' & Hreb & _).
    unfold finalizeTree in Hrun.
    rewrite (onCurrentTree_run _ p cur cur' (Ok tt) Hcur Hreb) in Hrun.
    injection Hrun as <- <-. simpl. apply Forall_insert; [done|].
    apply rebuildSparseTree_Ok in Hreb as (Hdepth & _ & _ & Hcons).
    destruct Hcurinv as (Hdcur & _).
    destruct (Hcons (MerkleTree.depth cur' - 1)) as (c & n & _ & Hn & _); [lia|].
    replace (S (MerkleTree.depth cur' - 1)) with (MerkleTree.depth cur') in Hn by lia.
    unfold MerkleTree.root. rewrite Hn. by eexists.
Qed.

(** X13: the getters of a pool that the constructor and the pool's
    methods made.  There is a current tree, the last one, so
    [currentTree], [root] and [depth] never raise; [depth] is the depth
    the pool was made with; [roots] has one entry for each tree, the
    entry of the current tree being [root]. *)
Theorem reachable_getters p :
  reachable p ->
  exists cur r rs,
    S (currentTreeIndex p) = length (trees p) /\
    currentTree p = Ok cur /\ depth p = Ok (treeDepth p) /\
    maxLeaves p = (2 ^ Z.of_nat (treeDepth p))%Z /\
    root p = Ok r /\ roots p = Ok rs /\ length rs = length (trees p) /\
    rs !! currentTreeIndex p = Some r.
Proof.
  intros Hreach.
  pose proof (reachable_inv p Hreach) as Hinv.
  pose proof Hinv as (Hd & Hmax & Hidx & Hall).
  destruct (pool_inv_current p Hinv) as (cur & Hcur & Hdcur & _).
  destruct (rootsOf_Ok _ (reachable_roots_defined p Hreach)) as (rs & Hrs & Hlen & Hrsall).
  apply currentTree_Ok in Hcur as Hlook.
  destruct (Hrsall _ _ Hlook) as (r & Hr & Hri).
  exists cur, r, rs. unfold depth, root. rewrite Hcur, Hdcur. by repeat split.
Qed.

(** A pool whose current tree holds [maxLeaves] leaves or more rejects
    every insertion of a leaf. *)
Lemma insertLeaves_at_capacity p len (leaves : list Hash) (s : Z) :
  currentLength p = Ok len -> (maxLeaves p <= Z.of_nat len)%Z -> leaves <> [] ->
  insertLeaves leaves s p =
    (p, Throw (if decide (s < 0 \/ s >= maxLeaves p)%Z
               then InvalidStartPosition else StartPositionMismatch)).
Proof.
  intros Hlen Hfull Hne. case_decide as Hs.
  - by apply insertLeaves_invalid.
  - apply (insertLeaves_mismatch p leaves s len); [done | lia | done | lia].
Qed.

(** X14: an insertion that the current tree has room for.  The leaves
    are appended to the current tree, the index and the number of trees
    stay, and so do all the roots: the interior and the root of the
    current tree are not brought up to date before the next finalize. *)
Theorem insertLeaves_keeps_roots p cur lvl0 (leaves : list Hash) :
  reachable p ->
  currentTree p = Ok cur -> js_get (MerkleTree.tree cur) 0 = Some lvl0 ->
  leaves <> [] ->
  (Z.of_nat (length lvl0) + Z.of_nat (length leaves) <= maxLeaves p)%Z ->
  exists p' cur',
    insertLeaves leaves (Z.of_nat (length lvl0)) p = (p', Ok (currentTreeIndex p)) /\
    currentTreeIndex p' = currentTreeIndex p /\
    length (trees p') = length (trees p) /\
    (forall i, i <> currentTreeIndex p -> trees p' !! i = trees p !! i) /\
    currentTree p' = Ok cur' /\
    js_get (MerkleTree.tree cur') 0 = Some (lvl0 ++ (Some <$> leaves)) /\
    (forall k, 0 < k -> js_get (MerkleTree.tree cur') k = js_get (MerkleTree.tree cur) k) /\
    roots p' = roots p /\ root p' = root p.
Proof.
  intros Hreach Hcur Hlvl Hne Hfit.
  pose proof (reachable_inv p Hreach) as (Hd & Hmax & Hidx & Hall).
  eexists _, _. split; [by apply (insertLeaves_fits p cur lvl0)|].
  set (cur' := MerkleTree.with_tree cur _).
  pose proof Hcur as Hcur0. apply currentTree_Ok in Hcur0.
  pose proof (lookup_lt_Some _ _ _ Hcur0) as Hlt.
  pose proof (Forall_lookup_1 _ _ _ _ Hall Hcur0) as (Hdepth & _).
  assert (Hroot : MerkleTree.root cur' = MerkleTree.root cur)
    by (apply tree_root_insert_0; lia).
  split; [done|]. split; [simpl; by rewrite length_insert|].
  split; [intros i Hi; simpl; by rewrite list_lookup_insert_ne|].
  assert (Hcur' : currentTree
            (with_trees p (<[currentTreeIndex p := cur']> (trees p)) (currentTreeIndex p))
          = Ok cur').
  { apply currentTree_Ok. simpl. by apply list_lookup_insert_eq. }
  split; [exact Hcur'|].
  split. { unfold cur', MerkleTree.with_tree. cbn [MerkleTree.tree].
           by apply (js_get_insert_0 _ _ lvl0). }
  split. { intros k Hk. unfold cur', MerkleTree.with_tree. cbn [MerkleTree.tree].
           apply js_get_insert_0_ne. lia. }
  split.
  - unfold roots. simpl. by apply (rootsOf_insert _ _ cur).
  - unfold root. rewrite Hcur', Hcur. done.
Qed.

(** X15: an insertion that fills the current tree exactly.  It goes to
    the current tree and makes no new tree; and from then on the pool
    rejects every insertion of a leaf, whatever the start position: the
    length of the current tree is not a valid start position, and no
    other position matches it. *)
Theorem insertLeaves_exact_fill p cur lvl0 (leaves : list Hash) :
  reachable p ->
  currentTree p = Ok cur -> js_get (MerkleTree.tree cur) 0 = Some lvl0 ->
  leaves <> [] ->
  (Z.of_nat (length lvl0) + Z.of_nat (length leaves) = maxLeaves p)%Z ->
  exists p',
    insertLeaves leaves (Z.of_nat (length lvl0)) p = (p', Ok (currentTreeIndex p)) /\
    length (trees p') = length (trees p) /\
    currentLength p' = Ok (length lvl0 + length leaves) /\
    forall (leaves' : list Hash) (s : Z), leaves' <> [] ->
      insertLeaves leaves' s p' =
        (p', Throw (if decide (s < 0 \/ s >= maxLeaves p)%Z
                    then InvalidStartPosition else StartPositionMismatch)).
Proof.
  intros Hreach Hcur Hlvl Hne Hfill.
  eexists. split; [apply (insertLeaves_fits p cur lvl0); (done || lia)|].
  set (cur' := MerkleTree.with_tree cur _).
  pose proof Hcur as Hcur0. apply currentTree_Ok in Hcur0.
  pose proof (lookup_lt_Some _ _ _ Hcur0) as Hlt.
  assert (Hcur' : currentTree
            (with_trees p (<[currentTreeIndex p := cur']> (trees p)) (currentTreeIndex p))
          = Ok cur').
  { apply currentTree_Ok. simpl. by apply list_lookup_insert_eq. }
  assert (Hlen' : currentLength
            (with_trees p (<[currentTreeIndex p := cur']> (trees p)) (currentTreeIndex p))
          = Ok (length lvl0 + length leaves)).
  { rewrite (currentLength_Ok _ cur' (lvl0 ++ (Some <$> leaves)) Hcur').
    - by rewrite length_app, length_fmap.
    - unfold cur', MerkleTree.with_tree. cbn [MerkleTree.tree].
      by apply (js_get_insert_0 _ _ lvl0). }
  split; [simpl; by rewrite length_insert|]. split; [done|].
  intros leaves' s Hne'.
  assert (Hfull : (maxLeaves (with_trees p (<[currentTreeIndex p := cur']> (trees p))
                                (currentTreeIndex p))
                   <= Z.of_nat (length lvl0 + length leaves))%Z) by (simpl; lia).
  exact (insertLeaves_at_capacity _ _ leaves' s Hlen' Hfull Hne').
Qed.

Lemma searchTrees_Ok (ts : list MerkleTree.t) (e : Hash) : forall k proof j,
  searchTrees ts k e = Ok (proof, j) <->
  exists i tr, j = k + i /\ ts !! i = Some tr /\
    MerkleTree.generateProof tr e = Ok proof /\
    forall i' tr', i' < i -> ts !! i' = Some tr' ->
      exists err, MerkleTree.generateProof tr' e = Throw err.
Proof.
  induction ts as [|t0 ts IH]; intros k proof j; simpl.
  - split; [done|]. by intros (i & tr & _ & Hi & _).
  - destruct (MerkleTree.generateProof t0 e) as [pf|err] eqn:Hgen.
    + split.
      * intros [= <- <-]. exists 0, t0. split; [lia|]. split; [done|].
        split; [done|]. intros i' tr' Hi'. lia.
      * intros (i & tr & -> & Hi & Hpf & Hbefore). destruct i as [|i].
        -- injection Hi as <-. rewrite Hgen in Hpf. injection Hpf as <-.
           by rewrite Nat.add_0_r.
        -- destruct (Hbefore 0 t0) as [err Herr]; [lia | done | congruence].
    + rewrite IH. split.
      * intros (i & tr & -> & Hi & Hpf & Hbefore). exists (S i), tr.
        split; [lia|]. split; [done|]. split; [done|].
        intros i' tr' Hi' Hlook. destruct i' as [|i'].
        -- injection Hlook as <-. by exists err.
        -- apply (Hbefore i'); [lia | done].
      * intros (i & tr & -> & Hi & Hpf & Hbefore). destruct i as [|i].
        -- injection Hi as <-. congruence.
        -- exists i, tr. split; [lia|]. split; [done|]. split; [done|].
           intros i' tr' Hi' Hlook. apply (Hbefore (S i')); [lia | done].
Qed.

Lemma searchTrees_Throw (ts : list MerkleTree.t) (e : Hash) : forall k err,
  searchTrees ts k e = Throw err <->
  err = ElementNotFoundInAnyTree /\
  forall i tr, ts !! i = Some tr ->
    exists err', MerkleTree.generateProof tr e = Throw err'.
Proof.
  induction ts as [|t0 ts IH]; intros k err; simpl.
  - split; [intros [= <-]; by split | intros [-> _]; done].
  - destruct (MerkleTree.generateProof t0 e) as [pf|err0] eqn:Hgen.
    + split; [done|]. intros [_ Hall].
      destruct (Hall 0 t0 eq_refl) as [err' Herr']. congruence.
    + rewrite IH. split; intros [-> Hall]; (split; [done|]).
      * intros i tr Hi. destruct i as [|i]; [injection Hi as <-; by exists err0|].
        by apply (Hall i).
      * intros i tr Hi. by apply (Hall (S i)).
Qed.

(** X17: [generateProof] of the pool without a tree index, or with an
    index that names no tree.  It returns the proof of the first tree
    whose own [generateProof] returns one, with the index of that tree.
    An exception of a tree, whatever it is, is taken as not found, and
    the only exception that leaves the search is the one raised when
    every tree raised. *)
Theorem generateProof_search p (e : Hash) (treeIndex : option Z) :
  (forall i, treeIndex = Some i -> (i < 0 \/ Z.of_nat (length (trees p)) <= i)%Z) ->
  (forall proof j,
     generateProof p e treeIndex = Ok (proof, j) <->
     exists tr, trees p !! j = Some tr /\ MerkleTree.generateProof tr e = Ok proof /\
       forall j' tr', j' < j -> trees p !! j' = Some tr' ->
         exists err, MerkleTree.generateProof tr' e = Throw err) /\
  (forall err,
     generateProof p e treeIndex = Throw err <->
     err = ElementNotFoundInAnyTree /\
     forall j tr, trees p !! j = Some tr ->
       exists err', MerkleTree.generateProof tr e = Throw err').
Proof.
  intros Hidx.
  assert (Hgen : generateProof p e treeIndex = searchTrees (trees p) 0 e).
  { unfold generateProof. destruct treeIndex as [i|]; [|done].
    destruct (Hidx i eq_refl) as [Hneg|Hbig].
    - by rewrite decide_False by lia.
    - case_decide; [|done]. by rewrite lookup_ge_None_2 by lia. }
  rewrite Hgen. split.
  - intros proof j. rewrite searchTrees_Ok. split.
    + intros (i & tr & -> & Hrest). by exists tr.
    + intros (tr & Hrest). by exists j, tr.
  - intros err. apply searchTrees_Throw.
Qed.

Lemma searchTrees_finds (ts : list MerkleTree.t) (e : Hash) : forall k i tr pf,
  ts !! i = Some tr -> MerkleTree.generateProof tr e = Ok pf ->
  exists proof j tr',
    searchTrees ts k e = Ok (proof, k + j) /\ j <= i /\
    ts !! j = Some tr' /\ MerkleTree.generateProof tr' e = Ok proof.
Proof.
  induction ts as [|t0 ts IH]; intros k i tr pf Hi Hpf; [done|]. simpl.
  destruct (MerkleTree.generateProof t0 e) as [pf0|err] eqn:Hgen.
  - exists pf0, 0, t0. rewrite Nat.add_0_r. repeat split; (done || lia).
  - destruct i as [|i]; [injection Hi as <-; congruence|].
    destruct (IH (S k) i tr pf Hi Hpf) as (proof & j & tr' & Hrun & Hj & Hlook & Hgen').
    exists proof, (S j), tr'. replace (k + S j) with (S k + j) by lia.
    repeat split; (done || lia).
Qed.

(** A proof from a tree that the pool has left behind validates. *)
Lemma closed_round_trip p i tr (e : Hash) proof :
  reachable p -> i < currentTreeIndex p -> trees p !! i = Some tr ->
  MerkleTree.generateProof tr e = Ok proof ->
  MerkleTree.validateProof proof = Ok true.
Proof.
  intros Hreach Hi Hlook Hgen.
  pose proof (reachable_inv p Hreach) as (Hd & Hmax & Hidx & Hall).
  pose proof (Forall_lookup_1 _ _ _ _ Hall Hlook) as (Hdepth & _).
  destruct (reachable_pool_closed p Hreach i tr Hlook) as [_ Hclosed].
  destruct (Hclosed Hi) as (Hcons & lvl0 & r & Hlvl & Hdense & Hlen & Hroot).
  destruct (generateProof_Ok tr lvl0 e proof Hlvl Hgen) as (_ & _ & _ & i0 & _ & Hin & _).
  destruct (consistent_round_trip tr lvl0 e Hcons Hlvl) as (proof' & Hgen' & _ & _ & Hvalid).
  - rewrite Hdepth. apply Nat2Z.inj_le. rewrite Nat2Z.inj_pow. simpl. lia.
  - apply js_get_Some in Hin. by eapply list_elem_of_In, list_elem_of_lookup_2.
  - congruence.
Qed.

(** X18: proofs of the trees that the pool has left behind.  For an
    element of a tree before the current one, [generateProof] with the
    index of that tree returns a proof that validates, against the root
    of that tree; without an index it returns a proof that validates
    too, from that tree or from an earlier one that holds the element. *)
Theorem generateProof_closed_tree p i tr lvl0 (e : Hash) :
  reachable p -> i < currentTreeIndex p -> trees p !! i = Some tr ->
  js_get (MerkleTree.tree tr) 0 = Some lvl0 -> In (Some e) lvl0 ->
  (exists proof,
     generateProof p e (Some (Z.of_nat i)) = Ok (proof, i) /\
     MerkleTree.validateProof proof = Ok true /\
     MerkleTree.root tr = Ok (MerkleTree.proof_root proof)) /\
  (exists proof j,
     generateProof p e None = Ok (proof, j) /\ j <= i /\
     MerkleTree.validateProof proof = Ok true).
Proof.
  intros Hreach Hi Hlook Hlvl Hin.
  pose proof (reachable_inv p Hreach) as (Hd & Hmax & Hidx & Hall).
  pose proof (Forall_lookup_1 _ _ _ _ Hall Hlook) as (Hdepth & _).
  destruct (reachable_pool_closed p Hreach i tr Hlook) as [_ Hclosed].
  destruct (Hclosed Hi) as (Hcons & lvl0' & r & Hlvl' & Hdense & Hlen & Hroot).
  rewrite Hlvl in Hlvl'. injection Hlvl' as <-.
  destruct (consistent_round_trip tr lvl0 e Hcons Hlvl) as (proof & Hgen & _ & _ & Hvalid);
    [|done|].
  { rewrite Hdepth. apply Nat2Z.inj_le. rewrite Nat2Z.inj_pow. simpl. lia. }
  split.
  - exists proof. unfold generateProof. rewrite decide_True by lia.
    rewrite Nat2Z.id, Hlook, Hgen. split; [done|]. split; [done|].
    by destruct (generateProof_Ok tr lvl0 e proof Hlvl Hgen) as (_ & _ & ? & _).
  - destruct (searchTrees_finds (trees p) e 0 i tr proof Hlook Hgen)
      as (proof' & j & tr' & Hrun & Hj & Hlook' & Hgen').
    exists proof', j. split; [done|]. split; [done|].
    apply (closed_round_trip p j tr' e); (done || lia).
Qed.

(** [finalizeTree] on a pool, step by step. *)
Lemma finalizeTree_run p cur :
  reachable p -> currentTree p = Ok cur ->
  exists cur',
    MerkleTree.rebuildSparseTree cur = (cur', Ok tt) /\
    js_get (MerkleTree.tree cur') 0 = js_get (MerkleTree.tree cur) 0 /\
    finalizeTree p =
      (with_trees p (<[currentTreeIndex p := cur']> (trees p)) (currentTreeIndex p),
       Ok tt) /\
    currentTree
      (with_trees p (<[currentTreeIndex p := cur']> (trees p)) (currentTreeIndex p))
    = Ok cur'.
Proof.
  intros Hreach Hcur.
  pose proof (reachable_inv p Hreach) as Hinv.
  destruct (pool_inv_current p Hinv) as (cur0 & Hcur0 & Hcurinv).
  rewrite Hcur in Hcur0. injection Hcur0 as <-.
  destruct (rebuildSparseTree_inv _ cur Hcurinv) as (cur' & Hreb & _ & _ & Hleaves).
  exists cur'. split; [done|]. split; [done|]. split.
  - unfold finalizeTree. by rewrite (onCurrentTree_run _ p cur cur' (Ok tt) Hcur Hreb).
  - apply currentTree_Ok. simpl. apply list_lookup_insert_eq.
    apply currentTree_Ok in Hcur. by eapply lookup_lt_Some.
Qed.

(** X19: [finalizeTree] on a pool.  It raises nothing, touches no tree
    but the current one and keeps the leaves of that one, and a second
    [finalizeTree] changes nothing. *)
Theorem finalizeTree_pool p p' r :
  reachable p -> finalizeTree p = (p', r) ->
  r = Ok tt /\
  currentTreeIndex p' = currentTreeIndex p /\
  length (trees p') = length (trees p) /\
  (forall i, i <> currentTreeIndex p -> trees p' !! i = trees p !! i) /\
  (exists cur cur', currentTree p = Ok cur /\ currentTree p' = Ok cur' /\
     MerkleTree.rebuildSparseTree cur = (cur', Ok tt) /\
     js_get (MerkleTree.tree cur') 0 = js_get (MerkleTree.tree cur) 0) /\
  finalizeTree p' = (p', Ok tt).
Proof.
  intros Hreach Hrun.
  destruct (pool_inv_current p (reachable_inv p Hreach)) as (cur & Hcur & _).
  destruct (finalizeTree_run p cur Hreach Hcur) as (cur' & Hreb & Hleaves & Hfin & Hcur').
  rewrite Hfin in Hrun. injection Hrun as <- <-.
  split; [done|]. split; [done|]. split; [simpl; by rewrite length_insert|].
  split; [intros i Hi; simpl; by rewrite list_lookup_insert_ne|].
  split; [by exists cur, cur'|].
  unfold finalizeTree.
  apply rebuildSparseTree_Ok in Hreb as (_ & _ & _ & Hcons).
  rewrite (onCurrentTree_run _ _ cur' cur' (Ok tt) Hcur'
             (rebuildSparseTree_consistent _ Hcons)).
  simpl. by rewrite list_insert_insert_eq.
Qed.

(** X20: the use the pool is made for.  After [finalizeTree], for every
    element of the current tree, if that tree holds no more than
    [maxLeaves] leaves, [generateProof] with the current index returns a
    proof that validates, and the root of the proof is the root of the
    pool. *)
Theorem finalizeTree_then_proof p p' r cur lvl0 (e : Hash) :
  reachable p -> finalizeTree p = (p', r) ->
  currentTree p = Ok cur -> js_get (MerkleTree.tree cur) 0 = Some lvl0 ->
  (Z.of_nat (length lvl0) <= maxLeaves p)%Z -> In (Some e) lvl0 ->
  exists proof,
    generateProof p' e (Some (Z.of_nat (currentTreeIndex p'))) =
      Ok (proof, currentTreeIndex p') /\
    MerkleTree.validateProof proof = Ok true /\
    root p' = Ok (MerkleTree.proof_root proof).
Proof.
  intros Hreach Hrun Hcur Hlvl Hfit Hin.
  pose proof (reachable_inv p Hreach) as (Hd & Hmax & Hidx & Hall).
  destruct (finalizeTree_run p cur Hreach Hcur) as (cur' & Hreb & Hleaves & Hfin & Hcur').
  rewrite Hfin in Hrun. injection Hrun as <- <-.
  apply rebuildSparseTree_Ok in Hreb as (Hdepth & _ & _ & Hcons).
  rewrite Hlvl in Hleaves.
  pose proof Hcur as Hlook. apply currentTree_Ok in Hlook.
  pose proof (Forall_lookup_1 _ _ _ _ Hall Hlook) as (Hdcur & _).
  destruct (consistent_round_trip cur' lvl0 e Hcons Hleaves)
    as (proof & Hgen & _ & _ & Hvalid); [|done|].
  { rewrite Hdepth, Hdcur. apply Nat2Z.inj_le. rewrite Nat2Z.inj_pow. simpl. lia. }
  exists proof. unfold generateProof, root. rewrite decide_True by lia.
  rewrite Nat2Z.id. apply currentTree_Ok in Hcur' as Hlook'.
  rewrite Hlook', Hgen, Hcur'.
  split; [done|]. split; [done|].
  by destruct (generateProof_Ok cur' lvl0 e proof Hleaves Hgen) as (_ & _ & ? & _).
Qed.
(** X24: what a call of the pool never does.  No insertion and no
    finalize takes a tree away, lowers the current index, or changes a
    tree before the current one. *)
Theorem earlier_trees_kept p p' :
  reachable p ->
  (exists (leaves : list Hash) s r, insertLeaves leaves s p = (p', r)) \/
  (exists r, finalizeTree p = (p', r)) ->
  currentTreeIndex p <= currentTreeIndex p' /\
  length (trees p) <= length (trees p') /\
  forall i, i < currentTreeIndex p -> trees p' !! i = trees p !! i.
Proof.
  intros Hreach Hcall.
  pose proof (reachable_inv p Hreach) as Hinv.
  pose proof Hinv as (_ & _ & Hidx & _).
  destruct Hcall as [(leaves & s & r & Hrun) | (r & Hrun)].
  - destruct (insertLeaves_cases p leaves s p' r Hinv Hrun)
      as [-> | [(cur & lvl0 & _ & _ & _ & _ & _ & -> & _)
               | (cur & lvl0 & pre & post & cur2 & nxt1 & r0 & _ & _ & _ & _ & _ & _
                  & _ & _ & _ & _ & _ & _ & _ & _ & _ & _ & -> & _)]].
    + done.
    + simpl. rewrite length_insert. split; [done|]. split; [done|].
      intros i Hi. apply list_lookup_insert_ne. lia.
    + simpl. rewrite length_app, length_insert. simpl.
      split; [lia|]. split; [lia|]. intros i Hi.
      rewrite lookup_app_l by (rewrite length_insert; lia).
      apply list_lookup_insert_ne. lia.
  - destruct (pool_inv_current p Hinv) as (cur & Hcur & _).
    destruct (finalizeTree_run p cur Hreach Hcur) as (cur' & _ & _ & Hfin & _).
    rewrite Hfin in Hrun. injection Hrun as <- <-. simpl. rewrite length_insert.
    split; [done|]. split; [done|]. intros i Hi. apply list_lookup_insert_ne. lia.
Qed.
End PoolMore.

(** ** The pools of the manager *)
Section ManagerPools.
Context `{HP : HashPrimitive}.
Import MerkleManager.

Lemma run_call_pools (c : call) (m : t) :
  utxo (run_call c m) = utxo m /\
  (reachable (txid m) -> reachable (txid (run_call c m))) /\
  ((forall leaves s, c <> DoInsertTXIDLeaves leaves s) -> txid (run_call c m) = txid m).
Proof.
  destruct c as [n|n|leaves s]; simpl.
  - unfold insertNullifier. by case_decide.
  - done.
  - unfold insertTXIDLeaves.
    destruct (MerkleHelper.insertLeaves leaves s (txid m)) as [x r] eqn:Hrun. simpl.
    split; [done|]. split.
    + intros Hreach. by apply (reachable_insertLeaves (txid m) x leaves s r).
    + intros Hnot. by destruct (Hnot leaves s).
Qed.

(** X21: what the calls of the manager do to its pools.  No sequence of
    calls changes the UTXO pool: the manager has no method that inserts
    into it.  The TXID pool changes by [insertTXIDLeaves] only, and
    stays a pool that the constructor and the pool's own methods could
    have made. *)
Theorem manager_pools (cs : list call) (m : t) :
  utxo (run_calls cs m) = utxo m /\
  (reachable (txid m) -> reachable (txid (run_calls cs m))) /\
  ((forall leaves s, ~ In (DoInsertTXIDLeaves leaves s) cs) ->
   txid (run_calls cs m) = txid m).
Proof.
  unfold run_calls. revert m. induction cs as [|c cs IH]; intros m; simpl; [done|].
  destruct (IH (run_call c m)) as (Hutxo & Hreach & Htxid).
  destruct (run_call_pools c m) as (Hutxo1 & Hreach1 & Htxid1).
  split; [congruence|]. split; [auto|].
  intros Hnot. rewrite Htxid, Htxid1; [done | |].
  - intros leaves s ->. apply (Hnot leaves s). by left.
  - intros leaves s Hin. apply (Hnot leaves s). by right.
Qed.

(** X22: [insertTXIDLeaves] is the insertion into the TXID pool, the
    index that the pool returns dropped.  It touches neither the UTXO
    pool nor the nullifiers, and an error of the pool reaches the caller
    with the manager as it was. *)
Theorem insertTXIDLeaves_outcome (m m' : t) (leaves : list Hash) (s : Z)
    (r : result unit) :
  reachable (txid m) -> insertTXIDLeaves leaves s m = (m', r) ->
  utxo m' = utxo m /\ nullifiers m' = nullifiers m /\
  (exists r', MerkleHelper.insertLeaves leaves s (txid m) = (txid m', r') /\
     match r' with Ok _ => r = Ok tt | Throw e => r = Throw e end) /\
  (forall e, r = Throw e ->
     m' = m /\ (e = InvalidStartPosition \/ e = StartPositionMismatch)).
Proof.
  intros Hreach. unfold insertTXIDLeaves.
  destruct (MerkleHelper.insertLeaves leaves s (txid m)) as [x r'] eqn:Hrun.
  intros [= <- <-]. simpl. split; [done|]. split; [done|].
  split; [exists r'; split; [done | by destruct r']|].
  intros e He. destruct r' as [idx|e']; [done|]. injection He as ->.
  destruct (insertLeaves_outcome _ _ _ _ _ (reachable_inv _ Hreach) Hrun) as [_ Hthrow].
  destruct (Hthrow e eq_refl) as [-> Herr]. split; [by destruct m | done].
Qed.
End ManagerPools.

(** ** The further properties on concrete inputs *)
Section MoreConcrete.
#[local] Existing Instance Sym.sym.
Import Sym.

Lemma pool1_reachable : reachable pool1.
Proof. apply (reachable_new 1). reflexivity. Qed.

Lemma pool1_full_reachable : reachable pool1_full.
Proof.
  apply (reachable_insertLeaves pool1 _ [Bytes 2; Bytes 4] 0 (Ok 0) pool1_reachable).
  reflexivity.
Qed.

Lemma pool1_spilled_reachable : reachable pool1_spilled.
Proof.
  apply (reachable_insertLeaves pool1 _ [Bytes 2; Bytes 4; Bytes 8] 0 (Ok 1)
           pool1_reachable).
  reflexivity.
Qed.

Lemma Poseidon_inj (a b c d : SymHash) : Poseidon a b = Poseidon c d -> a = c /\ b = d.
Proof. intros Heq. by injection Heq. Qed.

(** The chain of depth 3 at its second step. *)
Lemma zero_chain_witness :
  exists zs z,
    MerkleTree.getZeroValueLevels 3 = Ok zs /\ length zs = 3 /\
    zs !! 0 = Some MerkleTree.zeroValue /\
    zs !! 1 = Some z /\ zs !! 2 = Some (poseidon z z).
Proof. apply (zero_chain (HP := sym) 3 1). lia. Defined.

(** The fresh tree of depth 1. *)
Lemma fresh_root_continues_chain_witness :
  exists this r zs1,
    MerkleTree.createTree 0 1 None = Ok this /\
    MerkleTree.treeNumber this = 0 /\ MerkleTree.depth this = 1 /\
    MerkleTree.length this = Ok 0 /\ MerkleTree.root this = Ok (Some r) /\
    MerkleTree.getZeroValueLevels 2 = Ok zs1 /\ zs1 !! 1 = Some r /\
    MerkleTree.zeros this = take 1 zs1.
Proof. apply (fresh_root_continues_chain (HP := sym) 0 1). lia. Defined.

(** A tree made from the emptied tree, whose root is undefined. *)
Lemma createTree_seed_witness :
  exists this fresh r0,
    MerkleTree.createTree 1 1 (Some emptied) = Ok this /\
    MerkleTree.createTree 1 1 None = Ok fresh /\
    MerkleTree.root fresh = Ok (Some r0) /\
    MerkleTree.root this = Ok (Some r0) /\
    MerkleTree.length this = Ok 0 /\
    MerkleTree.zeros this = MerkleTree.zeros fresh /\
    MerkleTree.treeNumber this = 1 /\ MerkleTree.depth this = 1.
Proof.
  apply (createTree_seed (HP := sym) 1 1 emptied None); [lia | reflexivity].
Defined.

(** One leaf written at position 4 of the tree of two leaves. *)
Lemma insertLeaves_read_back_witness :
  exists this' lvl',
    MerkleTree.insertLeaves [Bytes 8] 4 two_leaves = (this', Ok tt) /\
    js_get (MerkleTree.tree this') 0 = Some lvl' /\
    MerkleTree.length this' = Ok 5 /\
    js_get lvl' 4 = Some (Bytes 8) /\
    js_get lvl' 2 = None /\ js_get lvl' 3 = None /\
    js_get lvl' 1 = Some (Bytes 4).
Proof.
  destruct (insertLeaves_read_back (HP := sym) two_leaves
              [Some (Bytes 2); Some (Bytes 4)] [Bytes 8] 4)
    as (this' & lvl' & Hrun & Hlvl & Hlen & Hread & Hkeep & _).
  - reflexivity.
  - discriminate.
  - reflexivity.
  - exists this', lvl'. split; [exact Hrun|]. split; [exact Hlvl|].
    split; [exact Hlen|]. split; [exact (Hread 0 (Bytes 8) eq_refl)|].
    split; [rewrite (Hkeep 2); [reflexivity | lia]|].
    split; [rewrite (Hkeep 3); [reflexivity | lia]|].
    rewrite (Hkeep 1); [reflexivity | lia].
Defined.

(** The tree of two leaves has no hole, and is rebuilt. *)
Lemma rebuildSparseTree_raises_iff_witness :
  exists this', MerkleTree.rebuildSparseTree two_leaves = (this', Ok tt).
Proof.
  destruct (rebuildSparseTree_raises_iff (HP := sym) two_leaves
              [Some (Bytes 2); Some (Bytes 4)]) as [[_ Hrun] _].
  - vm_compute. lia.
  - intros k Hk. vm_compute in Hk. replace k with 0 by lia. by eexists.
  - reflexivity.
  - apply Hrun. intros p Hp. simpl in Hp. replace p with 0 by lia. by eexists.
Defined.

(** The tree of two leaves, finalized twice. *)
Lemma rebuildSparseTree_idempotent_witness :
  MerkleTree.rebuildSparseTree two_leaves_final = (two_leaves_final, Ok tt).
Proof.
  apply (rebuildSparseTree_idempotent (HP := sym) two_leaves two_leaves_final).
  reflexivity.
Defined.

(** The root of the finalized tree of two leaves. *)
Lemma rebuildSparseTree_interior_witness :
  exists cur next,
    js_get (MerkleTree.tree two_leaves_final) 0 = Some cur /\
    js_get (MerkleTree.tree two_leaves_final) 1 = Some next /\
    length next = (length cur + 1) / 2 /\
    Forall is_Some next /\
    (2 * 0 < length cur ->
     exists l r,
       js_get cur (2 * 0) = Some l /\
       nullish (js_get cur (2 * 0 + 1)) (MerkleTree.zeros two_leaves_final !! 0) = Some r /\
       js_get next 0 = Some (poseidon l r)).
Proof.
  apply (rebuildSparseTree_interior (HP := sym) two_leaves two_leaves_final 0 0).
  - reflexivity.
  - vm_compute. lia.
Defined.

(** The tree of two leaves before and after a first finalize: the same
    leaves under two interiors. *)
Lemma rebuildSparseTree_from_leaves_witness :
  MerkleTree.root (MerkleTree.rebuildSparseTree two_leaves).1 =
  MerkleTree.root (MerkleTree.rebuildSparseTree two_leaves_final).1 /\
  MerkleTree.root two_leaves <> MerkleTree.root two_leaves_final.
Proof.
  split; [|discriminate].
  apply (rebuildSparseTree_from_leaves (HP := sym) two_leaves two_leaves_final);
    reflexivity.
Defined.

(** The proof of the second of two leaves, and of a value that is no leaf. *)
Lemma generateProof_outcome_witness :
  MerkleTree.generateProof two_leaves (Bytes 8) = Throw ElementNotFound /\
  forall proof, MerkleTree.generateProof two_leaves (Bytes 4) = Ok proof ->
    MerkleTree.indices proof = 1%Z /\ length (MerkleTree.elements proof) = 1.
Proof.
  split.
  - destruct (generateProof_outcome (HP := sym) two_leaves
                [Some (Bytes 2); Some (Bytes 4)] (Bytes 8) eq_refl) as (Habsent & _).
    apply Habsent. simpl. intros [H|[H|[]]]; discriminate.
  - intros proof Hgen.
    destruct (generateProof_outcome (HP := sym) two_leaves
                [Some (Bytes 2); Some (Bytes 4)] (Bytes 4) eq_refl) as (_ & _ & Hok).
    destruct (Hok proof Hgen) as (_ & Hlen & _ & i & Hi & Hget & Hfirst).
    split; [|exact Hlen]. rewrite Hi.
    destruct i as [|[|i]]; [discriminate | reflexivity | discriminate].
Defined.

(** The proof of the second of two leaves shows that leaf at position 1. *)
Lemma validateProof_sound_witness :
  js_get [Some (Bytes 2); Some (Bytes 4)] 1 = Some (Bytes 4) \/
  (js_get [Some (Bytes 2); Some (Bytes 4)] 1 = None /\
   Bytes 4 = MerkleTree.zeroValue).
Proof.
  apply (validateProof_sound (HP := sym) two_leaves two_leaves_final
           [Some (Bytes 2); Some (Bytes 4)] proof_of_4 Poseidon_inj);
    reflexivity.
Defined.

(** The pool of depth 1. *)
Lemma new_pool_witness :
  exists p tr r,
    MerkleHelper.new 1 = Ok p /\ MerkleHelper.trees p = [tr] /\
    MerkleHelper.currentTreeIndex p = 0 /\
    MerkleHelper.maxLeaves p = (2 ^ Z.of_nat 1)%Z /\
    MerkleHelper.currentLength p = Ok 0 /\
    MerkleHelper.depth p = Ok 1 /\ MerkleHelper.root p = Ok (Some r) /\
    MerkleHelper.roots p = Ok [Some r] /\
    (forall zs, MerkleTree.getZeroValueLevels 2 = Ok zs -> zs !! 1 = Some r) /\
    MerkleHelper.generateProof p (Bytes 2) (Some 0%Z) = Throw ElementNotFound /\
    MerkleHelper.generateProof p (Bytes 2) None = Throw ElementNotFoundInAnyTree.
Proof. apply (new_pool (HP := sym) 1 (Bytes 2)). lia. Defined.

(** The getters of the pool after a spill. *)
Lemma reachable_getters_witness :
  exists cur r rs,
    S (MerkleHelper.currentTreeIndex pool1_spilled) =
      length (MerkleHelper.trees pool1_spilled) /\
    MerkleHelper.currentTree pool1_spilled = Ok cur /\
    MerkleHelper.depth pool1_spilled = Ok (MerkleHelper.treeDepth pool1_spilled) /\
    MerkleHelper.maxLeaves pool1_spilled =
      (2 ^ Z.of_nat (MerkleHelper.treeDepth pool1_spilled))%Z /\
    MerkleHelper.root pool1_spilled = Ok r /\
    MerkleHelper.roots pool1_spilled = Ok rs /\
    length rs = length (MerkleHelper.trees pool1_spilled) /\
    rs !! MerkleHelper.currentTreeIndex pool1_spilled = Some r.
Proof. apply (reachable_getters (HP := sym) pool1_spilled pool1_spilled_reachable). Defined.

(** One leaf into the empty pool of capacity 2. *)
Lemma insertLeaves_keeps_roots_witness :
  exists p',
    MerkleHelper.insertLeaves [Bytes 2] 0 pool1 = (p', Ok 0) /\
    MerkleHelper.currentLength p' = Ok 1 /\
    MerkleHelper.roots p' = MerkleHelper.roots pool1 /\
    MerkleHelper.root p' = MerkleHelper.root pool1.
Proof.
  destruct (MerkleHelper.currentTree pool1) as [cur|] eqn:Hcur; [|discriminate].
  destruct (insertLeaves_keeps_roots (HP := sym) pool1 cur [] [Bytes 2] pool1_reachable Hcur)
    as (p' & cur' & Hrun & _ & _ & _ & Hcur' & Hlvl & _ & Hroots & Hroot).
  - vm_compute in Hcur. injection Hcur as <-. reflexivity.
  - discriminate.
  - vm_compute. discriminate.
  - exists p'. split; [exact Hrun|]. split; [|split; [exact Hroots | exact Hroot]].
    unfold MerkleHelper.currentLength, MerkleTree.length. by rewrite Hcur', Hlvl.
Defined.

(** Two leaves into the empty pool of capacity 2. *)
Lemma insertLeaves_exact_fill_witness :
  exists p',
    MerkleHelper.insertLeaves [Bytes 2; Bytes 4] 0 pool1 = (p', Ok 0) /\
    length (MerkleHelper.trees p') = 1 /\
    MerkleHelper.insertLeaves [Bytes 8] 2 p' = (p', Throw InvalidStartPosition) /\
    MerkleHelper.insertLeaves [Bytes 8] 0 p' = (p', Throw StartPositionMismatch).
Proof.
  destruct (MerkleHelper.currentTree pool1) as [cur|] eqn:Hcur; [|discriminate].
  destruct (insertLeaves_exact_fill (HP := sym) pool1 cur [] [Bytes 2; Bytes 4]
              pool1_reachable Hcur)
    as (p' & Hrun & Hlen & _ & Hstuck).
  - vm_compute in Hcur. injection Hcur as <-. reflexivity.
  - discriminate.
  - reflexivity.
  - exists p'. split; [exact Hrun|]. split; [exact Hlen|]. split.
    + apply (Hstuck [Bytes 8] 2%Z). discriminate.
    + apply (Hstuck [Bytes 8] 0%Z). discriminate.
Defined.

(** The first tree of the pool after a spill. *)
Lemma reachable_closed_witness :
  exists tr lvl0 r,
    MerkleHelper.trees pool1_spilled !! 0 = Some tr /\
    MerkleTree.treeNumber tr = 0 /\
    js_get (MerkleTree.tree tr) 0 = Some lvl0 /\
    Z.of_nat (length lvl0) = MerkleHelper.maxLeaves pool1_spilled /\
    MerkleTree.root tr = Ok (Some r).
Proof.
  destruct (MerkleHelper.trees pool1_spilled !! 0) as [tr|] eqn:Htr; [|discriminate].
  destruct (reachable_closed (HP := sym) pool1_spilled 0 tr pool1_spilled_reachable Htr)
    as (Hnum & Hclosed).
  destruct Hclosed as (_ & lvl0 & r & Hlvl & _ & Hlen & Hroot); [vm_compute; lia|].
  by exists tr, lvl0, r.
Defined.

(** The search through the pool after a spill, for a leaf of the second
    tree and with an index that names no tree. *)
Lemma generateProof_search_witness :
  exists proof tr,
    MerkleHelper.generateProof pool1_spilled (Bytes 8) (Some (-1)%Z) = Ok (proof, 1) /\
    MerkleHelper.trees pool1_spilled !! 1 = Some tr /\
    MerkleTree.generateProof tr (Bytes 8) = Ok proof.
Proof.
  destruct (generateProof_search (HP := sym) pool1_spilled (Bytes 8) (Some (-1)%Z))
    as [Hok _].
  - intros i [= <-]. left. lia.
  - destruct (MerkleHelper.generateProof pool1_spilled (Bytes 8) (Some (-1)%Z))
      as [[proof j]|] eqn:Hgen; [|discriminate].
    assert (Hj : j = 1) by (vm_compute in Hgen; by injection Hgen as _ <-).
    subst j. destruct (proj1 (Hok proof 1) eq_refl) as (tr & Htr & Hpf & _).
    by exists proof, tr.
Defined.

(** A leaf of the first tree of the pool after a spill. *)
Lemma generateProof_closed_tree_witness :
  (exists proof,
     MerkleHelper.generateProof pool1_spilled (Bytes 4) (Some 0%Z) = Ok (proof, 0) /\
     MerkleTree.validateProof proof = Ok true) /\
  (exists proof j,
     MerkleHelper.generateProof pool1_spilled (Bytes 4) None = Ok (proof, j) /\ j <= 0 /\
     MerkleTree.validateProof proof = Ok true).
Proof.
  destruct (MerkleHelper.trees pool1_spilled !! 0) as [tr|] eqn:Htr; [|discriminate].
  destruct (generateProof_closed_tree (HP := sym) pool1_spilled 0 tr
              [Some (Bytes 2); Some (Bytes 4)] (Bytes 4) pool1_spilled_reachable)
    as [(proof & Hgen & Hvalid & _) Hsearch].
  - vm_compute. lia.
  - exact Htr.
  - vm_compute in Htr. injection Htr as <-. reflexivity.
  - simpl. tauto.
  - split; [by exists proof | exact Hsearch].
Defined.

(** The full pool of capacity 2, finalized twice. *)
Lemma finalizeTree_pool_witness :
  MerkleHelper.finalizeTree (MerkleHelper.finalizeTree pool1_full).1 =
    ((MerkleHelper.finalizeTree pool1_full).1, Ok tt).
Proof.
  apply (finalizeTree_pool (HP := sym) pool1_full
           (MerkleHelper.finalizeTree pool1_full).1
           (MerkleHelper.finalizeTree pool1_full).2 pool1_full_reachable).
  by destruct (MerkleHelper.finalizeTree pool1_full).
Defined.

(** The second leaf of the full pool of capacity 2, after a finalize. *)
Lemma finalizeTree_then_proof_witness :
  exists proof,
    MerkleHelper.generateProof (MerkleHelper.finalizeTree pool1_full).1 (Bytes 4)
      (Some 0%Z) = Ok (proof, 0) /\
    MerkleTree.validateProof proof = Ok true /\
    MerkleHelper.root (MerkleHelper.finalizeTree pool1_full).1 =
      Ok (MerkleTree.proof_root proof).
Proof.
  destruct (MerkleHelper.currentTree pool1_full) as [cur|] eqn:Hcur; [|discriminate].
  apply (finalizeTree_then_proof (HP := sym) pool1_full
           (MerkleHelper.finalizeTree pool1_full).1
           (MerkleHelper.finalizeTree pool1_full).2 cur
           [Some (Bytes 2); Some (Bytes 4)] (Bytes 4) pool1_full_reachable).
  - by destruct (MerkleHelper.finalizeTree pool1_full).
  - exact Hcur.
  - vm_compute in Hcur. injection Hcur as <-. reflexivity.
  - vm_compute. discriminate.
  - simpl. tauto.
Defined.

(** A leaf at a start position that the TXID pool rejects. *)
Lemma insertTXIDLeaves_outcome_witness :
  (MerkleManager.insertTXIDLeaves [Bytes 1] 1 manager1).1 = manager1.
Proof.
  destruct (MerkleManager.insertTXIDLeaves (HP := sym) [Bytes 1] 1 manager1)
    as [m' r] eqn:Hrun.
  destruct (insertTXIDLeaves_outcome (HP := sym) manager1 m' _ _ r pool1_reachable Hrun)
    as (_ & _ & _ & Hthrow).
  assert (Hr : r = Throw StartPositionMismatch)
    by (vm_compute in Hrun; by injection Hrun as _ <-).
  exact (proj1 (Hthrow _ Hr)).
Defined.

(** The tree of two leaves against itself. *)
Lemma root_binds_leaves_witness :
  js_get [Some (Bytes 2); Some (Bytes 4)] 1 = Some (Bytes 4) \/
  (js_get [Some (Bytes 2); Some (Bytes 4)] 1 = None /\
   Bytes 4 = MerkleTree.zeroValue).
Proof.
  apply (root_binds_leaves (HP := sym) two_leaves two_leaves two_leaves_final
           two_leaves_final [Some (Bytes 2); Some (Bytes 4)]
           [Some (Bytes 2); Some (Bytes 4)] 1 (Bytes 4) Poseidon_inj);
    reflexivity.
Defined.

(** A finalize of the pool after a spill keeps the first tree in place. *)
Lemma earlier_trees_kept_witness :
  MerkleHelper.currentTreeIndex pool1_spilled <=
    MerkleHelper.currentTreeIndex (MerkleHelper.finalizeTree pool1_spilled).1 /\
  length (MerkleHelper.trees pool1_spilled) <=
    length (MerkleHelper.trees (MerkleHelper.finalizeTree pool1_spilled).1) /\
  forall i, i < MerkleHelper.currentTreeIndex pool1_spilled ->
    MerkleHelper.trees (MerkleHelper.finalizeTree pool1_spilled).1 !! i =
    MerkleHelper.trees pool1_spilled !! i.
Proof.
  apply (earlier_trees_kept (HP := sym) pool1_spilled
           (MerkleHelper.finalizeTree pool1_spilled).1 pool1_spilled_reachable).
  right. exists (MerkleHelper.finalizeTree pool1_spilled).2.
  by destruct (MerkleHelper.finalizeTree pool1_spilled).
Defined.
End MoreConcrete.

(** * The elements of a proof: defined, and how wide

    The width of a node value is not in [Hash]: it is a parameter here,
    a function [width] under which the hash and the zero value are 32
    bytes wide, as [poseidonFunc] and [bigIntToArray(_, 32)] make them.
    A leaf is as wide as its caller made it: [insertLeaves] stores it and
    [generateProof] returns it as it is, and only [hashLeftRight] pads its
    operands, for the hash. *)
Section ElementWidths.
Context `{HP : HashPrimitive}.
Import MerkleTree.




End ElementWidths.

Section ElementWidthsConcrete.
#[local] Existing Instance Sym.sym.
Import MerkleTree Sym.


End ElementWidthsConcrete.
